(** * compileengine.engine: a shallow embedding and its properties

    The Python module [compileengine/engine.py] is embedded function by
    function.  The engine object becomes the record [Engine]; its methods
    become functions in a state-and-exception monad [M] over that record
    (a raised exception keeps the mutations made before it, as in Python).

    Blocks are mutable Python objects compared by identity, so they live in
    an arena: the list [blocks] of the engine, to which the source appends
    every [EngineBlock] at the moment it creates it.  A block reference is
    the index of the block in that list.

    The routine handed to [compile] is a Python callable that talks to the
    engine through [branch], [loop], [call], [unknown] and [write_value];
    it is represented by the tree of those interactions, [prog]. *)

From Stdlib Require Import ZArith Lia List Bool String.
From stdpp Require Import base option list gmap strings.

Open Scope Z_scope.

(** ** Data model *)

(** A Python [str] buffer: the code points of its characters. *)
Abbreviation pystr := (list Z) (only parsing).

(** Values returned by routines and passed as [condition] arguments. *)
Abbreviation val := Z (only parsing).

(** Identity of a routine object handed to [call]. *)
Abbreviation fid := nat (only parsing).

(** Elements of [path_stack]: [push] receives the decision in [branch] and
    the callee in [call]. *)
Inductive token :=
| TBool (b : bool)
| TFunc (f : fid).

#[global] Instance token_eq_dec : EqDecision token.
Proof. solve_decision. Defined.

#[global] Instance token_countable : Countable token.
Proof.
  refine (inj_countable'
            (fun t => match t with TBool b => inl b | TFunc f => inr f end)
            (fun s => match s with inl b => TBool b | inr f => TFunc f end) _).
  intros []; reflexivity.
Defined.

(** [EngineBlock]: [buff] is [None] until the block is closed, [jumps] maps
    an offset to a block reference, [offset] starts at -1. *)
Record EngineBlock := mkBlock {
  buff : option pystr;
  jumps : gmap Z nat;
  offset : Z
}.

Definition new_block : EngineBlock :=
  {| buff := None; jumps := ∅; offset := -1 |}.

Definition pointer_size : Z := 4.

Definition STATE_IDLE : Z := 0.
Definition STATE_BUILDING_BRANCHES : Z := 1.
Definition STATE_COMPILING : Z := 2.

(** A decision sequence.  An entry of [paths] is a tuple of booleans that
    may carry the [NewBranch] class as its last element; the second
    component records that marker.  ([_find_branches] only ever appends the
    marker to the entry it has just run, so the marker is never read back as
    a decision.) *)
Abbreviation path := (list bool) (only parsing).
Abbreviation path_entry := (list bool * bool)%type (only parsing).

Record Engine := mkEngine {
  buffer : pystr;              (* the StringIO contents; position = length *)
  state : Z;
  stack : list nat;
  current_block : option nat;
  state_blocks : gmap (list token) nat;
  path_stack : list token;
  blocks : list EngineBlock;
  paths : list path_entry;
  path_id : nat;
  current_path : path;
  branch_id : nat
}.

(** [Engine.__init__] ([paths], [path_id], [current_path] and [branch_id]
    are created by [_find_branches] before they are read). *)
Definition Engine_init : Engine :=
  {| buffer := []; state := STATE_IDLE; stack := []; current_block := None;
     state_blocks := ∅; path_stack := []; blocks := []; paths := [];
     path_id := 0; current_path := []; branch_id := 0 |}.

Definition set_buffer (v : pystr) (e : Engine) : Engine :=
  mkEngine v (state e) (stack e) (current_block e) (state_blocks e)
           (path_stack e) (blocks e) (paths e) (path_id e) (current_path e)
           (branch_id e).
Definition set_state (v : Z) (e : Engine) : Engine :=
  mkEngine (buffer e) v (stack e) (current_block e) (state_blocks e)
           (path_stack e) (blocks e) (paths e) (path_id e) (current_path e)
           (branch_id e).
Definition set_stack (v : list nat) (e : Engine) : Engine :=
  mkEngine (buffer e) (state e) v (current_block e) (state_blocks e)
           (path_stack e) (blocks e) (paths e) (path_id e) (current_path e)
           (branch_id e).
Definition set_current_block (v : option nat) (e : Engine) : Engine :=
  mkEngine (buffer e) (state e) (stack e) v (state_blocks e)
           (path_stack e) (blocks e) (paths e) (path_id e) (current_path e)
           (branch_id e).
Definition set_state_blocks (v : gmap (list token) nat) (e : Engine) : Engine :=
  mkEngine (buffer e) (state e) (stack e) (current_block e) v
           (path_stack e) (blocks e) (paths e) (path_id e) (current_path e)
           (branch_id e).
Definition set_path_stack (v : list token) (e : Engine) : Engine :=
  mkEngine (buffer e) (state e) (stack e) (current_block e) (state_blocks e)
           v (blocks e) (paths e) (path_id e) (current_path e)
           (branch_id e).
Definition set_blocks (v : list EngineBlock) (e : Engine) : Engine :=
  mkEngine (buffer e) (state e) (stack e) (current_block e) (state_blocks e)
           (path_stack e) v (paths e) (path_id e) (current_path e)
           (branch_id e).
Definition set_paths (v : list path_entry) (e : Engine) : Engine :=
  mkEngine (buffer e) (state e) (stack e) (current_block e) (state_blocks e)
           (path_stack e) (blocks e) v (path_id e) (current_path e)
           (branch_id e).
Definition set_path_id (v : nat) (e : Engine) : Engine :=
  mkEngine (buffer e) (state e) (stack e) (current_block e) (state_blocks e)
           (path_stack e) (blocks e) (paths e) v (current_path e)
           (branch_id e).
Definition set_current_path (v : path) (e : Engine) : Engine :=
  mkEngine (buffer e) (state e) (stack e) (current_block e) (state_blocks e)
           (path_stack e) (blocks e) (paths e) (path_id e) v
           (branch_id e).
Definition set_branch_id (v : nat) (e : Engine) : Engine :=
  mkEngine (buffer e) (state e) (stack e) (current_block e) (state_blocks e)
           (path_stack e) (blocks e) (paths e) (path_id e) (current_path e)
           v.

(** ** Exceptions and the engine monad *)

Inductive exn :=
| NewBranch
| NotImplementedError
| IndexError
| TypeError
| AttributeError
| UserError (code : Z).

#[global] Instance exn_eq_dec : EqDecision exn.
Proof. solve_decision. Defined.

Inductive result (A : Type) :=
| Ok (a : A) (e : Engine)
| Err (x : exn) (e : Engine).
Arguments Ok {A} a e.
Arguments Err {A} x e.

Definition engine_of {A} (r : result A) : Engine :=
  match r with Ok _ e => e | Err _ e => e end.

Definition M (A : Type) := Engine -> result A.

Definition ret {A} (a : A) : M A := fun e => Ok a e.
Definition raise {A} (x : exn) : M A := fun e => Err x e.
Definition bind {A B} (m : M A) (k : A -> M B) : M B :=
  fun e => match m e with
           | Ok a e' => k a e'
           | Err x e' => Err x e'
           end.
Definition gets {A} (f : Engine -> A) : M A := fun e => Ok (f e) e.
Definition modify (f : Engine -> Engine) : M unit := fun e => Ok tt (f e).

Notation "x <- m ;; k" := (bind m (fun x => k))
  (at level 100, m at next level, right associativity).
Notation "m ;;; k" := (bind m (fun _ => k))
  (at level 100, right associativity).

(** ** The buffer: [write], [tell], [truncate(0); seek(0)] *)

(** The engine only ever writes at the end of its buffer, so the stream
    position is the length of the contents. *)
Definition write (s : pystr) : M unit :=
  modify (fun e => set_buffer (buffer e ++ s) e).
Definition tell : M Z := gets (fun e => Z.of_nat (length (buffer e))).
Definition getvalue : M pystr := gets buffer.
Definition reset : M unit := modify (set_buffer []).

(** [chr((value >> (i*8)) & 0xFF)] for [i] in [range(size)]. *)
Definition value_bytes (value size : Z) : pystr :=
  (fun i => Z.land (Z.shiftr value (Z.of_nat i * 8)) 255)
    <$> seq 0 (Z.to_nat size).

Definition write_value (value size : Z) : M unit :=
  write (value_bytes value size).

Definition write_end (value : val) : M unit := ret tt.

(** ** Blocks: [push] and [pop] *)

Definition set_buff (s : pystr) (b : EngineBlock) : EngineBlock :=
  {| buff := Some s; jumps := jumps b; offset := offset b |}.
Definition set_jump (ofs : Z) (target : nat) (b : EngineBlock) : EngineBlock :=
  {| buff := buff b; jumps := <[ofs := target]> (jumps b); offset := offset b |}.

(** [block.buff = self.getvalue()] on the block referenced by [r]. *)
Definition store_buff (r : nat) : M unit :=
  modify (fun e => set_blocks (alter (set_buff (buffer e)) r (blocks e)) e).

(** [block.jumps[ofs] = target], where [block] was read from
    [self.current_block] and is [None] when no block is open. *)
Definition store_jump (block : option nat) (ofs : Z) (target : nat) : M unit :=
  match block with
  | Some r =>
      modify (fun e => set_blocks (alter (set_jump ofs target) r (blocks e)) e)
  | None => raise AttributeError
  end.

(** [self.current_block], failing as attribute access on [None] does. *)
Definition the_current_block : M nat :=
  fun e => match current_block e with
           | Some r => Ok r e
           | None => Err AttributeError e
           end.

Definition push (st : token) : M unit :=
  block <- the_current_block ;;
  store_buff block ;;;
  reset ;;;
  modify (fun e => set_stack (stack e ++ [block]) e) ;;;
  modify (fun e => set_path_stack (path_stack e ++ [st]) e) ;;;
  fun e =>
    match state_blocks e !! path_stack e with
    | Some r => Ok tt (set_current_block (Some r) e)
    | None =>
        let r := length (blocks e) in
        Ok tt (set_state_blocks (<[path_stack e := r]> (state_blocks e))
                 (set_blocks (blocks e ++ [new_block])
                    (set_current_block (Some r) e)))
    end.

(** [list.pop()] on the last element. *)
Definition list_pop {A} (l : list A) : option (list A * A) :=
  match rev l with
  | [] => None
  | x :: r => Some (rev r, x)
  end.

Definition pop : M unit :=
  cur <- the_current_block ;;
  store_buff cur ;;;
  block <- (fun e => match list_pop (stack e) with
                     | Some (s, b) => Ok b (set_stack s e)
                     | None => Err IndexError e
                     end) ;;
  (fun e => match list_pop (path_stack e) with
            | Some (s, _) => Ok tt (set_path_stack s e)
            | None => Err IndexError e
            end) ;;;
  modify (set_current_block (Some block)) ;;;
  reset ;;;
  fun e => match blocks e !! block ≫= buff with
           | Some s => write s e
           | None => Err TypeError e
           end.

(** ** The instruction API: [branch], [loop], [call], [unknown] *)

Definition compiling : M bool :=
  gets (fun e => state e =? STATE_COMPILING).

Definition write_branch (branch_state : bool) (condition : val) : M Z :=
  ofs <- tell ;;
  write_value 0 pointer_size ;;;
  ret ofs.

Definition write_jump : M Z :=
  write_value 0 pointer_size ;;;
  pos <- tell ;;
  ret (pos - pointer_size).

Definition branch (condition : val) : M bool :=
  fun e =>
    match current_path e !! branch_id e with
    | None =>
        Err NewBranch
            (set_paths (paths e ++ [(current_path e ++ [true], false);
                                    (current_path e ++ [false], false)]) e)
    | Some value =>
        (c <- compiling ;;
         (if c then
            old_block <- gets current_block ;;
            true_ofs <- write_branch true condition ;;
            false_ofs <- write_branch false condition ;;
            push (TBool value) ;;;
            cur <- the_current_block ;;
            (if value
             then store_jump old_block true_ofs cur
             else store_jump old_block false_ofs cur)
          else ret tt) ;;;
         ret value) (set_branch_id (S (branch_id e)) e)
    end.

Definition loop (condition : val) : M bool :=
  raise NotImplementedError.

(** [call]: [body] is the effect of [new_func(self)]. *)
Definition call (new_func : fid) (body : M val) : M val :=
  c <- compiling ;;
  (if c then
     block <- gets current_block ;;
     ofs <- write_jump ;;
     push (TFunc new_func) ;;;
     cur <- the_current_block ;;
     store_jump block ofs cur
   else ret tt) ;;;
  r <- body ;;
  c' <- compiling ;;
  (if c' then write_end r ;;; pop else ret tt) ;;;
  ret r.

Definition unknown (value size : Z) : M unit :=
  c <- compiling ;;
  if c then write_value value size else ret tt.

(** ** Routines *)

(** The routine passed to [compile], as the tree of its calls into the
    engine.  [Branch] continues with the decision it is handed; the code
    after a [Loop] is never reached; [Call] carries the identity of the
    callee and the callee's own tree, and continues with the value the
    callee returns; the token returned by [unknown] (the string ['1+1'])
    carries no information, so the continuation of [Unknown] does not depend
    on it; [Raise] is an exception of the routine's own. *)
Inductive prog :=
| Ret (v : val)
| Branch (condition : val) (k : bool -> prog)
| Loop (condition : val) (k : bool -> prog)
| Call (new_func : fid) (body : prog) (k : val -> prog)
| Unknown (value size : Z) (k : prog)
| WriteValue (value size : Z) (k : prog)
| Raise (code : Z).

Fixpoint exec (p : prog) : M val :=
  match p with
  | Ret v => ret v
  | Branch c k => fun e =>
      match branch c e with
      | Ok b e' => exec (k b) e'
      | Err x e' => Err x e'
      end
  | Loop c k => fun e =>
      match loop c e with
      | Ok b e' => exec (k b) e'
      | Err x e' => Err x e'
      end
  | Call f body k => fun e =>
      match call f (exec body) e with
      | Ok v e' => exec (k v) e'
      | Err x e' => Err x e'
      end
  | Unknown v s k => fun e =>
      match unknown v s e with
      | Ok _ e' => exec k e'
      | Err x e' => Err x e'
      end
  | WriteValue v s k => fun e =>
      match write_value v s e with
      | Ok _ e' => exec k e'
      | Err x e' => Err x e'
      end
  | Raise c => raise (UserError c)
  end.

(** ** Discovery: [_find_branches] *)

(** Tuple comparison on decision sequences: [False < True], a proper prefix
    is smaller. *)
Fixpoint path_ltb (p q : path) : bool :=
  match p, q with
  | [], [] => false
  | [], _ :: _ => true
  | _ :: _, [] => false
  | a :: p', b :: q' =>
      if Bool.eqb a b then path_ltb p' q' else (negb a && b)%bool
  end.

(** [list.sort(reverse=True)]: descending, equal entries keep their order. *)
Fixpoint insert_desc (x : path_entry) (l : list path_entry) : list path_entry :=
  match l with
  | [] => [x]
  | y :: l' => if path_ltb (fst y) (fst x) then x :: l
               else y :: insert_desc x l'
  end.

Definition sort_desc (l : list path_entry) : list path_entry :=
  foldr insert_desc [] l.

(** The [while] loop of [_find_branches].  [func n] is the tree followed by
    the [n]-th invocation of the routine since [compile] was entered (a
    routine that is a function of the decisions alone is constant in [n]);
    during discovery the invocation number is [path_id].  [fuel] bounds the
    number of iterations. *)
Fixpoint find_loop (fuel : nat) (func : nat -> prog) (e : Engine)
  : option (result unit) :=
  if (path_id e <? length (paths e))%nat then
    match fuel with
    | O => None
    | S fuel' =>
        match paths e !! path_id e with
        | None => Some (Err IndexError e)
        | Some (p, _) =>
            let e1 := set_branch_id 0 (set_current_path p e) in
            match exec (func (path_id e)) e1 with
            | Ok _ e2 => find_loop fuel' func (set_path_id (S (path_id e2)) e2)
            | Err NewBranch e2 =>
                find_loop fuel' func
                  (set_path_id (S (path_id e2))
                     (set_paths (<[path_id e2 := (current_path e2, true)]> (paths e2)) e2))
            | Err x e2 => Some (Err x e2)
            end
        end
    end
  else Some (Ok tt e).

Definition terminal (p : path_entry) : bool := negb (snd p).

Definition _find_branches (fuel : nat) (func : nat -> prog) (e : Engine)
  : option (result unit) :=
  match find_loop fuel func (set_path_id 0 (set_paths [([], false)] e)) with
  | Some (Ok _ e') =>
      Some (Ok tt (set_paths (sort_desc (List.filter terminal (paths e'))) e'))
  | r => r
  end.

(** ** [compile] *)

(** [while self.stack: self.pop()]; every [pop] shortens [stack]. *)
Fixpoint pop_all (n : nat) : M unit :=
  fun e =>
    match stack e, n with
    | [], _ => Ok tt e
    | _, O => Ok tt e
    | _, S n' => (pop ;;; pop_all n') e
    end.

Definition unwind : M unit := fun e => pop_all (length (stack e)) e.

(** The [for path in self.paths] loop.  [n] is the invocation number of the
    routine.  The list is only extended by a [branch] that raises, which
    ends the loop, so iterating over the list read at loop entry is the
    same. *)
Fixpoint compile_paths (func : nat -> prog) (n : nat) (ps : list path_entry)
  : M unit :=
  match ps with
  | [] => ret tt
  | p :: ps' =>
      reset ;;;
      modify (set_branch_id 0) ;;;
      modify (set_current_path (fst p)) ;;;
      r <- exec (func n) ;;
      write_end r ;;;
      cur <- the_current_block ;;
      store_buff cur ;;;
      unwind ;;;
      compile_paths func (S n) ps'
  end.

(** The body of the [try] in [compile]. *)
Definition compile_body (fuel : nat) (func : nat -> prog) (e : Engine)
  : option (result nat) :=
  match _find_branches fuel func (set_state STATE_BUILDING_BRANCHES e) with
  | None => None
  | Some (Err x e1) => Some (Err x e1)
  | Some (Ok _ e1) =>
      let script_block := length (blocks e1) in
      let e2 := set_blocks (blocks e1 ++ [new_block])
                  (set_current_block (Some script_block)
                     (set_state_blocks ∅ (set_state STATE_COMPILING e1))) in
      match compile_paths func (path_id e1) (paths e2) e2 with
      | Ok _ e3 => Some (Ok script_block e3)
      | Err x e3 => Some (Err x e3)
      end
  end.

(** [try: ... finally: self.state = self.STATE_IDLE]. *)
Definition compile (fuel : nat) (func : nat -> prog) (e : Engine)
  : option (result nat) :=
  match compile_body fuel func e with
  | None => None
  | Some (Ok r e') => Some (Ok r (set_state STATE_IDLE e'))
  | Some (Err x e') => Some (Err x (set_state STATE_IDLE e'))
  end.

(** ** [EngineBlock.__eq__] *)

(** The outcome of a comparison: [None] when the recursion through linked
    blocks is deeper than [fuel] (or a reference leaves the arena), an
    exception, or the boolean returned. *)
Definition cmp := option (exn + bool).

(** The [while idx < len(self.buff)] loop, with [rec] the comparison of two
    linked blocks ([self.jumps[idx] != other.jumps[idx]]).  Every iteration
    advances [idx] by at least one, so [n = len(self.buff)] iterations are
    enough and the loop condition fails once they are used up. *)
Fixpoint eq_scan (rec : nat -> nat -> cmp) (A B : EngineBlock)
         (ba bb : pystr) (n : nat) (idx : Z) : cmp :=
  match n with
  | O => Some (inr true)
  | S n' =>
      if idx <? Z.of_nat (length ba) then
        match jumps A !! idx with
        | Some ta =>
            match jumps B !! idx with
            | None => Some (inr false)
            | Some tb =>
                match rec ta tb with
                | Some (inr true) =>
                    eq_scan rec A B ba bb n' (idx + pointer_size)
                | r => r
                end
            end
        | None =>
            match ba !! Z.to_nat idx, bb !! Z.to_nat idx with
            | Some byte1, Some byte2 =>
                if byte1 =? byte2 then eq_scan rec A B ba bb n' (idx + 1)
                else Some (inr false)
            | _, _ => Some (inl IndexError)
            end
        end
      else Some (inr true)
  end.

(** [a == b] for two block references into the arena [h]. *)
Fixpoint block_eq (fuel : nat) (h : list EngineBlock) (a b : nat) : cmp :=
  match fuel with
  | O => None
  | S fuel' =>
      if decide (a = b) then Some (inr true)
      else
        match h !! a, h !! b with
        | Some A, Some B =>
            match buff A, buff B with
            | Some ba, Some bb =>
                if negb (length ba =? length bb)%nat then Some (inr false)
                else eq_scan (block_eq fuel' h) A B ba bb (length ba) 0
            | _, _ => Some (inl TypeError)
            end
        | _, _ => None
        end
  end.

(** [a != b]: [not self.__eq__(other)]. *)
Definition block_ne (fuel : nat) (h : list EngineBlock) (a b : nat) : cmp :=
  match block_eq fuel h a b with
  | Some (inr r) => Some (inr (negb r))
  | r => r
  end.

(** Offset [i] lies in a placeholder slot recorded in the jump map [J]. *)
Definition in_slot (J : gmap Z nat) (i : Z) : Prop :=
  exists o t, J !! o = Some t /\ o <= i < o + pointer_size.

(** Block equality in the words of the specification: equal content
    lengths, equal bytes outside the placeholder slots recorded in the jump
    maps, and recursively equal linked blocks at every recorded slot. *)
Inductive block_equal_spec (h : list EngineBlock) : nat -> nat -> Prop :=
| spec_equal a b A B ba bb :
    h !! a = Some A -> h !! b = Some B ->
    buff A = Some ba -> buff B = Some bb ->
    length ba = length bb ->
    (forall i x y,
        0 <= i -> ~ in_slot (jumps A) i -> ~ in_slot (jumps B) i ->
        ba !! Z.to_nat i = Some x -> bb !! Z.to_nat i = Some y -> x = y) ->
    (forall o,
        0 <= o < Z.of_nat (length ba) ->
        is_Some (jumps A !! o) <-> is_Some (jumps B !! o)) ->
    (forall o ta tb,
        0 <= o < Z.of_nat (length ba) ->
        jumps A !! o = Some ta -> jumps B !! o = Some tb ->
        block_equal_spec h ta tb) ->
    block_equal_spec h a b.

(** What [__eq__] computes: the same block, or equal lengths, equal bytes
    outside the slots of the left block, and at every slot of the left
    block a slot of the right block whose linked block is equal. *)
Inductive block_equal_left (h : list EngineBlock) : nat -> nat -> Prop :=
| left_same a : block_equal_left h a a
| left_struct a b A B ba bb :
    h !! a = Some A -> h !! b = Some B ->
    buff A = Some ba -> buff B = Some bb ->
    length ba = length bb ->
    (forall i x y,
        0 <= i -> ~ in_slot (jumps A) i ->
        ba !! Z.to_nat i = Some x -> bb !! Z.to_nat i = Some y -> x = y) ->
    (forall o,
        0 <= o < Z.of_nat (length ba) ->
        is_Some (jumps A !! o) -> is_Some (jumps B !! o)) ->
    (forall o ta tb,
        0 <= o < Z.of_nat (length ba) ->
        jumps A !! o = Some ta -> jumps B !! o = Some tb ->
        block_equal_left h ta tb) ->
    block_equal_left h a b.

(** Slots at non-negative offsets that do not overlap. *)
Definition slots_wf (J : gmap Z nat) : Prop :=
  forall o1 t1, J !! o1 = Some t1 ->
    0 <= o1 /\
    forall o2 t2, J !! o2 = Some t2 -> o1 < o2 -> o1 + pointer_size <= o2.

(** An arena whose blocks have well-formed slots and whose jump edges stay
    inside the arena and form no cycle: [rank] decreases along every edge.
    (Comparing blocks that are linked in a cycle can recurse without end;
    an arena in which every edge leads to a block created later is the
    case [rank a = length h - a].) *)
Definition arena_wf (h : list EngineBlock) (rank : nat -> nat) : Prop :=
  forall a A, h !! a = Some A ->
    slots_wf (jumps A) /\
    forall o t, jumps A !! o = Some t ->
      (t < length h)%nat /\ (rank t < rank a)%nat.

(** No slot of [J] starts before [idx] and reaches beyond it. *)
Definition boundary (J : gmap Z nat) (idx : Z) : Prop :=
  forall o t, J !! o = Some t -> o < idx -> o + pointer_size <= idx.

(** What the scan of [__eq__] still has to check from offset [idx] on. *)
Definition agree_from (h : list EngineBlock) (A B : EngineBlock)
           (ba bb : list Z) (idx : Z) : Prop :=
  (forall i x y,
      idx <= i -> ~ in_slot (jumps A) i ->
      ba !! Z.to_nat i = Some x -> bb !! Z.to_nat i = Some y -> x = y) /\
  (forall o,
      idx <= o < Z.of_nat (length ba) ->
      is_Some (jumps A !! o) -> is_Some (jumps B !! o)) /\
  (forall o ta tb,
      idx <= o < Z.of_nat (length ba) ->
      jumps A !! o = Some ta -> jumps B !! o = Some tb ->
      block_equal_left h ta tb).

(** ** The symbol registry: [VariableCollection], [FunctionCollection] *)

(** Modelled from the spec: [compileengine.variable.Variable] is imported by
    the module but is not part of the source.  It is the "named handle" of
    the registry: a plain object holding the attributes the collection
    assigns to it, [name] and (once assigned) [value]; the back-reference
    [engine] is left out. *)
Record Variable_ := mkVariable {
  var_name : string;
  var_value : option val
}.

(** What [getattr(collection, name)] can evaluate to. *)
Inductive attribute :=
| AVariable (v : Variable_)   (* a registry entry, through [__getattr__] *)
| AEngine                    (* [self.engine] *)
| AClass                     (* a class: [self._inst_class], [self.__class__] *)
| AOther.                    (* the cache dict, a bound method, [None], a
                                string: objects that take no new attribute *)

(** Attributes set by [__init__] and methods defined in the class body. *)
Definition instance_attributes : list string :=
  ["_cache"; "engine"; "_inst_class"]%string.
Definition class_attributes : list string :=
  ["__init__"; "_create"; "__getattr__"; "__setattr__"; "__dir__"]%string.

(** The attributes every instance inherits from Python's [object], the
    base class named in the source (Python 3 data model). *)
Definition object_attributes : list string :=
  ["__class__"; "__delattr__"; "__dict__"; "__doc__"; "__eq__"; "__format__";
   "__ge__"; "__getattribute__"; "__getstate__"; "__gt__"; "__hash__";
   "__init_subclass__"; "__le__"; "__lt__"; "__module__"; "__ne__";
   "__new__"; "__reduce__"; "__reduce_ex__"; "__repr__"; "__sizeof__";
   "__str__"; "__subclasshook__"; "__weakref__"]%string.

(** Ordinary attribute lookup, which Python tries before [__getattr__]. *)
Definition normal_lookup (name : string) : option attribute :=
  if decide (name = "engine"%string) then Some AEngine
  else if decide (name = "_inst_class"%string \/ name = "__class__"%string)
       then Some AClass
  else if decide (name ∈ instance_attributes ++ class_attributes
                       ++ object_attributes)
       then Some AOther
  else None.

Inductive outcome (A : Type) :=
| Done (a : A) (cache : gmap string Variable_)
| Raised (x : exn).
Arguments Done {A} a cache.
Arguments Raised {A} x.

Module VariableCollection.

Definition _create (name : string) : Variable_ :=
  {| var_name := name; var_value := None |}.

Definition __getattr__ (name : string) (cache : gmap string Variable_)
  : outcome Variable_ :=
  match cache !! name with
  | Some var => Done var cache
  | None => let var := _create name in Done var (<[name := var]> cache)
  end.

(** [getattr(self, name)], also what reading [collection.name] does. *)
Definition getattr (name : string) (cache : gmap string Variable_)
  : outcome attribute :=
  match normal_lookup name with
  | Some a => Done a cache
  | None =>
      match __getattr__ name cache with
      | Done var cache' => Done (AVariable var) cache'
      | Raised x => Raised x
      end
  end.

(** [var = getattr(self, name); var.value = value].  An entry is the
    object stored in the cache under [name]; a value assigned to the
    engine or to a class lands outside the registry. *)
Definition __setattr__ (name : string) (value : val)
           (cache : gmap string Variable_) : outcome unit :=
  match getattr name cache with
  | Done (AVariable var) cache' =>
      Done tt (<[name := {| var_name := var_name var;
                            var_value := Some value |}]> cache')
  | Done AEngine cache' => Done tt cache'
  | Done AClass cache' => Done tt cache'
  | Done AOther _ => Raised AttributeError
  | Raised x => Raised x
  end.

(** [self._cache.keys()]: the names of the entries created so far (a keys
    view, which is set-like). *)
Definition __dir__ (cache : gmap string Variable_) : gset string :=
  dom cache.

End VariableCollection.

Module FunctionCollection.

Definition getattr := VariableCollection.getattr.

(** [raise TypeError('Cannot set a function')]. *)
Definition __setattr__ (name : string) (value : val)
           (cache : gmap string Variable_) : outcome unit :=
  Raised TypeError.

End FunctionCollection.

(** ** Decision trees *)

(** In discovery a routine only consumes decisions: what it does there is
    the tree of its [branch] calls, ending in a return or an exception. *)
Inductive dtree :=
| DRet (v : val)
| DAsk (k : bool -> dtree)
| DFail (x : exn).

Fixpoint dbind (t : dtree) (g : val -> dtree) : dtree :=
  match t with
  | DRet v => g v
  | DAsk k => DAsk (fun b => dbind (k b) g)
  | DFail x => DFail x
  end.

Fixpoint flatten (p : prog) : dtree :=
  match p with
  | Ret v => DRet v
  | Branch _ k => DAsk (fun b => flatten (k b))
  | Loop _ _ => DFail NotImplementedError
  | Call _ body k => dbind (flatten body) (fun v => flatten (k v))
  | Unknown _ _ k => flatten k
  | WriteValue _ _ k => flatten k
  | Raise c => DFail (UserError c)
  end.

(** The subtree reached by the decisions [ds]. *)
Fixpoint walk (t : dtree) (ds : path) {struct ds} : dtree :=
  match ds, t with
  | d :: ds', DAsk k => walk (k d) ds'
  | _, _ => t
  end.

(** Every execution makes exactly [n] branch calls and returns. *)
Fixpoint uniform (n : nat) (t : dtree) : Prop :=
  match t, n with
  | DRet _, O => True
  | DAsk k, S n' => forall b, uniform n' (k b)
  | _, _ => False
  end.

(** Number of nodes and number of returning leaves. *)
Fixpoint dsize (t : dtree) : nat :=
  match t with
  | DAsk k => S (dsize (k true) + dsize (k false))
  | _ => 1
  end.

(** Some execution raises. *)
Fixpoint can_fail (t : dtree) : Prop :=
  match t with
  | DRet _ => False
  | DAsk k => can_fail (k true) \/ can_fail (k false)
  | DFail _ => True
  end.

(** Every exception an execution can raise is [x]. *)
Fixpoint fails_only (x : exn) (t : dtree) : Prop :=
  match t with
  | DRet _ => True
  | DAsk k => fails_only x (k true) /\ fails_only x (k false)
  | DFail y => y = x
  end.

(** The routine calls neither [branch] nor [loop] and raises nothing. *)
Fixpoint straight (p : prog) : Prop :=
  match p with
  | Ret _ => True
  | Call _ body k => straight body /\ forall v, straight (k v)
  | Unknown _ _ k => straight k
  | WriteValue _ _ k => straight k
  | _ => False
  end.

(** What a discovery run does with the decisions [ds] it is fed: it
    returns (leaving [rest] unread), asks for one more, or raises. *)
Inductive fres :=
| FDone (v : val) (rest : list bool)
| FNeed
| FFail (x : exn).

Fixpoint dfeed (t : dtree) (ds : list bool) : fres :=
  match t with
  | DRet v => FDone v ds
  | DAsk k => match ds with
              | [] => FNeed
              | d :: ds' => dfeed (k d) ds'
              end
  | DFail x => FFail x
  end.

Fixpoint dleaves (t : dtree) : nat :=
  match t with
  | DAsk k => dleaves (k true) + dleaves (k false)
  | _ => 1
  end.

(** The routine never calls [write_value] itself. *)
Fixpoint direct_free (p : prog) : Prop :=
  match p with
  | Branch _ k => forall b, direct_free (k b)
  | Loop _ k => forall b, direct_free (k b)
  | Call _ body k => direct_free body /\ forall v, direct_free (k v)
  | Unknown _ _ k => direct_free k
  | WriteValue _ _ _ => False
  | _ => True
  end.

(** Sum of a measure over the decision sequences of a list of entries. *)
Fixpoint total (f : list bool -> nat) (q : list (list bool * bool)) : nat :=
  match q with
  | [] => 0
  | en :: q' => f (fst en) + total f q'
  end.

(** The fields that discovery leaves alone. *)
Definition same_frame (e e' : Engine) : Prop :=
  state e' = state e /\ stack e' = stack e /\
  current_block e' = current_block e /\ state_blocks e' = state_blocks e /\
  path_stack e' = path_stack e /\ blocks e' = blocks e.

(** An entry waiting in the discovery queue: unmarked, with a decision
    sequence satisfying [Q]. *)
Definition queued (Q : list bool -> Prop) (en : list bool * bool) : Prop :=
  snd en = false /\ Q (fst en).

(** Every sequence of [P] that extends another by one decision has that
    other sequence among the first [pid] elements of [P]. *)
Definition parents_done (P : list (list bool)) (pid : nat) : Prop :=
  forall σ b, σ ++ [b] ∈ P -> exists j, (j < pid)%nat /\ P !! j = Some σ.

(** ** The compile phase *)

(** What holds of the engine while a path is compiled, [c] being the
    current block: block references are valid, a context key identifies
    its block, and the current block is stored, if at all, under the
    current context. *)
Definition compiling_inv (e : Engine) (c : nat) : Prop :=
  state e = STATE_COMPILING /\
  current_block e = Some c /\
  (c < length (blocks e))%nat /\
  (forall key v, state_blocks e !! key = Some v -> (v < length (blocks e))%nat) /\
  (forall k1 k2 v,
      state_blocks e !! k1 = Some v -> state_blocks e !! k2 = Some v -> k1 = k2) /\
  (forall key, state_blocks e !! key = Some c -> key = path_stack e).

(** The effect of a routine that leaves the context as it found it: the
    current block, [stack] and [path_stack] are restored, the entries of
    [state_blocks] are kept, new entries lie below the current context and
    name new blocks, and blocks outside the current context are left as
    they were. *)
Definition straight_post (e : Engine) (c : nat) (e' : Engine) : Prop :=
  compiling_inv e' c /\
  stack e' = stack e /\ path_stack e' = path_stack e /\
  (forall key v, state_blocks e !! key = Some v ->
                 state_blocks e' !! key = Some v) /\
  (forall key v, state_blocks e' !! key = Some v ->
     state_blocks e !! key = Some v \/
     (path_stack e `prefix_of` key /\ key <> path_stack e /\
      (length (blocks e) <= v)%nat)) /\
  (length (blocks e) <= length (blocks e'))%nat /\
  (forall r, r <> c -> (r < length (blocks e))%nat ->
     (forall key, state_blocks e !! key = Some r ->
                  ~ path_stack e `prefix_of` key) ->
     blocks e' !! r = blocks e !! r).

(** ** Notions used by the properties of the engine as a whole *)

(** A block reference whose block exists and has been closed. *)
Definition closed_in (h : list EngineBlock) (r : nat) : Prop :=
  exists B s, h !! r = Some B /\ buff B = Some s.

(** What no call into the engine undoes: the run state, the path being
    followed and its number stay, [paths] is only extended, entries of
    [state_blocks] are kept, and a block stays where it is, stays closed
    once closed, keeps the offsets it has slots at and keeps its [offset]
    field. *)
Definition block_grows (B B' : EngineBlock) : Prop :=
  (is_Some (buff B) -> is_Some (buff B')) /\
  (forall o, is_Some (jumps B !! o) -> is_Some (jumps B' !! o)) /\
  offset B' = offset B.

Definition grows (e e' : Engine) : Prop :=
  state e' = state e /\
  path_id e' = path_id e /\ current_path e' = current_path e /\
  paths e `prefix_of` paths e' /\
  (forall key v, state_blocks e !! key = Some v ->
                 state_blocks e' !! key = Some v) /\
  (forall r B, blocks e !! r = Some B ->
     exists B', blocks e' !! r = Some B' /\ block_grows B B').


(** A computation all of whose outcomes, normal or exceptional, grow the
    engine. *)
Definition mgrows {A} (m : M A) : Prop :=
  forall e, grows e (engine_of (m e)).

(** Every entry of [P] that extends a sequence by one decision has that
    sequence, marked, among the first [pid] entries of [P]. *)
Definition marked_parents (P : list (list bool * bool)) (pid : nat) : Prop :=
  forall σ b m, (σ ++ [b], m) ∈ P ->
    exists j, (j < pid)%nat /\ P !! j = Some (σ, true).

(** No entry is smaller, as a tuple, than a later one. *)
Fixpoint descending (l : list (list bool * bool)) : Prop :=
  match l with
  | [] => True
  | a :: l' =>
      Forall (fun b => path_ltb (fst a) (fst b) = false) l' /\ descending l'
  end.

(** What a routine without [branch], [loop] and exceptions returns and
    what it leaves in the buffer of the block it runs in: the bytes it
    emits, with one zeroed placeholder per [call]. *)
Fixpoint straight_result (p : prog) : val :=
  match p with
  | Ret v => v
  | Call _ body k => straight_result (k (straight_result body))
  | Unknown _ _ k => straight_result k
  | WriteValue _ _ k => straight_result k
  | _ => 0
  end.

Fixpoint straight_output (p : prog) : list Z :=
  match p with
  | Call _ body k =>
      value_bytes 0 pointer_size ++ straight_output (k (straight_result body))
  | Unknown v s k => value_bytes v s ++ straight_output k
  | WriteValue v s k => value_bytes v s ++ straight_output k
  | _ => []
  end.

(** Two arenas whose blocks have the same content and the same jump maps. *)
Definition same_content (h h' : list EngineBlock) : Prop :=
  Forall2 (fun A A' => buff A = buff A' /\ jumps A = jumps A') h h'.

(** A computation that never changes the path being followed and extends
    [paths] only when it ends with [NewBranch], then by the two
    continuations of that path. *)
Definition paths_rule {A} (m : M A) : Prop :=
  forall e,
    match m e with
    | Ok _ e' => paths e' = paths e /\ current_path e' = current_path e
    | Err x e' =>
        current_path e' = current_path e /\
        (x = NewBranch /\
         paths e' = paths e ++ [(current_path e ++ [true], false);
                                (current_path e ++ [false], false)]
         \/ x <> NewBranch /\ paths e' = paths e)
    end.

(** A computation that reads no decision: it leaves the path being
    followed and the position in it alone, and whatever it raises is not
    the [NewBranch] signal. *)
Definition quiet {A} (m : M A) : Prop :=
  forall e,
    match m e with
    | Ok _ e' =>
        current_path e' = current_path e /\ branch_id e' = branch_id e
    | Err x _ => x <> NewBranch
    end.

(** The routine returns when it is handed the decisions [π]. *)
Definition returns_on (p : prog) (π : list bool) : Prop :=
  exists v rest, dfeed (flatten p) π = FDone v rest.

(** The two halves of [call] in the compile phase: what it does before the
    body of the callee runs (reserve the placeholder, open the block of the
    callee, wire the placeholder to it) and after it has returned. *)
Definition call_enter (new_func : fid) : M unit :=
  block <- gets current_block ;;
  ofs <- write_jump ;;
  push (TFunc new_func) ;;;
  cur <- the_current_block ;;
  store_jump block ofs cur.

Definition call_exit (r : val) : M unit :=
  write_end r ;;; pop.

(** A computation that never raises the [NewBranch] signal. *)
Definition silent {A} (m : M A) : Prop :=
  forall e, match m e with Ok _ _ => True | Err x _ => x <> NewBranch end.



(** The calls that a routine without [branch] makes itself, in order, each
    with the offset of its placeholder in the block the routine writes to:
    [tell()] at the moment of the call, [pos] being the offset at which
    the routine starts. *)
Fixpoint call_sites (pos : Z) (p : prog) : list (Z * fid) :=
  match p with
  | Call f body k =>
      (pos, f) :: call_sites (pos + pointer_size) (k (straight_result body))
  | Unknown v s k => call_sites (pos + Z.of_nat (length (value_bytes v s))) k
  | WriteValue v s k =>
      call_sites (pos + Z.of_nat (length (value_bytes v s))) k
  | _ => []
  end.


(** ** Example routines *)

(** One [branch], byte 1 on the true side and byte 2 on the false side,
    emitted through [unknown] or written directly with [write_value]. *)
Definition emit (direct : bool) (value : Z) (k : prog) : prog :=
  if direct then WriteValue value 1 k else Unknown value 1 k.

Definition one_branch (direct : bool) (condition r1 r2 : val) : prog :=
  Branch condition
         (fun b => if b then emit direct 1 (Ret r1) else emit direct 2 (Ret r2)).

(** The terminal paths of discovery as they stand before they are sorted. *)
Definition discovered (fuel : nat) (func : nat -> prog) (e : Engine)
  : option (list path_entry) :=
  match find_loop fuel func (set_path_id 0 (set_paths [([], false)] e)) with
  | Some (Ok _ e') => Some (List.filter terminal (paths e'))
  | _ => None
  end.

(** A subroutine writing one byte, called from the top level and from
    inside a second subroutine. *)
Definition leaf_sub : prog := Unknown 9 1 (Ret 0).

(** Subroutine 1 called from the top level three times, at offsets that
    are not adjacent, and once from inside subroutine 2. *)
Definition scattered_calls : prog :=
  Call 1%nat leaf_sub
       (fun _ => Unknown 7 1
          (Call 2%nat (Call 1%nat leaf_sub (fun _ => Ret 0))
                (fun _ => Call 1%nat leaf_sub
                            (fun _ => Call 1%nat leaf_sub Ret)))).

(** A routine that returns at once on its first invocation and asks for a
    decision on every later one. *)
Definition diverging (n : nat) : prog :=
  match n with
  | O => Ret 0
  | S _ => Branch 0 (fun _ => Ret 0)
  end.

(** [loop] on the true side of a [branch]. *)
Definition loop_after_branch : prog :=
  Branch 0 (fun b => if b then Loop 0 (fun _ => Ret 0) else Ret 0).

(** Two blocks with the same four zero bytes; only the second records a
    slot, linked to an empty third block. *)
Definition unlinked_vs_linked : list EngineBlock :=
  [ {| buff := Some [0; 0; 0; 0]; jumps := ∅; offset := -1 |};
    {| buff := Some [0; 0; 0; 0]; jumps := {[ 0 := 2%nat ]}; offset := -1 |};
    {| buff := Some []; jumps := ∅; offset := -1 |} ].

(** Two blocks that differ only inside their placeholder slot, both linked
    to an empty third block. *)
Definition similar_blocks : list EngineBlock :=
  [ {| buff := Some [7; 7; 7; 7; 5]; jumps := {[ 0 := 2%nat ]}; offset := -1 |};
    {| buff := Some [9; 9; 9; 9; 5]; jumps := {[ 0 := 2%nat ]}; offset := -1 |};
    {| buff := Some []; jumps := ∅; offset := -1 |} ].

(** * Properties *)

(** ** [write_value] *)

Lemma value_bytes_length value size :
  length (value_bytes value size) = Z.to_nat size.
Proof. unfold value_bytes. rewrite length_fmap, length_seq. reflexivity. Qed.

Lemma value_bytes_lookup value size i :
  (i < Z.to_nat size)%nat ->
  value_bytes value size !! i
  = Some (Z.shiftr value (8 * Z.of_nat i) mod 256).
Proof.
  intros Hi. unfold value_bytes.
  rewrite list_lookup_fmap, lookup_seq_lt by exact Hi. simpl.
  f_equal. change 255 with (Z.ones 8).
  rewrite Z.land_ones by lia. f_equal. f_equal. lia.
Qed.

(** C10: for every integer [value] and every [size >= 0], [write_value]
    appends exactly [size] bytes to the buffer and changes nothing else;
    the [i]-th appended byte is [(value >> (8*i)) mod 256], that is
    [(value / 2^(8*i)) mod 256]: least significant byte first, the value
    truncated modulo [2^(8*size)]. *)
Theorem write_value_little_endian (value size : Z) (e : Engine) :
  0 <= size ->
  exists bytes,
    write_value value size e = Ok tt (set_buffer (buffer e ++ bytes) e) /\
    Z.of_nat (length bytes) = size /\
    forall i, (i < length bytes)%nat ->
      bytes !! i = Some (Z.shiftr value (8 * Z.of_nat i) mod 256) /\
      bytes !! i = Some ((value / 2 ^ (8 * Z.of_nat i)) mod 256).
Proof.
  intros Hsize. exists (value_bytes value size).
  split; [reflexivity|]. rewrite value_bytes_length.
  split; [lia|]. intros i Hi.
  rewrite value_bytes_lookup by exact Hi.
  split; [reflexivity|]. rewrite Z.shiftr_div_pow2 by lia. reflexivity.
Qed.

Lemma write_value_little_endian_witness :
  0 <= 2 /\
  exists bytes,
    write_value 258 2 Engine_init
    = Ok tt (set_buffer (buffer Engine_init ++ bytes) Engine_init) /\
    Z.of_nat (length bytes) = 2 /\
    forall i, (i < length bytes)%nat ->
      bytes !! i = Some (Z.shiftr 258 (8 * Z.of_nat i) mod 256) /\
      bytes !! i = Some ((258 / 2 ^ (8 * Z.of_nat i)) mod 256).
Proof.
  split; [lia | apply (write_value_little_endian 258 2 Engine_init); lia].
Defined.

(** ** [branch] *)

(** C7: the decision returned by [branch] is the entry of the current path
    at the position of the call and does not depend on [condition]: the
    whole outcome of the call is the same for two conditions, and two
    executions with the same path and the same position receive the same
    decision whatever conditions they pass. *)
Theorem branch_position_only (c1 c2 : val) (e1 e2 : Engine) :
  current_path e1 = current_path e2 ->
  branch_id e1 = branch_id e2 ->
  branch c1 e1 = branch c2 e1 /\
  forall b1 b2 e1' e2',
    branch c1 e1 = Ok b1 e1' -> branch c2 e2 = Ok b2 e2' ->
    b1 = b2 /\ current_path e1 !! branch_id e1 = Some b1.
Proof.
  intros Hp Hb. split; [reflexivity|].
  intros b1 b2 e1' e2' H1 H2.
  assert (Hdec : forall c e b e', branch c e = Ok b e' ->
                   current_path e !! branch_id e = Some b).
  { clear. intros c e b e'. unfold branch.
    destruct (current_path e !! branch_id e) as [v|]; [|discriminate].
    unfold bind, compiling, gets. simpl.
    destruct (state e =? STATE_COMPILING); simpl.
    - repeat (match goal with
              | |- context [match ?m with Ok _ _ => _ | Err _ _ => _ end] =>
                  destruct m; simpl; try discriminate
              end).
      unfold ret. intros [= <- _]. reflexivity.
    - unfold ret. intros [= <- _]. reflexivity. }
  apply Hdec in H1. apply Hdec in H2.
  rewrite Hp, Hb in H1. split; congruence.
Qed.

Lemma branch_position_only_witness :
  let e1 := set_current_path [true; false] Engine_init in
  let e2 := set_state STATE_COMPILING
              (set_current_block (Some 0%nat)
                 (set_blocks [new_block]
                    (set_current_path [true; false] Engine_init))) in
  current_path e1 = current_path e2 /\
  branch_id e1 = branch_id e2 /\
  branch 3 e1 = branch 8 e1 /\
  forall b1 b2 e1' e2',
    branch 3 e1 = Ok b1 e1' -> branch 8 e2 = Ok b2 e2' ->
    b1 = b2 /\ current_path e1 !! branch_id e1 = Some b1.
Proof.
  intros e1 e2.
  split; [reflexivity|]. split; [reflexivity|].
  apply (branch_position_only 3 8 e1 e2); reflexivity.
Defined.

(** ** The routine with one [branch] *)

(** C1, as stated, fails on the order of the unsorted list: [branch]
    appends the true continuation before the false one, so discovery does
    not yield [[(false,), (true,)]]. *)
Lemma one_branch_discovered_order :
  discovered 3 (fun _ => one_branch false 0 0 0) Engine_init
  <> Some [([false], false); ([true], false)].
Proof. vm_compute. discriminate. Qed.

(** C1 (amended): for the routine that calls [branch] once and writes byte
    1 on the true side and byte 2 on the false side, discovery yields the
    paths [[(true,), (false,)]], which sorting leaves in that order, and
    [compile] returns a root block of exactly two adjacent 4-byte
    placeholder slots whose slot at offset 0 is linked to a block of
    content [[1]] and whose slot at offset 4 is linked to a block of
    content [[2]]. *)
Theorem one_branch_compiles (direct : bool) (condition r1 r2 : val) :
  let func := fun _ : nat => one_branch direct condition r1 r2 in
  discovered 3 func Engine_init = Some [([true], false); ([false], false)] /\
  sort_desc [([true], false); ([false], false)]
  = [([true], false); ([false], false)] /\
  exists root e,
    compile 3 func Engine_init = Some (Ok root e) /\
    paths e = [([true], false); ([false], false)] /\
    exists R T F,
      blocks e !! root = Some R /\
      buff R = Some [0; 0; 0; 0; 0; 0; 0; 0] /\
      (forall o, is_Some (jumps R !! o) <-> o = 0 \/ o = 4) /\
      jumps R !! 0 ≫= (fun t => blocks e !! t) = Some T /\
      buff T = Some [1] /\ jumps T = ∅ /\
      jumps R !! 4 ≫= (fun t => blocks e !! t) = Some F /\
      buff F = Some [2] /\ jumps F = ∅.
Proof.
  intros func. subst func.
  split; [destruct direct; vm_compute; reflexivity|].
  split; [vm_compute; reflexivity|].
  exists 0%nat.
  assert (Hjumps : forall o : Z,
             is_Some ((<[4 := 2%nat]> (<[0 := 1%nat]> (∅ : gmap Z nat))) !! o)
             <-> o = 0 \/ o = 4).
  { intros o. rewrite lookup_insert. case_decide as H4.
    - subst o. split; [auto | eauto].
    - rewrite lookup_insert. case_decide as H0.
      + subst o. split; [auto | eauto].
      + rewrite lookup_empty. split.
        * intros [? ?]; discriminate.
        * intros [?|?]; congruence. }
  destruct direct; eexists; (split; [vm_compute; reflexivity|]);
    (split; [reflexivity|]);
    do 3 eexists; (split; [reflexivity|]); (split; [reflexivity|]);
    (split; [exact Hjumps|]); repeat (split; [vm_compute; reflexivity|]);
    vm_compute; reflexivity.
Qed.

(** ** The symbol registry *)

Lemma normal_lookup_none name :
  name ∉ instance_attributes ++ class_attributes ++ object_attributes ->
  normal_lookup name = None.
Proof.
  intros Hn. unfold normal_lookup.
  destruct (decide (name = "engine"%string)) as [->|_].
  { exfalso. apply Hn. vm_compute. repeat constructor. }
  destruct (decide (name = "_inst_class"%string \/ name = "__class__"%string))
    as [[->| ->]|_].
  { exfalso. apply Hn. repeat constructor. }
  { exfalso. apply Hn.
    apply elem_of_app; right. apply elem_of_app; right. repeat constructor. }
  destruct (decide _) as [H|_]; [contradiction | reflexivity].
Qed.

(** C9, as stated, fails for a name that ordinary attribute lookup finds on
    the collection itself: [vars._cache = 5] fetches the cache dictionary
    and fails to set [value] on it. *)
Lemma assign_cache_name_fails :
  VariableCollection.__setattr__ "_cache" 5 ∅ = Raised AttributeError.
Proof. reflexivity. Qed.

(** C9 (amended): assigning to a function-kind entry raises [TypeError]
    for every name and value; assigning to a variable-kind entry succeeds
    for every value and every name that is not already an attribute of the
    collection object, and a later read of that name returns the entry
    holding the assigned value. *)
Theorem registry_assignment (name : string) (value : val)
        (cache : gmap string Variable_) :
  FunctionCollection.__setattr__ name value cache = Raised TypeError /\
  (name ∉ instance_attributes ++ class_attributes ++ object_attributes ->
   exists cache' var,
     VariableCollection.__setattr__ name value cache = Done tt cache' /\
     VariableCollection.getattr name cache' = Done (AVariable var) cache' /\
     var_name var = var_name (default (VariableCollection._create name)
                                      (cache !! name)) /\
     var_value var = Some value).
Proof.
  split; [reflexivity|]. intros Hn.
  pose proof (normal_lookup_none name Hn) as Hl.
  unfold VariableCollection.__setattr__, VariableCollection.getattr,
    VariableCollection.__getattr__.
  rewrite Hl.
  destruct (cache !! name) as [v|] eqn:Hc; simpl;
    eexists _, _; (split; [reflexivity|]);
    rewrite lookup_insert_eq; split; try reflexivity; split; reflexivity.
Qed.

Lemma registry_assignment_witness :
  ("foo"%string ∉ instance_attributes ++ class_attributes ++ object_attributes) /\
  exists cache' var,
    VariableCollection.__setattr__ "foo" 7 ∅ = Done tt cache' /\
    VariableCollection.getattr "foo" cache' = Done (AVariable var) cache' /\
    var_name var = var_name (default (VariableCollection._create "foo")
                                     ((∅ : gmap string Variable_) !! "foo"%string)) /\
    var_value var = Some 7.
Proof.
  assert (H : "foo"%string ∉ instance_attributes ++ class_attributes
                              ++ object_attributes).
  { intros Hin. apply list_elem_of_In in Hin. vm_compute in Hin.
    repeat (destruct Hin as [Hin|Hin]; [discriminate|]). exact Hin. }
  split; [exact H | exact (proj2 (registry_assignment "foo" 7 ∅) H)].
Defined.

(** ** Discovery runs *)

Lemma same_frame_refl e : same_frame e e.
Proof. repeat split. Qed.

Lemma same_frame_trans e1 e2 e3 :
  same_frame e1 e2 -> same_frame e2 e3 -> same_frame e1 e3.
Proof.
  unfold same_frame. intros (?&?&?&?&?&?) (?&?&?&?&?&?).
  repeat split; congruence.
Qed.

Lemma compiling_false e :
  state e <> STATE_COMPILING -> compiling e = Ok false e.
Proof.
  intros H. unfold compiling, gets.
  destruct (Z.eqb_spec (state e) STATE_COMPILING); [contradiction | reflexivity].
Qed.

Lemma compiling_true e :
  state e = STATE_COMPILING -> compiling e = Ok true e.
Proof. intros H. unfold compiling, gets. rewrite H. reflexivity. Qed.

Lemma dfeed_dbind t g : forall ds,
  dfeed (dbind t g) ds
  = match dfeed t ds with
    | FDone v rest => dfeed (g v) rest
    | FNeed => FNeed
    | FFail x => FFail x
    end.
Proof.
  induction t as [v|k IH|x]; intros ds; simpl; try reflexivity.
  destruct ds as [|d ds]; [reflexivity | apply IH].
Qed.

Lemma flatten_no_signal p : forall ds x,
  dfeed (flatten p) ds = FFail x -> x <> NewBranch.
Proof.
  induction p as [v|c k IH|c k IH|f body IHb k IHk|v s k IH|v s k IH|c];
    intros ds x; simpl; try discriminate.
  - destruct ds as [|d ds]; [discriminate | apply IH].
  - intros [= <-]. discriminate.
  - rewrite dfeed_dbind.
    destruct (dfeed (flatten body) ds) as [v rest| |y] eqn:Hb.
    + apply IHk.
    + discriminate.
    + intros [= <-]. eapply IHb. exact Hb.
  - apply IH.
  - apply IH.
  - intros [= <-]. discriminate.
Qed.

Lemma branch_discovery c e :
  state e <> STATE_COMPILING ->
  branch c e
  = match current_path e !! branch_id e with
    | Some d => Ok d (set_branch_id (S (branch_id e)) e)
    | None => Err NewBranch
                  (set_paths (paths e ++ [(current_path e ++ [true], false);
                                          (current_path e ++ [false], false)]) e)
    end.
Proof.
  intros H. unfold branch.
  destruct (current_path e !! branch_id e) as [d|]; [|reflexivity].
  unfold bind. rewrite compiling_false by exact H. reflexivity.
Qed.

Lemma call_discovery f m e :
  state e <> STATE_COMPILING ->
  (forall v e', m e = Ok v e' -> state e' = state e) ->
  call f m e = m e.
Proof.
  intros H Hm. unfold call, bind. rewrite compiling_false by exact H.
  unfold ret at 1.
  destruct (m e) as [v e'|x e'] eqn:Hme; [|reflexivity].
  rewrite compiling_false by (rewrite (Hm _ _ eq_refl); exact H).
  reflexivity.
Qed.

Lemma unknown_discovery v s e :
  state e <> STATE_COMPILING -> unknown v s e = Ok tt e.
Proof.
  intros H. unfold unknown, bind. rewrite compiling_false by exact H.
  reflexivity.
Qed.

Lemma exec_discovery p : forall e,
  state e <> STATE_COMPILING ->
  (branch_id e <= length (current_path e))%nat ->
  exists e',
    same_frame e e' /\ path_id e' = path_id e /\
    current_path e' = current_path e /\
    (direct_free p -> buffer e' = buffer e) /\
    match dfeed (flatten p) (drop (branch_id e) (current_path e)) with
    | FDone v rest =>
        exec p e = Ok v e' /\ paths e' = paths e /\
        (branch_id e' <= length (current_path e))%nat /\
        drop (branch_id e') (current_path e) = rest
    | FNeed =>
        exec p e = Err NewBranch e' /\
        paths e' = paths e ++ [(current_path e ++ [true], false);
                               (current_path e ++ [false], false)]
    | FFail x => exec p e = Err x e' /\ paths e' = paths e
    end.
Proof.
  induction p as [v|c k IH|c k IH|f body IHb k IHk|v s k IH|v s k IH|c];
    intros e Hst Hbid; simpl.
  - exists e. repeat split; auto.
  - rewrite branch_discovery by exact Hst.
    destruct (drop (branch_id e) (current_path e)) as [|d ds] eqn:Hdrop.
    + assert (Hnone : current_path e !! branch_id e = None).
      { apply lookup_ge_None.
        apply (f_equal length) in Hdrop. rewrite length_drop in Hdrop.
        simpl in Hdrop. lia. }
      rewrite Hnone.
      exists (set_paths (paths e ++ [(current_path e ++ [true], false);
                                     (current_path e ++ [false], false)]) e).
      repeat split; reflexivity.
    + assert (Hsome : current_path e !! branch_id e = Some d).
      { rewrite <- (Nat.add_0_r (branch_id e)), <- lookup_drop, Hdrop.
        reflexivity. }
      rewrite Hsome.
      assert (Hlt : (branch_id e < length (current_path e))%nat)
        by (eapply lookup_lt_Some; exact Hsome).
      destruct (IH d (set_branch_id (S (branch_id e)) e) Hst Hlt)
        as (e' & Hf & Hpid & Hcp & Hbuf & Hres).
      exists e'. split; [exact Hf|]. split; [exact Hpid|].
      split; [exact Hcp|]. split; [intros Hd; apply Hbuf, Hd|].
      simpl in Hres.
      replace (drop (S (branch_id e)) (current_path e)) with ds in Hres.
      * exact Hres.
      * replace (S (branch_id e)) with (branch_id e + 1)%nat by lia.
        rewrite <- drop_drop, Hdrop. reflexivity.
  - exists e. repeat split; auto.
  - rewrite dfeed_dbind.
    destruct (IHb e Hst Hbid) as (e1 & Hf1 & Hpid1 & Hcp1 & Hbuf1 & Hres1).
    assert (Hcall : call f (exec body) e = exec body e).
    { apply call_discovery; [exact Hst|].
      intros v e' He'.
      destruct (dfeed (flatten body) (drop (branch_id e) (current_path e)));
        destruct Hres1 as [Hx _]; rewrite Hx in He'; try discriminate.
      injection He' as <- <-. apply Hf1. }
    rewrite Hcall.
    destruct (dfeed (flatten body) (drop (branch_id e) (current_path e)))
      as [v rest| |x] eqn:Hb.
    + destruct Hres1 as (Hx & Hp1 & Hb1 & Hd1). rewrite Hx.
      assert (Hst1 : state e1 <> STATE_COMPILING)
        by (destruct Hf1 as [-> _]; exact Hst).
      assert (Hbid1 : (branch_id e1 <= length (current_path e1))%nat)
        by (rewrite Hcp1; exact Hb1).
      destruct (IHk v e1 Hst1 Hbid1) as (e2 & Hf2 & Hpid2 & Hcp2 & Hbuf2 & Hres2).
      exists e2. split; [eapply same_frame_trans; eassumption|].
      split; [congruence|]. split; [congruence|].
      split; [intros [Hd1' Hd2']; rewrite Hbuf2, Hbuf1 by auto; reflexivity|].
      rewrite Hcp1, Hd1 in Hres2. rewrite Hp1 in Hres2. exact Hres2.
    + destruct Hres1 as (Hx & Hp1). rewrite Hx.
      exists e1. repeat split; try tauto; try apply Hf1; auto.
    + destruct Hres1 as (Hx & Hp1). rewrite Hx.
      exists e1. repeat split; try tauto; try apply Hf1; auto.
  - rewrite unknown_discovery by exact Hst. apply IH; assumption.
  - unfold write_value, write, modify.
    destruct (IH (set_buffer (buffer e ++ value_bytes v s) e) Hst Hbid)
      as (e' & Hf & Hpid & Hcp & Hbuf & Hres).
    exists e'. split; [exact Hf|]. split; [exact Hpid|]. split; [exact Hcp|].
    split; [intros []|]. exact Hres.
  - exists e. repeat split; auto.
Qed.

(** ** One iteration of the discovery loop *)

Lemma find_loop_done fuel func e :
  (length (paths e) <= path_id e)%nat ->
  find_loop fuel func e = Some (Ok tt e).
Proof.
  intros H. destruct fuel; simpl;
    destruct (Nat.ltb_spec (path_id e) (length (paths e))); try lia; reflexivity.
Qed.

Lemma find_loop_step fuel func e π m :
  state e <> STATE_COMPILING ->
  paths e !! path_id e = Some (π, m) ->
  exists e',
    same_frame e e' /\
    (direct_free (func (path_id e)) -> buffer e' = buffer e) /\
    match dfeed (flatten (func (path_id e))) π with
    | FDone _ _ =>
        find_loop (S fuel) func e = find_loop fuel func e' /\
        paths e' = paths e /\ path_id e' = S (path_id e)
    | FNeed =>
        find_loop (S fuel) func e = find_loop fuel func e' /\
        paths e' = <[path_id e := (π, true)]>
                     (paths e ++ [(π ++ [true], false); (π ++ [false], false)]) /\
        path_id e' = S (path_id e)
    | FFail x =>
        find_loop (S fuel) func e = Some (Err x e') /\
        paths e' = paths e /\ x <> NewBranch
    end.
Proof.
  intros Hst Hlook.
  assert (Hlt : (path_id e < length (paths e))%nat)
    by (eapply lookup_lt_Some; exact Hlook).
  simpl find_loop.
  destruct (Nat.ltb_spec (path_id e) (length (paths e))) as [_|]; [|lia].
  rewrite Hlook.
  destruct (exec_discovery (func (path_id e))
              (set_branch_id 0 (set_current_path π e)) Hst (Nat.le_0_l _))
    as (e2 & Hf & Hpid & Hcp & Hbuf & Hres).
  simpl in Hres, Hpid, Hcp, Hbuf. rewrite drop_0 in Hres.
  destruct (dfeed (flatten (func (path_id e))) π) as [v rest| |x] eqn:Hfeed.
  - destruct Hres as (Hx & Hp & _). rewrite Hx.
    exists (set_path_id (S (path_id e2)) e2).
    split; [exact Hf|]. split; [exact Hbuf|].
    split; [reflexivity|]. split; [exact Hp|]. simpl. congruence.
  - destruct Hres as (Hx & Hp). rewrite Hx.
    exists (set_path_id (S (path_id e2))
              (set_paths (<[path_id e2 := (current_path e2, true)]> (paths e2)) e2)).
    split; [exact Hf|]. split; [exact Hbuf|].
    split; [reflexivity|]. simpl. rewrite Hp, Hpid, Hcp. split; reflexivity.
  - destruct Hres as (Hx & Hp). rewrite Hx.
    pose proof (flatten_no_signal _ _ _ Hfeed) as Hns.
    exists e2. split; [exact Hf|]. split; [exact Hbuf|].
    split; [destruct x; try reflexivity; contradiction|]. split; assumption.
Qed.

Lemma total_app f q1 q2 : total f (q1 ++ q2) = (total f q1 + total f q2)%nat.
Proof. induction q1 as [|en q1 IH]; simpl; [reflexivity | rewrite IH; lia]. Qed.

(** ** The discovery loop, for a measure on its queue *)

Section Discovery.

Variable func : nat -> prog.

(** [W] bounds the iterations spent below a queued sequence, [L] counts
    the terminal paths found below it and [Q] is an invariant of the
    queued sequences. *)
Variables (W L : list bool -> nat) (Q : list bool -> Prop).

Hypothesis W_pos : forall π, Q π -> (1 <= W π)%nat.
Hypothesis at_need : forall i π,
    Q π -> dfeed (flatten (func i)) π = FNeed ->
    W π = S (W (π ++ [true]) + W (π ++ [false])) /\
    L π = (L (π ++ [true]) + L (π ++ [false]))%nat /\
    Q (π ++ [true]) /\ Q (π ++ [false]).
Hypothesis at_done : forall i π v rest,
    Q π -> dfeed (flatten (func i)) π = FDone v rest -> L π = 1%nat.

Lemma find_loop_total : forall fuel e,
  state e <> STATE_COMPILING ->
  Forall (queued Q) (drop (path_id e) (paths e)) ->
  (total W (drop (path_id e) (paths e)) <= fuel)%nat ->
  exists r,
    find_loop fuel func e = Some r /\
    same_frame e (engine_of r) /\
    ((forall i, direct_free (func i)) -> buffer (engine_of r) = buffer e) /\
    match r with
    | Ok _ e' =>
        length (List.filter terminal (paths e'))
        = (length (List.filter terminal (take (path_id e) (paths e)))
           + total L (drop (path_id e) (paths e)))%nat /\
        forall en, en ∈ paths e' -> terminal en = true ->
          en ∈ take (path_id e) (paths e) \/
          (queued Q en /\
           exists i v rest, dfeed (flatten (func i)) (fst en) = FDone v rest)
    | Err x e' =>
        x <> NewBranch /\
        exists i π, Q π /\ dfeed (flatten (func i)) π = FFail x
    end.
Proof.
  induction fuel as [|fuel IH]; intros e Hst Hq Hfuel.
  - destruct (paths e !! path_id e) as [[π m]|] eqn:Hlook.
    + rewrite (drop_S _ _ _ Hlook) in Hq, Hfuel. simpl in Hfuel.
      apply Forall_cons in Hq as [[_ Hq] _]. simpl in Hq.
      pose proof (W_pos π Hq). lia.
    + apply lookup_ge_None in Hlook.
      exists (Ok tt e). split; [apply find_loop_done; exact Hlook|].
      split; [apply same_frame_refl|]. split; [reflexivity|].
      rewrite drop_ge, take_ge by lia. simpl.
      split; [lia|]. intros en Hen _. left. exact Hen.
  - destruct (paths e !! path_id e) as [[π m]|] eqn:Hlook.
    2:{ apply lookup_ge_None in Hlook.
        exists (Ok tt e). split; [apply find_loop_done; exact Hlook|].
        split; [apply same_frame_refl|]. split; [reflexivity|].
        rewrite drop_ge, take_ge by lia. simpl.
        split; [lia|]. intros en Hen _. left. exact Hen. }
    assert (Hlt : (path_id e < length (paths e))%nat)
      by (eapply lookup_lt_Some; exact Hlook).
    rewrite (drop_S _ _ _ Hlook) in Hq, Hfuel |- *. simpl in Hfuel.
    apply Forall_cons in Hq as [[Hm HQ] Hq]. simpl in Hm, HQ. subst m.
    destruct (find_loop_step fuel func e π false Hst Hlook)
      as (e1 & Hf & Hbuf & Hres).
    assert (Hst1 : state e1 <> STATE_COMPILING)
      by (destruct Hf as [-> _]; exact Hst).
    destruct (dfeed (flatten (func (path_id e))) π) as [v rest| |x] eqn:Hfeed.
    + destruct Hres as (Hfl & Hp & Hpid).
      pose proof (W_pos π HQ) as HW.
      pose proof (at_done _ _ _ _ HQ Hfeed) as HL.
      destruct (IH e1 Hst1) as (r & Hr & Hfr & Hbr & Hpost).
      { rewrite Hp, Hpid. exact Hq. }
      { rewrite Hp, Hpid. lia. }
      exists r. split; [congruence|].
      split; [eapply same_frame_trans; eassumption|].
      split; [intros Hd; rewrite Hbr, Hbuf by auto; reflexivity|].
      destruct r as [[] e'|x e']; [|exact Hpost].
      destruct Hpost as [Hcount Hmem]. rewrite Hp, Hpid in Hcount, Hmem.
      rewrite (take_S_r _ _ _ Hlook) in Hcount, Hmem.
      rewrite List.filter_app, length_app in Hcount. simpl in Hcount.
      split; [simpl; lia|].
      intros en Hen Hterm. destruct (Hmem en Hen Hterm) as [Hin|Hin]; [|auto].
      apply elem_of_app in Hin as [Hin|Hin]; [auto|].
      apply list_elem_of_singleton in Hin. subst en. right.
      split; [split; [reflexivity | exact HQ]|]. simpl. eauto.
    + destruct Hres as (Hfl & Hp & Hpid).
      destruct (at_need _ _ HQ Hfeed) as (HW & HL & HQt & HQf).
      assert (Hdrop : drop (path_id e1) (paths e1)
                      = drop (S (path_id e)) (paths e)
                          ++ [(π ++ [true], false); (π ++ [false], false)]).
      { rewrite Hp, Hpid, drop_insert_lt by lia.
        rewrite drop_app_le by lia. reflexivity. }
      assert (Htake : take (path_id e1) (paths e1)
                      = take (path_id e) (paths e) ++ [(π, true)]).
      { rewrite Hp, Hpid.
        rewrite (take_S_r _ _ (π, true)).
        - rewrite take_insert_ge by lia. rewrite take_app_le by lia.
          reflexivity.
        - apply list_lookup_insert_eq. rewrite length_app. simpl. lia. }
      destruct (IH e1 Hst1) as (r & Hr & Hfr & Hbr & Hpost).
      { rewrite Hdrop. apply Forall_app. split; [exact Hq|].
        repeat constructor; assumption. }
      { rewrite Hdrop, total_app. simpl. lia. }
      exists r. split; [congruence|].
      split; [eapply same_frame_trans; eassumption|].
      split; [intros Hd; rewrite Hbr, Hbuf by auto; reflexivity|].
      destruct r as [[] e'|x e']; [|exact Hpost].
      destruct Hpost as [Hcount Hmem].
      rewrite Hdrop, Htake in Hcount. rewrite Htake in Hmem.
      rewrite List.filter_app, length_app, total_app in Hcount. simpl in Hcount.
      split; [simpl; lia|].
      intros en Hen Hterm. destruct (Hmem en Hen Hterm) as [Hin|Hin]; [|auto].
      apply elem_of_app in Hin as [Hin|Hin]; [auto|].
      apply list_elem_of_singleton in Hin. subst en. discriminate.
    + destruct Hres as (Hfl & Hp & Hns).
      exists (Err x e1). split; [exact Hfl|]. split; [exact Hf|].
      split; [intros Hd; apply Hbuf, Hd|]. split; [exact Hns|]. eauto.
Qed.

(** A property of queued sequences that no returning run has and that
    every run asking for a decision passes on to a continuation. *)
Variable Bad : list bool -> Prop.
Hypothesis bad_need : forall i π,
    dfeed (flatten (func i)) π = FNeed -> Bad π ->
    Bad (π ++ [true]) \/ Bad (π ++ [false]).
Hypothesis bad_done : forall i π v rest,
    dfeed (flatten (func i)) π = FDone v rest -> ~ Bad π.

Lemma find_loop_bad : forall fuel e r,
  state e <> STATE_COMPILING ->
  Exists (fun en => Bad (fst en)) (drop (path_id e) (paths e)) ->
  find_loop fuel func e = Some r ->
  exists x e', r = Err x e'.
Proof.
  induction fuel as [|fuel IH]; intros e r Hst Hbad Hr.
  - destruct (paths e !! path_id e) as [[π m]|] eqn:Hlook.
    + apply lookup_lt_Some in Hlook. simpl in Hr.
      destruct (Nat.ltb_spec (path_id e) (length (paths e))); [|lia].
      discriminate.
    + apply lookup_ge_None in Hlook. rewrite drop_ge in Hbad by lia.
      inversion Hbad.
  - destruct (paths e !! path_id e) as [[π m]|] eqn:Hlook.
    2:{ apply lookup_ge_None in Hlook. rewrite drop_ge in Hbad by lia.
        inversion Hbad. }
    assert (Hlt : (path_id e < length (paths e))%nat)
      by (eapply lookup_lt_Some; exact Hlook).
    rewrite (drop_S _ _ _ Hlook) in Hbad.
    destruct (find_loop_step fuel func e π m Hst Hlook)
      as (e1 & Hf & _ & Hres).
    assert (Hst1 : state e1 <> STATE_COMPILING)
      by (destruct Hf as [-> _]; exact Hst).
    destruct (dfeed (flatten (func (path_id e))) π) as [v rest| |x] eqn:Hfeed.
    + destruct Hres as (Hfl & Hp & Hpid).
      apply (IH e1 r Hst1); [|congruence].
      rewrite Hp, Hpid. apply Exists_cons in Hbad as [Hb|Hb]; [|exact Hb].
      exfalso. eapply bad_done; eassumption.
    + destruct Hres as (Hfl & Hp & Hpid).
      apply (IH e1 r Hst1); [|congruence].
      rewrite Hp, Hpid, drop_insert_lt by lia.
      rewrite drop_app_le by lia. apply Exists_app.
      apply Exists_cons in Hbad as [Hb|Hb]; [|left; exact Hb].
      right. simpl in Hb.
      destruct (bad_need _ _ Hfeed Hb) as [Ht|Hf'].
      * apply Exists_cons_hd. exact Ht.
      * apply Exists_cons_tl, Exists_cons_hd. exact Hf'.
    + destruct Hres as (Hfl & _). rewrite Hfl in Hr.
      injection Hr as <-. eauto.
Qed.

End Discovery.

(** ** Decision trees and the runs they describe *)

Lemma dfeed_need_walk t : forall π,
  dfeed t π = FNeed ->
  exists k, walk t π = DAsk k /\ forall b, walk t (π ++ [b]) = k b.
Proof.
  induction t as [v|k IH|x]; intros π; simpl; try discriminate.
  destruct π as [|d π]; simpl.
  - intros _. exists k. split; reflexivity.
  - apply IH.
Qed.

Lemma dfeed_done_walk t : forall π v rest,
  dfeed t π = FDone v rest -> walk t π = DRet v.
Proof.
  induction t as [w|k IH|x]; intros π v rest; simpl; try discriminate.
  - intros [= <- _]. destruct π; reflexivity.
  - destruct π as [|d π]; [discriminate | apply IH].
Qed.

Lemma dfeed_fail_walk t : forall π x,
  dfeed t π = FFail x -> walk t π = DFail x.
Proof.
  induction t as [w|k IH|y]; intros π x; simpl; try discriminate.
  - destruct π as [|d π]; [discriminate | apply IH].
  - intros [= <-]. destruct π; reflexivity.
Qed.

Lemma walk_can_fail π : forall t, can_fail (walk t π) -> can_fail t.
Proof.
  induction π as [|d π IH]; intros t; [exact id|].
  destruct t as [v|k|x]; simpl; try exact id.
  intros H. apply IH in H. destruct d; [left | right]; exact H.
Qed.

Lemma walk_fails_only x π : forall t,
  fails_only x t -> fails_only x (walk t π).
Proof.
  induction π as [|d π IH]; intros t; [exact id|].
  destruct t as [v|k|y]; simpl; try exact id.
  intros [Ht Hf]. apply IH. destruct d; assumption.
Qed.

Lemma dsize_pos t : (1 <= dsize t)%nat.
Proof. destruct t; simpl; lia. Qed.

Lemma uniform_dfeed n : forall t π,
  uniform n t ->
  ((length π < n)%nat -> dfeed t π = FNeed) /\
  ((n <= length π)%nat -> exists v, dfeed t π = FDone v (drop n π)).
Proof.
  induction n as [|n IH]; intros t π Hu.
  - destruct t as [v|k|x]; try contradiction. split; [lia|].
    intros _. exists v. reflexivity.
  - destruct t as [v|k|x]; try contradiction. simpl in Hu.
    destruct π as [|d π]; simpl.
    + split; [reflexivity | lia].
    + destruct (IH (k d) π (Hu d)) as [H1 H2].
      split; intros H; [apply H1 | apply H2]; lia.
Qed.

(** ** The discovery loop of a deterministic routine *)

(** When some execution of the routine raises, the loop cannot end
    normally. *)
Lemma find_loop_deterministic_fails p e fuel r :
  state e <> STATE_COMPILING ->
  can_fail (flatten p) ->
  find_loop fuel (fun _ => p) (set_path_id 0 (set_paths [([], false)] e))
  = Some r ->
  exists x e', r = Err x e'.
Proof.
  intros Hst Hcf Hr.
  set (t := flatten p).
  apply (find_loop_bad (fun _ => p) (fun π => can_fail (walk t π)))
    with (fuel := fuel) (e := set_path_id 0 (set_paths [([], false)] e));
    try assumption.
  - intros _ π Hfeed Hb.
    destruct (dfeed_need_walk _ _ Hfeed) as (k & Hk & Hkb).
    fold t in Hk, Hkb. rewrite Hk in Hb. rewrite !Hkb. exact Hb.
  - intros _ π v rest Hfeed Hb.
    apply dfeed_done_walk in Hfeed. fold t in Hfeed.
    rewrite Hfeed in Hb. exact Hb.
  - simpl. apply Exists_cons_hd. simpl. exact Hcf.
Qed.

(** The loop ends within [dsize] iterations.  It ends normally exactly when
    no execution of the routine raises, with one terminal path per
    returning leaf of the decision tree; otherwise it ends with an
    exception raised by some execution.  It changes neither the blocks nor
    the run state, and the buffer only through direct writes. *)
Lemma find_loop_deterministic p e fuel :
  state e <> STATE_COMPILING ->
  (dsize (flatten p) <= fuel)%nat ->
  exists r,
    find_loop fuel (fun _ => p) (set_path_id 0 (set_paths [([], false)] e))
    = Some r /\
    same_frame e (engine_of r) /\
    (direct_free p -> buffer (engine_of r) = buffer e) /\
    match r with
    | Ok _ e' =>
        ~ can_fail (flatten p) /\
        length (List.filter terminal (paths e')) = dleaves (flatten p)
    | Err x e' =>
        x <> NewBranch /\ exists π, walk (flatten p) π = DFail x
    end.
Proof.
  intros Hst Hfuel.
  set (t := flatten p).
  set (e0 := set_path_id 0 (set_paths [([], false)] e)).
  destruct (find_loop_total (fun _ => p)
              (fun π => dsize (walk t π)) (fun π => dleaves (walk t π))
              (fun _ => True)) with (fuel := fuel) (e := e0)
    as (r & Hr & Hf & Hbuf & Hpost).
  - intros π _. apply dsize_pos.
  - intros _ π _ Hfeed.
    destruct (dfeed_need_walk _ _ Hfeed) as (k & Hk & Hkb).
    fold t in Hk, Hkb. rewrite Hk, !Hkb. simpl. repeat split; reflexivity.
  - intros _ π v rest _ Hfeed.
    apply dfeed_done_walk in Hfeed. fold t in Hfeed. rewrite Hfeed.
    reflexivity.
  - exact Hst.
  - simpl. repeat constructor.
  - simpl. rewrite Nat.add_0_r. exact Hfuel.
  - exists r. split; [exact Hr|]. split; [exact Hf|].
    split; [intros Hd; apply Hbuf; intros _; exact Hd|].
    destruct r as [[] e'|x e'].
    + destruct Hpost as [Hcount _]. simpl in Hcount.
      rewrite Nat.add_0_r in Hcount.
      split.
      * intros Hcf.
        destruct (find_loop_deterministic_fails p e fuel (Ok tt e') Hst Hcf Hr)
          as (x & e'' & Hx).
        discriminate.
      * rewrite Hcount. reflexivity.
    + destruct Hpost as (Hns & _ & π & _ & Hfeed).
      split; [exact Hns|]. exists π. apply dfeed_fail_walk. exact Hfeed.
Qed.

(** ** Discovered paths are pairwise distinct *)

Lemma find_loop_nodup func : forall fuel e e',
  state e <> STATE_COMPILING ->
  NoDup (fst <$> paths e) ->
  parents_done (fst <$> paths e) (path_id e) ->
  find_loop fuel func e = Some (Ok tt e') ->
  NoDup (fst <$> paths e').
Proof.
  induction fuel as [|fuel IH]; intros e e' Hst Hnd Hpar Hr.
  - simpl in Hr. destruct (path_id e <? length (paths e))%nat; [discriminate|].
    injection Hr as <-. exact Hnd.
  - destruct (paths e !! path_id e) as [[π m]|] eqn:Hlook.
    2:{ apply lookup_ge_None in Hlook.
        rewrite find_loop_done in Hr by exact Hlook.
        injection Hr as <-. exact Hnd. }
    assert (Hlt : (path_id e < length (paths e))%nat)
      by (eapply lookup_lt_Some; exact Hlook).
    destruct (find_loop_step fuel func e π m Hst Hlook)
      as (e1 & Hf & _ & Hres).
    assert (Hst1 : state e1 <> STATE_COMPILING)
      by (destruct Hf as [-> _]; exact Hst).
    destruct (dfeed (flatten (func (path_id e))) π) as [v rest| |x].
    + destruct Hres as (Hfl & Hp & Hpid). rewrite Hfl in Hr.
      apply (IH e1 e' Hst1); [rewrite Hp; exact Hnd | | exact Hr].
      rewrite Hp, Hpid. intros σ b Hin.
      destruct (Hpar σ b Hin) as (j & Hj & Hσ). exists j. split; [lia | exact Hσ].
    + destruct Hres as (Hfl & Hp & Hpid). rewrite Hfl in Hr.
      assert (Hπ : (fst <$> paths e) !! path_id e = Some π)
        by (rewrite list_lookup_fmap, Hlook; reflexivity).
      assert (HP : fst <$> paths e1
                   = (fst <$> paths e) ++ [π ++ [true]; π ++ [false]]).
      { rewrite Hp, list_fmap_insert, fmap_app. simpl.
        apply list_insert_id. apply lookup_app_l_Some. exact Hπ. }
      assert (Hfresh : forall b, π ++ [b] ∉ fst <$> paths e).
      { intros b Hin. destruct (Hpar π b Hin) as (j & Hj & Hσ).
        assert (j = path_id e); [|lia].
        eapply NoDup_lookup; eassumption. }
      apply (IH e1 e' Hst1); [| | exact Hr].
      * rewrite HP. apply NoDup_app. split; [exact Hnd|]. split.
        -- intros x Hx Hin.
           apply elem_of_cons in Hin as [->|Hin]; [exact (Hfresh _ Hx)|].
           apply list_elem_of_singleton in Hin as ->. exact (Hfresh _ Hx).
        -- apply NoDup_cons. split; [|apply NoDup_singleton].
           intros Hin. apply list_elem_of_singleton in Hin.
           apply app_inv_head in Hin. discriminate.
      * rewrite HP, Hpid. intros σ b Hin.
        apply elem_of_app in Hin as [Hin|Hin].
        -- destruct (Hpar σ b Hin) as (j & Hj & Hσ). exists j.
           split; [lia|]. apply lookup_app_l_Some. exact Hσ.
        -- exists (path_id e). split; [lia|].
           assert (σ = π) as ->.
           { apply elem_of_cons in Hin as [Hin|Hin];
               [|apply list_elem_of_singleton in Hin];
               apply app_inj_tail in Hin as [? _]; assumption. }
           apply lookup_app_l_Some. exact Hπ.
    + destruct Hres as (Hfl & _). rewrite Hfl in Hr. discriminate.
Qed.

(** ** Sorting the terminal paths *)

Lemma NoDup_filter_bool {A} (f : A -> bool) (l : list A) :
  NoDup l -> NoDup (List.filter f l).
Proof.
  induction 1 as [|x l Hx Hnd IH]; simpl; [constructor|].
  destruct (f x); [|exact IH]. constructor; [|exact IH].
  intros Hin. apply Hx.
  apply list_elem_of_In in Hin. apply filter_In in Hin as [Hin _].
  apply list_elem_of_In. exact Hin.
Qed.

Lemma insert_desc_perm x l : insert_desc x l ≡ₚ x :: l.
Proof.
  induction l as [|y l IH]; simpl; [reflexivity|].
  destruct (path_ltb (fst y) (fst x)); [reflexivity|].
  rewrite IH. apply Permutation_swap.
Qed.

Lemma sort_desc_perm l : sort_desc l ≡ₚ l.
Proof.
  induction l as [|x l IH]; simpl; [reflexivity|].
  rewrite insert_desc_perm, IH. reflexivity.
Qed.

(** ** Discovery for routines with a fixed number of [branch] calls *)

Lemma pow2_pos n : (1 <= 2 ^ n)%nat.
Proof. induction n; simpl; lia. Qed.

(** C2: when every execution of the routine makes exactly [k] branch
    calls, discovery ends normally with exactly [2^k] terminal paths,
    pairwise distinct and each a sequence of [k] decisions; for [k = 0]
    the only path is the empty sequence. *)
Theorem discovery_two_pow_k (func : nat -> prog) (k fuel : nat) (e : Engine) :
  (forall i, uniform k (flatten (func i))) ->
  (2 * 2 ^ k <= fuel)%nat ->
  exists e',
    _find_branches fuel func (set_state STATE_BUILDING_BRANCHES e)
    = Some (Ok tt e') /\
    length (paths e') = (2 ^ k)%nat /\
    NoDup (paths e') /\
    (forall en, en ∈ paths e' -> snd en = false /\ length (fst en) = k) /\
    (k = 0%nat -> paths e' = [([], false)]).
Proof.
  intros Hu Hfuel.
  set (e0 := set_path_id 0
               (set_paths [([], false)] (set_state STATE_BUILDING_BRANCHES e))).
  destruct (find_loop_total func
              (fun π => 2 * 2 ^ (k - length π) - 1)%nat
              (fun π => 2 ^ (k - length π))%nat
              (fun π => (length π <= k)%nat)) with (fuel := fuel) (e := e0)
    as (r & Hr & Hf & _ & Hpost).
  - intros π _. pose proof (pow2_pos (k - length π)). lia.
  - intros i π HQ Hfeed.
    destruct (uniform_dfeed k _ π (Hu i)) as [_ Hdone].
    assert (Hlt : (length π < k)%nat).
    { destruct (Nat.lt_ge_cases (length π) k) as [|Hge]; [assumption|].
      destruct (Hdone Hge) as [v Hv]. congruence. }
    rewrite !length_app. simpl.
    replace (k - length π)%nat with (S (k - (length π + 1)))%nat by lia.
    pose proof (pow2_pos (k - (length π + 1))).
    simpl. repeat split; lia.
  - intros i π v rest HQ Hfeed.
    destruct (uniform_dfeed k _ π (Hu i)) as [Hneed _].
    assert (Hge : (k <= length π)%nat).
    { destruct (Nat.lt_ge_cases (length π) k) as [Hlt|]; [|assumption].
      rewrite (Hneed Hlt) in Hfeed. discriminate. }
    replace (k - length π)%nat with 0%nat by lia. reflexivity.
  - simpl. discriminate.
  - simpl. constructor; [split; [reflexivity | simpl; lia] | constructor].
  - simpl. rewrite Nat.sub_0_r. lia.
  - destruct r as [[] e'|x e'].
    2:{ exfalso. destruct Hpost as (_ & i & π & HQ & Hfeed).
        destruct (uniform_dfeed k _ π (Hu i)) as [Hneed Hdone].
        destruct (Nat.lt_ge_cases (length π) k) as [Hlt|Hge].
        - rewrite (Hneed Hlt) in Hfeed. discriminate.
        - destruct (Hdone Hge) as [v Hv]. congruence. }
    destruct Hpost as [Hcount Hmem]. simpl in Hcount, Hmem.
    rewrite Nat.sub_0_r, Nat.add_0_r in Hcount.
    exists (set_paths (sort_desc (List.filter terminal (paths e'))) e').
    assert (Hlen : length (sort_desc (List.filter terminal (paths e')))
                   = (2 ^ k)%nat).
    { rewrite sort_desc_perm. exact Hcount. }
    assert (Hall : forall en,
               en ∈ sort_desc (List.filter terminal (paths e')) ->
               snd en = false /\ length (fst en) = k).
    { intros en Hen. rewrite sort_desc_perm in Hen.
      apply list_elem_of_In, filter_In in Hen as [Hin Hterm].
      apply list_elem_of_In in Hin.
      destruct (Hmem en Hin Hterm) as [Hnil|[[Hs HQ] (i & v & rest & Hfeed)]].
      { inversion Hnil. }
      split; [exact Hs|].
      destruct (uniform_dfeed k _ (fst en) (Hu i)) as [Hneed _].
      destruct (Nat.lt_ge_cases (length (fst en)) k) as [Hlt|Hge]; [|lia].
      rewrite (Hneed Hlt) in Hfeed. discriminate. }
    assert (Hnd : NoDup (sort_desc (List.filter terminal (paths e')))).
    { rewrite sort_desc_perm. apply NoDup_filter_bool.
      apply (NoDup_fmap_1 fst).
      apply (find_loop_nodup func fuel e0 e'); [simpl; discriminate | | | exact Hr].
      - simpl. apply NoDup_singleton.
      - intros σ b Hin. apply list_elem_of_singleton in Hin.
        destruct σ; discriminate. }
    split.
    { unfold _find_branches. fold e0. rewrite Hr. reflexivity. }
    simpl. split; [exact Hlen|]. split; [exact Hnd|]. split; [exact Hall|].
    intros ->. simpl in Hlen.
    destruct (sort_desc (List.filter terminal (paths e'))) as [|en [|en' l]];
      try discriminate.
    destruct (Hall en) as [Hs Hl]; [left|].
    destruct en as [π m]. simpl in Hs, Hl. subst m.
    apply nil_length_inv in Hl. subst π. reflexivity.
Qed.

Lemma discovery_two_pow_k_witness :
  (forall i : nat,
      uniform 1 (flatten ((fun _ => one_branch false 0 0 0) i))) /\
  (2 * 2 ^ 1 <= 4)%nat /\
  exists e',
    _find_branches 4 (fun _ => one_branch false 0 0 0)
                   (set_state STATE_BUILDING_BRANCHES Engine_init)
    = Some (Ok tt e') /\
    length (paths e') = (2 ^ 1)%nat /\
    NoDup (paths e') /\
    (forall en, en ∈ paths e' -> snd en = false /\ length (fst en) = 1%nat) /\
    (1%nat = 0%nat -> paths e' = [([], false)]).
Proof.
  assert (Hu : forall i : nat,
             uniform 1 (flatten ((fun _ => one_branch false 0 0 0) i))).
  { intros _ b. destruct b; exact I. }
  assert (Hf : (2 * 2 ^ 1 <= 4)%nat) by (simpl; lia).
  split; [exact Hu|]. split; [exact Hf|].
  exact (discovery_two_pow_k (fun _ => one_branch false 0 0 0) 1 4
                             Engine_init Hu Hf).
Defined.

(** ** [compile] and the run state *)

Lemma _find_branches_deterministic p e fuel :
  state e <> STATE_COMPILING ->
  (dsize (flatten p) <= fuel)%nat ->
  exists r,
    _find_branches fuel (fun _ => p) e = Some r /\
    same_frame e (engine_of r) /\
    (direct_free p -> buffer (engine_of r) = buffer e) /\
    match r with
    | Ok _ e' =>
        ~ can_fail (flatten p) /\ length (paths e') = dleaves (flatten p)
    | Err x e' =>
        x <> NewBranch /\ exists π, walk (flatten p) π = DFail x
    end.
Proof.
  intros Hst Hfuel.
  destruct (find_loop_deterministic p e fuel Hst Hfuel)
    as (r & Hr & Hf & Hbuf & Hpost).
  unfold _find_branches. rewrite Hr.
  destruct r as [[] e'|x e'].
  - eexists. split; [reflexivity|]. split; [exact Hf|]. split; [exact Hbuf|].
    destruct Hpost as [Hcf Hcount]. split; [exact Hcf|].
    simpl. rewrite sort_desc_perm. exact Hcount.
  - eexists. split; [reflexivity|]. split; [exact Hf|]. split; [exact Hbuf|].
    exact Hpost.
Qed.

Lemma compile_terminates p e :
  exists r, compile (dsize (flatten p)) (fun _ => p) e = Some r.
Proof.
  destruct (_find_branches_deterministic p
              (set_state STATE_BUILDING_BRANCHES e) (dsize (flatten p)))
    as (r & Hr & _); [simpl; discriminate | lia |].
  unfold compile, compile_body. rewrite Hr.
  destruct r as [[] e1|x e1]; [|eauto].
  destruct (compile_paths _ _ _ _); eauto.
Qed.

(** C8: whenever [compile] exits, by returning the root block or by
    raising any exception, the run state of the engine it leaves behind is
    [STATE_IDLE]; and for a routine that is a function of the decisions it
    does exit. *)
Theorem compile_restores_idle (e : Engine) :
  (forall fuel func r,
      compile fuel func e = Some r -> state (engine_of r) = STATE_IDLE) /\
  (forall p, exists r, compile (dsize (flatten p)) (fun _ => p) e = Some r).
Proof.
  split; [|intros p; apply compile_terminates].
  intros fuel func r. unfold compile.
  destruct (compile_body fuel func e) as [[root e'|x e']|]; try discriminate;
    intros [= <-]; reflexivity.
Qed.

Lemma compile_restores_idle_witness :
  compile 3 (fun _ => loop_after_branch) Engine_init
  = Some (Err NotImplementedError
              (set_paths [([], true); ([true], false); ([false], false)]
                 (set_current_path [true]
                    (set_branch_id 1 (set_path_id 1 Engine_init))))) /\
  state (engine_of (A := nat)
           (Err NotImplementedError
              (set_paths [([], true); ([true], false); ([false], false)]
                 (set_current_path [true]
                    (set_branch_id 1 (set_path_id 1 Engine_init))))))
  = STATE_IDLE.
Proof.
  assert (H : compile 3 (fun _ => loop_after_branch) Engine_init
              = Some (Err NotImplementedError
                        (set_paths [([], true); ([true], false); ([false], false)]
                           (set_current_path [true]
                              (set_branch_id 1 (set_path_id 1 Engine_init))))))
    by (vm_compute; reflexivity).
  split; [exact H|].
  exact (proj1 (compile_restores_idle Engine_init) 3%nat
               (fun _ => loop_after_branch) _ H).
Defined.

(** ** [loop] *)

(** C6, as stated, fails when a [branch] precedes the [loop]: the
    exception is raised on the second discovery run, after the first run
    has enqueued both continuations of the empty path. *)
Lemma loop_after_branch_enqueues :
  exists e',
    compile 3 (fun _ => loop_after_branch) Engine_init
    = Some (Err NotImplementedError e') /\
    paths e' = [([], true); ([true], false); ([false], false)].
Proof. eexists. split; vm_compute; reflexivity. Qed.

(** C6 (amended): if some execution of the routine calls [loop] (and the
    routine, a function of the decisions, raises nothing else), [compile]
    fails with [NotImplementedError] during discovery and leaves the engine
    idle: no block is created or written, the block bookkeeping is
    untouched, and the buffer is unchanged unless the routine itself calls
    [write_value].  When [loop] is called before the first [branch], no
    continuation path has been enqueued. *)
Theorem loop_fails_in_discovery (p : prog) (e : Engine) :
  can_fail (flatten p) ->
  fails_only NotImplementedError (flatten p) ->
  exists e',
    compile (dsize (flatten p)) (fun _ => p) e
    = Some (Err NotImplementedError e') /\
    state e' = STATE_IDLE /\
    blocks e' = blocks e /\ stack e' = stack e /\
    current_block e' = current_block e /\
    state_blocks e' = state_blocks e /\ path_stack e' = path_stack e /\
    (direct_free p -> buffer e' = buffer e) /\
    (dfeed (flatten p) [] = FFail NotImplementedError ->
     paths e' = [([], false)]).
Proof.
  intros Hcf Honly.
  destruct (_find_branches_deterministic p
              (set_state STATE_BUILDING_BRANCHES e) (dsize (flatten p)))
    as (r & Hr & Hf & Hbuf & Hpost); [simpl; discriminate | lia |].
  destruct r as [[] e1|x e1]; [destruct Hpost as [Hn _]; contradiction|].
  destruct Hpost as (_ & π & Hπ).
  assert (Hx : x = NotImplementedError).
  { pose proof (walk_fails_only _ π _ Honly) as H. rewrite Hπ in H. exact H. }
  subst x. simpl in Hf, Hbuf.
  destruct Hf as (_ & Hstack & Hcur & Hsb & Hps & Hbl).
  exists (set_state STATE_IDLE e1).
  split; [unfold compile, compile_body; rewrite Hr; reflexivity|].
  simpl. repeat (split; [assumption || reflexivity|]).
  intros Hfeed.
  unfold _find_branches in Hr.
  destruct (dsize (flatten p)) as [|n] eqn:Hn;
    [pose proof (dsize_pos (flatten p)); lia|].
  destruct (find_loop_step n (fun _ => p)
              (set_path_id 0 (set_paths [([], false)]
                                (set_state STATE_BUILDING_BRANCHES e)))
              [] false) as (e2 & _ & _ & Hres);
    [simpl; discriminate | reflexivity |].
  simpl path_id in Hres. rewrite Hfeed in Hres.
  destruct Hres as (Hfl & Hp & _). rewrite Hfl in Hr.
  injection Hr as <-. exact Hp.
Qed.

Lemma loop_fails_in_discovery_witness :
  can_fail (flatten (Unknown 5 1 (Loop 0 (fun _ => Ret 0)))) /\
  fails_only NotImplementedError
             (flatten (Unknown 5 1 (Loop 0 (fun _ => Ret 0)))) /\
  exists e',
    compile (dsize (flatten (Unknown 5 1 (Loop 0 (fun _ => Ret 0)))))
            (fun _ => Unknown 5 1 (Loop 0 (fun _ => Ret 0))) Engine_init
    = Some (Err NotImplementedError e') /\
    state e' = STATE_IDLE /\
    blocks e' = blocks Engine_init /\ stack e' = stack Engine_init /\
    current_block e' = current_block Engine_init /\
    state_blocks e' = state_blocks Engine_init /\
    path_stack e' = path_stack Engine_init /\
    (direct_free (Unknown 5 1 (Loop 0 (fun _ => Ret 0))) ->
     buffer e' = buffer Engine_init) /\
    (dfeed (flatten (Unknown 5 1 (Loop 0 (fun _ => Ret 0)))) []
     = FFail NotImplementedError ->
     paths e' = [([], false)]).
Proof.
  split; [exact I|]. split; [reflexivity|].
  apply (loop_fails_in_discovery (Unknown 5 1 (Loop 0 (fun _ => Ret 0)))
                                 Engine_init); [exact I | reflexivity].
Defined.

(** ** The escape signal *)

Lemma find_loop_no_signal func : forall fuel e r,
  find_loop fuel func e = Some r -> forall e', r <> Err NewBranch e'.
Proof.
  induction fuel as [|fuel IH]; intros e r; simpl;
    destruct (path_id e <? length (paths e))%nat;
    try discriminate; try (intros [= <-]; discriminate).
  destruct (paths e !! path_id e) as [[π m]|];
    [|intros [= <-]; discriminate].
  destruct (exec _ _) as [v e2|x e2]; [apply IH|].
  destruct x; try apply IH; intros [= <-]; discriminate.
Qed.

Lemma compile_paths_app func : forall pre n l e,
  compile_paths func n (pre ++ l) e
  = match compile_paths func n pre e with
    | Ok _ e1 => compile_paths func (n + length pre) l e1
    | Err x e1 => Err x e1
    end.
Proof.
  induction pre as [|p pre IH]; intros n l e; simpl.
  - rewrite Nat.add_0_r. reflexivity.
  - unfold bind. simpl.
    destruct (exec (func n) _) as [v e1|x e1]; [|reflexivity].
    unfold write_end, ret.
    destruct (the_current_block e1) as [cur e2|x e2]; [|reflexivity].
    simpl. destruct (unwind _) as [[] e3|x e3]; [|reflexivity].
    rewrite IH. replace (n + S (length pre))%nat with (S n + length pre)%nat by lia.
    reflexivity.
Qed.

(** C5, as stated, fails for a routine that asks for a decision in the
    compile phase that it did not ask for in discovery: the [NewBranch]
    signal leaves [compile], and the two continuations have been appended
    to the path set. *)
Lemma diverging_signal_escapes :
  exists e',
    compile 3 diverging Engine_init = Some (Err NewBranch e') /\
    paths e' = [([], false); ([true], false); ([false], false)].
Proof. eexists. split; vm_compute; reflexivity. Qed.

(** ** Routines that are functions of the decisions *)

Lemma quiet_bind {A B} (m : M A) (k : A -> M B) :
  quiet m -> (forall a, quiet (k a)) -> quiet (bind m k).
Proof.
  intros Hm Hk e. unfold bind. specialize (Hm e).
  destruct (m e) as [a e1|x e1]; [|exact Hm].
  destruct Hm as [Hc Hb]. specialize (Hk a e1).
  destruct (k a e1) as [b e2|x e2]; [|exact Hk].
  destruct Hk as [Hc2 Hb2]. split; congruence.
Qed.

Lemma quiet_ret {A} (a : A) : quiet (ret a).
Proof. intros e. split; reflexivity. Qed.

Lemma quiet_gets {A} (f : Engine -> A) : quiet (gets f).
Proof. intros e. split; reflexivity. Qed.

Lemma quiet_modify (f : Engine -> Engine) :
  (forall e, current_path (f e) = current_path e /\
             branch_id (f e) = branch_id e) ->
  quiet (modify f).
Proof. intros H e. apply H. Qed.

Ltac quiet_step :=
  first [ apply quiet_ret | apply quiet_gets
        | apply quiet_modify; intros ?; split; reflexivity ].

Lemma quiet_the_current_block : quiet the_current_block.
Proof.
  intros e. unfold the_current_block.
  destruct (current_block e); [split; reflexivity | discriminate].
Qed.

Lemma quiet_store_jump block ofs target : quiet (store_jump block ofs target).
Proof.
  destruct block as [r|]; simpl; [quiet_step | intros e; discriminate].
Qed.

Lemma quiet_write_value value size : quiet (write_value value size).
Proof. unfold write_value, write. quiet_step. Qed.

Lemma quiet_push st : quiet (push st).
Proof.
  unfold push. apply quiet_bind; [apply quiet_the_current_block|]. intros block.
  apply quiet_bind; [unfold store_buff; quiet_step|]. intros _.
  apply quiet_bind; [unfold reset; quiet_step|]. intros _.
  apply quiet_bind; [quiet_step|]. intros _.
  apply quiet_bind; [quiet_step|]. intros _.
  intros e. destruct (state_blocks e !! path_stack e); split; reflexivity.
Qed.

Lemma quiet_pop : quiet pop.
Proof.
  unfold pop. apply quiet_bind; [apply quiet_the_current_block|]. intros cur.
  apply quiet_bind; [unfold store_buff; quiet_step|]. intros _.
  apply quiet_bind.
  { intros e. destruct (list_pop (stack e)) as [[s b]|];
      [split; reflexivity | discriminate]. }
  intros block. apply quiet_bind.
  { intros e. destruct (list_pop (path_stack e)) as [[s t]|];
      [split; reflexivity | discriminate]. }
  intros _. apply quiet_bind; [quiet_step|]. intros _.
  apply quiet_bind; [unfold reset; quiet_step|]. intros _.
  intros e. destruct (blocks e !! block ≫= buff);
    [split; reflexivity | discriminate].
Qed.

Lemma quiet_pop_all n : quiet (pop_all n).
Proof.
  induction n as [|n IH]; intros e; simpl.
  - destruct (stack e); split; reflexivity.
  - destruct (stack e) eqn:Hs; [split; reflexivity|].
    exact (quiet_bind pop (fun _ => pop_all n) quiet_pop (fun _ => IH) e).
Qed.

Lemma quiet_unwind : quiet unwind.
Proof. intros e. unfold unwind. apply quiet_pop_all. Qed.

Lemma quiet_unknown value size : quiet (unknown value size).
Proof.
  unfold unknown. apply quiet_bind; [unfold compiling; quiet_step|].
  intros [|]; [apply quiet_write_value | quiet_step].
Qed.

(** [call] is its first half, the body of the callee and its second
    half, the halves being skipped outside the compile phase. *)
Lemma call_unfold f (body : M val) e :
  call f body e
  = ((if state e =? STATE_COMPILING then call_enter f else ret tt) ;;;
     r <- body ;;
     c' <- compiling ;;
     (if c' then call_exit r else ret tt) ;;;
     ret r) e.
Proof. reflexivity. Qed.

Lemma quiet_call_enter (f : fid) : quiet (call_enter f).
Proof.
  unfold call_enter.
  apply quiet_bind; [quiet_step|]. intros block.
  apply quiet_bind.
  { unfold write_jump. apply quiet_bind; [apply quiet_write_value|]. intros _.
    apply quiet_bind; [unfold tell; quiet_step|]. intros pos. quiet_step. }
  intros ofs. apply quiet_bind; [apply quiet_push|]. intros _.
  apply quiet_bind; [apply quiet_the_current_block|]. intros cur.
  apply quiet_store_jump.
Qed.

Lemma quiet_call_exit (r : val) :
  quiet (c' <- compiling ;;
         (if c' then call_exit r else ret tt) ;;;
         ret r).
Proof.
  apply quiet_bind; [unfold compiling; quiet_step|]. intros c'.
  apply quiet_bind; [|intros _; quiet_step].
  destruct c'; [|quiet_step]. unfold call_exit.
  apply quiet_bind; [unfold write_end; quiet_step | intros _; apply quiet_pop].
Qed.

Lemma call_exit_value (r : val) e w e' :
  (c' <- compiling ;; (if c' then call_exit r else ret tt) ;;; ret r) e
  = Ok w e' -> w = r.
Proof.
  unfold bind at 1. unfold compiling, gets.
  destruct (state e =? STATE_COMPILING); unfold bind at 1.
  - destruct (call_exit r e); [|discriminate]. intros [= <- _]. reflexivity.
  - intros [= <- _]. reflexivity.
Qed.

(** A [branch] that finds its decision recorded. *)
Lemma branch_recorded c e d :
  current_path e !! branch_id e = Some d ->
  match branch c e with
  | Ok b e' =>
      b = d /\ current_path e' = current_path e /\
      branch_id e' = S (branch_id e)
  | Err x _ => x <> NewBranch
  end.
Proof.
  intros Hd. unfold branch. rewrite Hd.
  set (e1 := set_branch_id (S (branch_id e)) e).
  assert (Hwb : forall s, quiet (write_branch s c)).
  { intros s. unfold write_branch.
    apply quiet_bind; [unfold tell; quiet_step|]. intros ofs.
    apply quiet_bind; [apply quiet_write_value | intros _; quiet_step]. }
  assert (Hq : quiet
            (c0 <- compiling ;;
             (if c0 then
                old_block <- gets current_block ;;
                true_ofs <- write_branch true c ;;
                false_ofs <- write_branch false c ;;
                push (TBool d) ;;;
                cur <- the_current_block ;;
                (if d
                 then store_jump old_block true_ofs cur
                 else store_jump old_block false_ofs cur)
              else ret tt) ;;;
             ret d)).
  { apply quiet_bind; [unfold compiling; quiet_step|]. intros c0.
    apply quiet_bind; [|intros _; quiet_step].
    destruct c0; [|quiet_step].
    apply quiet_bind; [quiet_step|]. intros old_block.
    apply quiet_bind; [apply Hwb|]. intros true_ofs.
    apply quiet_bind; [apply Hwb|]. intros false_ofs.
    apply quiet_bind; [apply quiet_push|]. intros _.
    apply quiet_bind; [apply quiet_the_current_block|]. intros cur.
    destruct d; apply quiet_store_jump. }
  specialize (Hq e1).
  destruct ((c0 <- compiling ;; _) e1) as [b e2|x e2] eqn:Hbr; [|exact Hq].
  destruct Hq as [Hc Hb]. split; [|split; assumption].
  revert Hbr. unfold bind at 1. unfold compiling, gets.
  destruct (state e1 =? STATE_COMPILING); unfold bind at 1.
  - match goal with |- context [match ?m e1 with _ => _ end] =>
      destruct (m e1) end; [|discriminate].
    intros [= <- _]. reflexivity.
  - intros [= <- _]. reflexivity.
Qed.

(** A run that is handed every decision it asks for returns or raises an
    exception other than [NewBranch], in either phase; when it returns,
    the value and the decisions left unread are those of the decision
    tree. *)
Lemma exec_fed p : forall e v rest,
  dfeed (flatten p) (drop (branch_id e) (current_path e)) = FDone v rest ->
  match exec p e with
  | Ok w e' =>
      w = v /\ current_path e' = current_path e /\
      drop (branch_id e') (current_path e) = rest
  | Err x _ => x <> NewBranch
  end.
Proof.
  induction p as [v0|c k IH|c k IH|f body IHb k IHk|v0 s k IH|v0 s k IH|c];
    intros e v rest Hfeed; simpl in *.
  - injection Hfeed as <- <-. repeat split.
  - destruct (drop (branch_id e) (current_path e)) as [|d ds] eqn:Hdrop;
      [discriminate|].
    assert (Hd : current_path e !! branch_id e = Some d).
    { rewrite <- (Nat.add_0_r (branch_id e)), <- lookup_drop, Hdrop.
      reflexivity. }
    pose proof (branch_recorded c e d Hd) as Hbr.
    destruct (branch c e) as [b e1|x e1]; [|exact Hbr].
    destruct Hbr as (-> & Hc & Hb).
    assert (Hdrop1 : drop (branch_id e1) (current_path e1) = ds).
    { rewrite Hc, Hb.
      change (S (branch_id e)) with (1 + branch_id e)%nat.
      rewrite Nat.add_comm, <- drop_drop, Hdrop. reflexivity. }
    specialize (IH d e1 v rest). rewrite Hdrop1 in IH. specialize (IH Hfeed).
    destruct (exec (k d) e1) as [w e2|x e2]; [|exact IH].
    destruct IH as (-> & Hc2 & Hr). rewrite Hc in Hc2, Hr.
    repeat split; assumption.
  - discriminate.
  - rewrite dfeed_dbind in Hfeed.
    destruct (dfeed (flatten body) (drop (branch_id e) (current_path e)))
      as [v1 rest1| |x] eqn:Hbody; try discriminate.
    rewrite call_unfold. unfold bind at 1.
    assert (Hen : quiet (if state e =? STATE_COMPILING
                         then call_enter f else ret tt))
      by (destruct (state e =? STATE_COMPILING);
          [apply quiet_call_enter | quiet_step]).
    specialize (Hen e).
    destruct ((if state e =? STATE_COMPILING then call_enter f else ret tt) e)
      as [[] e1|x e1]; [|exact Hen].
    destruct Hen as [Hc1 Hb1].
    unfold bind at 1.
    specialize (IHb e1 v1 rest1). rewrite Hc1, Hb1 in IHb.
    specialize (IHb Hbody).
    destruct (exec body e1) as [w e2|x e2]; [|exact IHb].
    destruct IHb as (-> & Hc2 & Hr2).
    pose proof (quiet_call_exit v1 e2) as Hex.
    destruct ((c' <- compiling ;; _) e2) as [r e3|x e3] eqn:Heqr; [|exact Hex].
    destruct Hex as [Hc3 Hb3].
    apply call_exit_value in Heqr as ->.
    specialize (IHk v1 e3 v rest).
    rewrite Hc3, Hb3, Hc2, Hr2 in IHk. specialize (IHk Hfeed).
    destruct (exec (k v1) e3) as [w e4|x e4]; [|exact IHk].
    destruct IHk as (-> & Hc4 & Hr4).
    split; [reflexivity|]. split; assumption.
  - pose proof (quiet_unknown v0 s e) as Hq.
    destruct (unknown v0 s e) as [[] e1|x e1]; [|exact Hq].
    destruct Hq as [Hc Hb]. specialize (IH e1 v rest).
    rewrite Hc, Hb in IH. specialize (IH Hfeed).
    destruct (exec k e1) as [w e2|x e2]; [|exact IH].
    destruct IH as (-> & Hc2 & Hr). repeat split; [congruence | exact Hr].
  - specialize (IH (set_buffer (buffer e ++ value_bytes v0 s) e) v rest Hfeed).
    exact IH.
  - discriminate.
Qed.

Lemma quiet_silent {A} (m : M A) : quiet m -> silent m.
Proof. intros H e. specialize (H e). destruct (m e); [exact I | exact H]. Qed.

Lemma silent_bind {A B} (m : M A) (k : A -> M B) :
  silent m -> (forall a, silent (k a)) -> silent (bind m k).
Proof.
  intros Hm Hk e. unfold bind. specialize (Hm e).
  destruct (m e) as [a e1|x e1]; [apply Hk | exact Hm].
Qed.

(** In discovery, every unmarked entry that has been run is a sequence of
    decisions on which the routine returns. *)
Lemma find_loop_returned p : forall fuel e e',
  state e <> STATE_COMPILING ->
  (forall j π, (j < path_id e)%nat -> paths e !! j = Some (π, false) ->
               returns_on p π) ->
  find_loop fuel (fun _ => p) e = Some (Ok tt e') ->
  forall π, (π, false) ∈ paths e' -> returns_on p π.
Proof.
  assert (Hend : forall e,
             (forall j π, (j < path_id e)%nat ->
                          paths e !! j = Some (π, false) -> returns_on p π) ->
             (length (paths e) <= path_id e)%nat ->
             forall π, (π, false) ∈ paths e -> returns_on p π).
  { intros e Hinv Hge π Hin. apply list_elem_of_lookup in Hin as [j Hj].
    apply (Hinv j); [|exact Hj]. apply lookup_lt_Some in Hj. lia. }
  induction fuel as [|fuel IH]; intros e e' Hst Hinv Hr.
  - simpl in Hr.
    destruct (Nat.ltb_spec (path_id e) (length (paths e))); [discriminate|].
    injection Hr as <-. apply Hend; assumption.
  - destruct (paths e !! path_id e) as [[π m]|] eqn:Hlook.
    2:{ apply lookup_ge_None in Hlook.
        rewrite find_loop_done in Hr by exact Hlook.
        injection Hr as <-. apply Hend; assumption. }
    assert (Hlt : (path_id e < length (paths e))%nat)
      by (eapply lookup_lt_Some; exact Hlook).
    destruct (find_loop_step fuel (fun _ => p) e π m Hst Hlook)
      as (e1 & Hf & _ & Hres).
    assert (Hst1 : state e1 <> STATE_COMPILING)
      by (destruct Hf as [-> _]; exact Hst).
    destruct (dfeed (flatten p) π) as [v rest| |x] eqn:Hfeed.
    + destruct Hres as (Hfl & Hp & Hpid). rewrite Hfl in Hr.
      apply (IH e1 e' Hst1); [|exact Hr].
      rewrite Hp, Hpid. intros j σ Hj Hσ.
      destruct (decide (j = path_id e)) as [->|Hne].
      * rewrite Hlook in Hσ. injection Hσ as <- _. exists v, rest. exact Hfeed.
      * apply (Hinv j); [lia | exact Hσ].
    + destruct Hres as (Hfl & Hp & Hpid). rewrite Hfl in Hr.
      apply (IH e1 e' Hst1); [|exact Hr].
      rewrite Hp, Hpid. intros j σ Hj Hσ.
      destruct (decide (j = path_id e)) as [->|Hne].
      * rewrite list_lookup_insert_eq in Hσ
          by (rewrite length_app; simpl; lia).
        discriminate.
      * rewrite list_lookup_insert_ne in Hσ by auto.
        rewrite lookup_app_l in Hσ by lia.
        apply (Hinv j); [lia | exact Hσ].
    + destruct Hres as (Hfl & _). rewrite Hfl in Hr. discriminate.
Qed.

(** Compiling paths on which the routine returns never raises the
    signal. *)
Lemma compile_paths_silent p : forall ps n,
  Forall (fun en => returns_on p (fst en)) ps ->
  silent (compile_paths (fun _ => p) n ps).
Proof.
  induction ps as [|en ps IH]; intros n Hall e; simpl; [exact I|].
  apply Forall_cons in Hall as [(v & rest & Hfeed) Hall].
  unfold bind at 1. simpl. unfold bind at 1. simpl. unfold bind at 1. simpl.
  unfold bind at 1.
  set (e1 := set_current_path (fst en) (set_branch_id 0 (set_buffer [] e))).
  pose proof (exec_fed p e1 v rest Hfeed) as Hex.
  destruct (exec p e1) as [w e2|x e2]; [clear Hex | exact Hex].
  assert (Hrest : silent
            (write_end w ;;;
             cur <- the_current_block ;;
             store_buff cur ;;;
             unwind ;;;
             compile_paths (fun _ => p) (S n) ps)).
  { apply silent_bind; [apply quiet_silent; unfold write_end; quiet_step|].
    intros _. apply silent_bind;
      [apply quiet_silent, quiet_the_current_block|].
    intros cur. apply silent_bind;
      [apply quiet_silent; unfold store_buff; quiet_step|].
    intros _. apply silent_bind; [apply quiet_silent, quiet_unwind|].
    intros _. apply IH. exact Hall. }
  exact (Hrest e2).
Qed.

(** [compile] of a routine that is a function of the decisions never ends
    with the signal. *)
Lemma compile_silent p fuel e r :
  compile fuel (fun _ => p) e = Some r -> forall e', r <> Err NewBranch e'.
Proof.
  unfold compile, compile_body.
  destruct (_find_branches fuel (fun _ => p)
              (set_state STATE_BUILDING_BRANCHES e))
    as [[[] e1|x e1]|] eqn:Hfb; [| |discriminate].
  - assert (Hall : Forall (fun en => returns_on p (fst en)) (paths e1)).
    { unfold _find_branches in Hfb.
      destruct (find_loop fuel (fun _ => p) _) as [[[] e0|x e0]|] eqn:Hfl;
        try discriminate.
      injection Hfb as <-. simpl.
      apply Forall_forall. intros [π m] Hin.
      rewrite sort_desc_perm in Hin.
      apply list_elem_of_In, filter_In in Hin as [Hin Hterm].
      apply list_elem_of_In in Hin.
      unfold terminal in Hterm. simpl in Hterm. destruct m; [discriminate|].
      simpl. eapply (find_loop_returned p fuel _ e0); [| |exact Hfl|exact Hin].
      - simpl. discriminate.
      - simpl. intros j σ Hj. lia. }
    set (e2 := set_blocks _ _).
    pose proof (compile_paths_silent p (paths e2) (path_id e1) Hall e2) as Hs.
    destruct (compile_paths _ _ _ e2) as [[] e3|x e3];
      intros [= <-] e'; [discriminate|].
    intros [= -> _]. apply Hs. reflexivity.
  - intros [= <-] e' [= -> _].
    eapply (find_loop_no_signal (fun _ => p) fuel); [|reflexivity].
    unfold _find_branches in Hfb.
    destruct (find_loop fuel (fun _ => p) _) as [[[] e0|y e0]|] eqn:Hfl;
      try discriminate.
    injection Hfb as -> ->. exact Hfl.
Qed.

(** C5 (amended): discovery never lets the [NewBranch] signal out, and
    [compile] of a routine that is a function of the decisions it is
    handed never raises the signal to its caller, whatever engine it
    starts from: it returns the root block or raises another exception
    (and with fuel for every discovery run it does one of the two).  A
    [branch] asked for a decision beyond the recorded path raises the
    signal at once, whatever the run state, writing nothing to the buffer
    or to a block; raised in the compile phase, as by a routine that asks
    there for a decision it did not ask for in discovery, the exception
    ends [compile]: no later path is compiled, nothing recovers from it,
    and [compile] raises it to its caller with the engine idle. *)
Theorem escape_signal_confined :
  (forall fuel func e r,
      _find_branches fuel func e = Some r ->
      forall e', r <> Err NewBranch e') /\
  (forall p e,
      (exists r, compile (dsize (flatten p)) (fun _ => p) e = Some r) /\
      forall fuel r,
        compile fuel (fun _ => p) e = Some r ->
        forall e', r <> Err NewBranch e') /\
  (forall c e,
      current_path e !! branch_id e = None ->
      exists e',
        branch c e = Err NewBranch e' /\
        buffer e' = buffer e /\ blocks e' = blocks e /\ same_frame e e') /\
  (forall fuel func e e1 pre p ps e2 x e3,
      _find_branches fuel func (set_state STATE_BUILDING_BRANCHES e)
      = Some (Ok tt e1) ->
      paths e1 = pre ++ p :: ps ->
      compile_paths func (path_id e1) pre
        (set_blocks (blocks e1 ++ [new_block])
           (set_current_block (Some (length (blocks e1)))
              (set_state_blocks ∅ (set_state STATE_COMPILING e1))))
      = Ok tt e2 ->
      exec (func (path_id e1 + length pre)%nat)
           (set_current_path (fst p) (set_branch_id 0 (set_buffer [] e2)))
      = Err x e3 ->
      compile fuel func e = Some (Err x (set_state STATE_IDLE e3))).
Proof.
  split; [|split; [|split]].
  - intros fuel func e r. unfold _find_branches.
    destruct (find_loop fuel func _) as [[[] e1|x e1]|] eqn:Hfl;
      try discriminate.
    + intros [= <-]. discriminate.
    + intros [= <-]. eapply find_loop_no_signal. exact Hfl.
  - intros p e. split; [apply compile_terminates|].
    intros fuel r. apply compile_silent.
  - intros c e Hnone. unfold branch. rewrite Hnone.
    eexists. split; [reflexivity|]. repeat split.
  - intros fuel func e e1 pre p ps e2 x e3 Hfb Hp Hpre Hexec.
    unfold compile, compile_body. rewrite Hfb.
    simpl paths. rewrite Hp, compile_paths_app, Hpre.
    simpl. unfold bind. simpl. rewrite Hexec. reflexivity.
Qed.

Lemma escape_signal_confined_witness :
  (exists r,
      compile 3 (fun _ => one_branch false 0 0 0) Engine_init = Some r /\
      forall e', r <> Err NewBranch e') /\
  exists e1 e2 e3,
    _find_branches 3 diverging (set_state STATE_BUILDING_BRANCHES Engine_init)
    = Some (Ok tt e1) /\
    paths e1 = [] ++ ([], false) :: [] /\
    compile_paths diverging (path_id e1) []
      (set_blocks (blocks e1 ++ [new_block])
         (set_current_block (Some (length (blocks e1)))
            (set_state_blocks ∅ (set_state STATE_COMPILING e1))))
    = Ok tt e2 /\
    exec (diverging (path_id e1 + length ([] : list (list bool * bool)))%nat)
         (set_current_path (fst ([], false))
            (set_branch_id 0 (set_buffer [] e2)))
    = Err NewBranch e3 /\
    compile 3 diverging Engine_init
    = Some (Err NewBranch (set_state STATE_IDLE e3)).
Proof.
  split.
  { destruct (proj1 (proj2 escape_signal_confined)
                (one_branch false 0 0 0) Engine_init) as [[r Hr] Hno].
    exists r. split; [exact Hr | exact (Hno _ r Hr)]. }
  set (e1 := set_paths [([], false)]
               (set_path_id 1 (set_state STATE_BUILDING_BRANCHES Engine_init))).
  set (e2 := set_blocks (blocks e1 ++ [new_block])
               (set_current_block (Some (length (blocks e1)))
                  (set_state_blocks ∅ (set_state STATE_COMPILING e1)))).
  set (e3 := set_paths [([], false); ([true], false); ([false], false)]
               (set_current_path [] (set_branch_id 0 (set_buffer [] e2)))).
  assert (H1 : _find_branches 3 diverging
                 (set_state STATE_BUILDING_BRANCHES Engine_init)
               = Some (Ok tt e1)) by (vm_compute; reflexivity).
  assert (H3 : compile_paths diverging (path_id e1) [] e2 = Ok tt e2)
    by reflexivity.
  assert (H4 : exec (diverging (path_id e1
                                + length ([] : list (list bool * bool)))%nat)
                    (set_current_path (fst ([], false))
                       (set_branch_id 0 (set_buffer [] e2)))
               = Err NewBranch e3) by (vm_compute; reflexivity).
  exists e1, e2, e3.
  split; [exact H1|]. split; [reflexivity|]. split; [exact H3|].
  split; [exact H4|].
  exact (proj2 (proj2 (proj2 escape_signal_confined)) 3%nat diverging
               Engine_init e1 [] ([], false) [] e2 NewBranch e3 H1 eq_refl
               H3 H4).
Defined.

(** ** [push], [pop] and [call] in the compile phase *)

Lemma list_pop_app {A} (s : list A) (x : A) : list_pop (s ++ [x]) = Some (s, x).
Proof.
  unfold list_pop. rewrite rev_app_distr. simpl. rewrite rev_involutive.
  reflexivity.
Qed.

Lemma push_spec st e c :
  current_block e = Some c ->
  push st e
  = Ok tt
       (let e0 := set_path_stack (path_stack e ++ [st])
                    (set_stack (stack e ++ [c])
                       (set_buffer []
                          (set_blocks (alter (set_buff (buffer e)) c (blocks e)) e))) in
        match state_blocks e !! (path_stack e ++ [st]) with
        | Some r => set_current_block (Some r) e0
        | None =>
            set_state_blocks
              (<[path_stack e ++ [st] := length (blocks e)]> (state_blocks e))
              (set_blocks (alter (set_buff (buffer e)) c (blocks e) ++ [new_block])
                 (set_current_block (Some (length (blocks e))) e0))
        end).
Proof.
  intros Hc. unfold push, bind, the_current_block. rewrite Hc. simpl.
  destruct (state_blocks e !! (path_stack e ++ [st])); [reflexivity|].
  rewrite length_alter. reflexivity.
Qed.

Lemma pop_spec e b s c K t content :
  current_block e = Some b ->
  stack e = s ++ [c] ->
  path_stack e = K ++ [t] ->
  alter (set_buff (buffer e)) b (blocks e) !! c ≫= buff = Some content ->
  pop e
  = Ok tt (set_buffer content
             (set_current_block (Some c)
                (set_path_stack K
                   (set_stack s
                      (set_blocks (alter (set_buff (buffer e)) b (blocks e)) e))))).
Proof.
  intros Hb Hs HK Hcont. unfold pop, bind, the_current_block. rewrite Hb.
  simpl. rewrite Hs, list_pop_app. simpl. rewrite HK, list_pop_app. simpl.
  rewrite Hcont. reflexivity.
Qed.

Lemma straight_post_refl e c : compiling_inv e c -> straight_post e c e.
Proof.
  intros H. unfold straight_post. repeat split; auto; try apply H.
Qed.

Lemma straight_post_buffer e c s :
  compiling_inv e c -> straight_post e c (set_buffer s e).
Proof.
  intros H. unfold straight_post, compiling_inv in *. simpl.
  destruct H as (?&?&?&?&?&?). repeat split; auto.
Qed.

Lemma straight_post_trans e1 e2 e3 c :
  straight_post e1 c e2 -> straight_post e2 c e3 -> straight_post e1 c e3.
Proof.
  intros (Hi2 & Hs2 & Hp2 & Hk2 & Hn2 & Hl2 & Hu2)
         (Hi3 & Hs3 & Hp3 & Hk3 & Hn3 & Hl3 & Hu3).
  split; [exact Hi3|]. split; [congruence|]. split; [congruence|].
  split; [auto|]. split; [|split; [lia|]].
  - intros key v Hv. destruct (Hn3 key v Hv) as [Hold|(Hpre & Hne & Hge)].
    + apply Hn2. exact Hold.
    + right. rewrite Hp2 in Hpre, Hne. repeat split; auto. lia.
  - intros r Hrc Hr Hout. rewrite Hu3; [apply Hu2; assumption | exact Hrc | lia |].
    intros key Hkey. rewrite Hp2.
    destruct (Hn2 key r Hkey) as [Hold|(_ & _ & Hge)]; [auto | lia].
Qed.

Lemma prefix_snoc_not {A} (K : list A) (t : A) : ~ (K ++ [t]) `prefix_of` K.
Proof.
  intros H. apply prefix_length in H. rewrite length_app in H. simpl in H. lia.
Qed.

Lemma prefix_snoc {A} (K : list A) (t : A) : K `prefix_of` K ++ [t].
Proof. exists [t]. reflexivity. Qed.

Lemma snoc_ne {A} (K : list A) (t : A) : K ++ [t] <> K.
Proof.
  intros H. apply (f_equal length) in H. rewrite length_app in H.
  simpl in H. lia.
Qed.

(** [call] around a body that leaves the context as it found it. *)
Lemma call_straight f (m : M val) e c :
  compiling_inv e c ->
  (forall e1 c1, compiling_inv e1 c1 ->
     exists v e2, m e1 = Ok v e2 /\ straight_post e1 c1 e2) ->
  exists v e' b C,
    call f m e = Ok v e' /\
    straight_post e c e' /\
    buffer e' = buffer e ++ value_bytes 0 pointer_size /\
    state_blocks e' !! (path_stack e ++ [TFunc f]) = Some b /\
    b <> c /\
    (state_blocks e !! (path_stack e ++ [TFunc f]) = Some b \/
     (state_blocks e !! (path_stack e ++ [TFunc f]) = None /\
      b = length (blocks e))) /\
    blocks e !! c = Some C /\
    blocks e' !! c
    = Some (set_jump (Z.of_nat (length (buffer e))) b
              (set_buff (buffer e ++ value_bytes 0 pointer_size) C)).
Proof.
  intros Hinv Hbody.
  destruct Hinv as (Hst & Hcur & Hc & Hbound & Hinj & Honly).
  destruct (lookup_lt_is_Some_2 _ _ Hc) as [C HC].
  set (K := path_stack e) in *.
  set (K' := K ++ [TFunc f]).
  set (zeros := value_bytes 0 pointer_size).
  set (C1 := set_jump (Z.of_nat (length (buffer e)))).
  (* the block opened by [push] *)
  set (b := default (length (blocks e)) (state_blocks e !! K')).
  set (ew := set_buffer (buffer e ++ zeros) e).
  assert (Hpush : exists ep,
             push (TFunc f) ew = Ok tt ep /\
             state ep = STATE_COMPILING /\ current_block ep = Some b /\
             stack ep = stack e ++ [c] /\ path_stack ep = K' /\
             buffer ep = [] /\
             (forall key v, state_blocks e !! key = Some v ->
                            state_blocks ep !! key = Some v) /\
             (forall key v, state_blocks ep !! key = Some v ->
                state_blocks e !! key = Some v \/
                (key = K' /\ v = length (blocks e) /\
                 state_blocks e !! K' = None)) /\
             state_blocks ep !! K' = Some b /\
             (length (blocks e) <= length (blocks ep))%nat /\
             (b < length (blocks ep))%nat /\
             (forall key v, state_blocks ep !! key = Some v ->
                            (v < length (blocks ep))%nat) /\
             (forall r, (r < length (blocks e))%nat ->
                blocks ep !! r
                = alter (set_buff (buffer e ++ zeros)) c (blocks e) !! r)).
  { rewrite (push_spec _ ew c Hcur). eexists. split; [reflexivity|].
    subst b. simpl. fold K K'.
    destruct (state_blocks e !! K') as [r|] eqn:HK'; simpl.
    - rewrite length_alter. repeat split; auto.
      + eauto.
    - rewrite length_app, length_alter. simpl.
      repeat split; auto.
      + intros key v Hv. rewrite lookup_insert_ne; [exact Hv|].
        intros <-. congruence.
      + intros key v. rewrite lookup_insert. case_decide as Hk.
        * intros [= <-]. right. auto.
        * auto.
      + apply lookup_insert_eq.
      + lia.
      + lia.
      + intros key v. rewrite lookup_insert. case_decide as Hk.
        * intros [= <-]. lia.
        * intros Hv. apply Hbound in Hv. lia.
      + intros r Hr. apply lookup_app_l. rewrite length_alter. exact Hr. }
  destruct Hpush as (ep & Hpush & Hstp & Hcurp & Hstackp & Hpsp & Hbufp
                     & Hkeep & Hnew & HbK & Hlen & Hb & Hboundp & Hblk).
  assert (Hbc : b <> c).
  { intros ->. destruct (Hnew _ _ HbK) as [Hold|(_ & Hn & _)]; [|lia].
    apply Honly in Hold. exact (snoc_ne _ _ Hold). }
  set (ofs := Z.of_nat (length (buffer e))).
  set (ein := set_blocks (alter (set_jump ofs b) c (blocks ep)) ep).
  assert (Hin : compiling_inv ein b).
  { unfold compiling_inv, ein. simpl. rewrite length_alter.
    split; [exact Hstp|]. split; [exact Hcurp|]. split; [exact Hb|].
    split; [exact Hboundp|]. split.
    - intros k1 k2 v H1 H2.
      destruct (Hnew _ _ H1) as [O1|(E1 & V1 & _)],
               (Hnew _ _ H2) as [O2|(E2 & V2 & _)].
      + eapply Hinj; eassumption.
      + apply Hbound in O1. lia.
      + apply Hbound in O2. lia.
      + congruence.
    - intros key Hkey. rewrite Hpsp.
      destruct (Hnew _ _ Hkey) as [O1|(E1 & _)]; [|exact E1].
      destruct (Hnew _ _ HbK) as [O2|(_ & V2 & _)].
      + eapply Hinj; eassumption.
      + apply Hbound in O1. lia. }
  destruct (Hbody ein b Hin) as (v & eo & Hm & Hpost).
  destruct Hpost as (Hio & Hso & Hpo & Hko & Hno & Hlo & Huo).
  simpl in Hso, Hpo, Hko, Hno, Hlo, Huo. rewrite length_alter in Hlo, Hno, Huo.
  destruct Hio as (Hsto & Hcuro & Hbo & Hboundo & Hinjo & Honlyo).
  (* the calling block is untouched by the body *)
  assert (Hco : blocks eo !! c
                = Some (set_jump ofs b (set_buff (buffer e ++ zeros) C))).
  { rewrite Huo.
    - rewrite list_lookup_alter_eq, Hblk, list_lookup_alter_eq, HC by exact Hc.
      reflexivity.
    - auto.
    - lia.
    - intros key Hkey Hpre. rewrite Hpsp in Hpre.
      destruct (Hnew _ _ Hkey) as [Hold|(_ & Hn & _)]; [|lia].
      apply Honly in Hold. subst key. exact (prefix_snoc_not _ _ Hpre). }
  exists v,
    (set_buffer (buffer e ++ zeros)
       (set_current_block (Some c)
          (set_path_stack K
             (set_stack (stack e)
                (set_blocks (alter (set_buff (buffer eo)) b (blocks eo)) eo))))),
    b, C.
  split.
  { unfold call, bind. rewrite compiling_true by exact Hst.
    unfold write_jump, bind, write_value, write, modify, tell, gets, ret.
    simpl. fold zeros ew. rewrite Hpush.
    unfold the_current_block at 1. rewrite Hcurp, Hcur.
    unfold store_jump, modify.
    replace (Z.of_nat (length (buffer e ++ zeros)) - pointer_size) with ofs
      by (subst ofs zeros; rewrite length_app, value_bytes_length;
          unfold pointer_size; lia).
    fold ein. rewrite Hm.
    rewrite Hsto. simpl.
    rewrite (pop_spec eo b (stack e) c K (TFunc f) (buffer e ++ zeros));
      [reflexivity | exact Hcuro | rewrite Hso; exact Hstackp
       | rewrite Hpo; exact Hpsp |].
    rewrite list_lookup_alter_ne by auto. rewrite Hco. reflexivity. }
  split.
  { unfold straight_post, compiling_inv. simpl. rewrite length_alter.
    fold K.
    split.
    { split; [exact Hsto|]. split; [reflexivity|]. split; [lia|].
      split; [exact Hboundo|]. split; [exact Hinjo|].
      intros key Hkey.
      destruct (Hno _ _ Hkey) as [Hold|(_ & _ & Hge)]; [|lia].
      destruct (Hnew _ _ Hold) as [Hold'|(_ & Hn & _)]; [|lia].
      apply Honly. exact Hold'. }
    split; [reflexivity|]. split; [reflexivity|].
    split; [intros key w Hw; apply Hko, Hkeep, Hw|].
    split.
    { intros key w Hw.
      destruct (Hno _ _ Hw) as [Hold|(Hpre & Hne & Hge)].
      - destruct (Hnew _ _ Hold) as [Hold'|(-> & -> & _)]; [auto|].
        right. split; [apply prefix_snoc|]. split; [apply snoc_ne | lia].
      - right. rewrite Hpsp in Hpre, Hne. split.
        + etransitivity; [apply prefix_snoc | exact Hpre].
        + split; [|lia]. intros ->. exact (prefix_snoc_not _ _ Hpre). }
    split; [lia|].
    intros r Hrc Hr Hout.
    assert (Hrb : r <> b).
    { intros ->. destruct (Hnew _ _ HbK) as [Hold|(_ & Hn & _)]; [|lia].
      apply (Hout _ Hold). apply prefix_snoc. }
    rewrite list_lookup_alter_ne by auto.
    rewrite Huo.
    - rewrite list_lookup_alter_ne by auto.
      rewrite Hblk by exact Hr. apply list_lookup_alter_ne. auto.
    - auto.
    - lia.
    - intros key Hkey Hpre. rewrite Hpsp in Hpre.
      destruct (Hnew _ _ Hkey) as [Hold|(_ & Hn & _)]; [|lia].
      apply (Hout _ Hold). etransitivity; [apply prefix_snoc | exact Hpre]. }
  split; [reflexivity|].
  split; [apply Hko, HbK|]. split; [exact Hbc|].
  split.
  { destruct (Hnew _ _ HbK) as [Hold|(_ & Hn & Hnone)]; [left | right]; auto. }
  split; [exact HC|].
  simpl. rewrite list_lookup_alter_ne by auto. exact Hco.
Qed.

Lemma exec_straight p : straight p -> forall e c,
  compiling_inv e c ->
  exists v e', exec p e = Ok v e' /\ straight_post e c e'.
Proof.
  induction p as [v|cd k IH|cd k IH|f body IHb k IHk|v s k IH|v s k IH|cd];
    simpl; intros Hs e c Hinv; try contradiction.
  - exists v, e. split; [reflexivity | apply straight_post_refl, Hinv].
  - destruct Hs as [Hsb Hsk].
    destruct (call_straight f (exec body) e c Hinv (IHb Hsb))
      as (v & e1 & b & C & Hcall & Hpost & _).
    rewrite Hcall.
    destruct (IHk v (Hsk v) e1 c) as (w & e2 & Hk & Hpost2);
      [apply Hpost|].
    exists w, e2. split; [exact Hk|].
    eapply straight_post_trans; eassumption.
  - unfold unknown, bind. rewrite compiling_true by apply Hinv.
    unfold write_value, write, modify.
    pose proof (straight_post_buffer e c (buffer e ++ value_bytes v s) Hinv)
      as Hpost.
    destruct (IH Hs _ c (proj1 Hpost)) as (w & e2 & Hk & Hpost2).
    exists w, e2. split; [exact Hk|].
    exact (straight_post_trans _ _ _ _ Hpost Hpost2).
  - unfold write_value, write, modify.
    pose proof (straight_post_buffer e c (buffer e ++ value_bytes v s) Hinv)
      as Hpost.
    destruct (IH Hs _ c (proj1 Hpost)) as (w & e2 & Hk & Hpost2).
    exists w, e2. split; [exact Hk|].
    exact (straight_post_trans _ _ _ _ Hpost Hpost2).
Qed.

(** ** Call sites of one subroutine *)


(** ** Block equality *)

Lemma block_eq_same fuel h a : block_eq (S fuel) h a a = Some (inr true).
Proof. simpl. destruct (decide (a = a)); [reflexivity | contradiction]. Qed.

Section Scan.

Variables (h : list EngineBlock) (rec : nat -> nat -> cmp).
Variables (A B : EngineBlock) (ba bb : list Z).

Hypothesis slots : slots_wf (jumps A).
Hypothesis same_length : length ba = length bb.
Hypothesis rec_total : forall o ta tb,
    jumps A !! o = Some ta -> jumps B !! o = Some tb ->
    exists r, rec ta tb = Some r.
Hypothesis rec_correct : forall o ta tb,
    jumps A !! o = Some ta -> jumps B !! o = Some tb ->
    rec ta tb = Some (inr true) <-> block_equal_left h ta tb.

Local Abbreviation agree_from := (agree_from h A B ba bb).

Lemma agree_from_end idx : Z.of_nat (length ba) <= idx -> 0 <= idx -> agree_from idx.
Proof.
  intros Hge H0. split; [|split].
  - intros i x y Hi _ Hx _. apply lookup_lt_Some in Hx. lia.
  - intros o Ho. lia.
  - intros o ta tb Ho. lia.
Qed.

Lemma eq_scan_correct : forall n idx,
  0 <= idx -> boundary (jumps A) idx ->
  Z.of_nat (length ba) <= idx + Z.of_nat n ->
  (exists r, eq_scan rec A B ba bb n idx = Some r) /\
  (eq_scan rec A B ba bb n idx = Some (inr true) <-> agree_from idx).
Proof.
  induction n as [|n IH]; intros idx H0 Hbnd Hfuel; simpl.
  { split; [eauto|]. split; [intros _; apply agree_from_end; lia | reflexivity]. }
  destruct (Z.ltb_spec idx (Z.of_nat (length ba))) as [Hlt|Hge].
  2:{ split; [eauto|].
      split; [intros _; apply agree_from_end; lia | reflexivity]. }
  destruct (jumps A !! idx) as [ta|] eqn:HA.
  - (* a slot of the left block starts here *)
    destruct (jumps B !! idx) as [tb|] eqn:HB.
    2:{ split; [eauto|]. split; [discriminate|].
        intros (_ & Hs & _). destruct (Hs idx) as [? ?]; [lia | eauto |].
        congruence. }
    assert (Hnext : boundary (jumps A) (idx + pointer_size)).
    { intros o t Ho Hlt'.
      destruct (Z.lt_trichotomy o idx) as [Hl|[->|Hg]].
      - specialize (Hbnd o t Ho Hl). lia.
      - lia.
      - destruct (slots idx ta HA) as [_ Hd].
        specialize (Hd o t Ho Hg). lia. }
    destruct (IH (idx + pointer_size)) as [Htot Hiff];
      [unfold pointer_size; lia | exact Hnext | unfold pointer_size; lia |].
    destruct (rec_total idx ta tb HA HB) as [r Hr].
    pose proof (rec_correct idx ta tb HA HB) as Hrc.
    rewrite Hr in Hrc |- *.
    assert (Hstep : agree_from idx
                    <-> block_equal_left h ta tb /\ agree_from (idx + pointer_size)).
    { split.
      - intros (Hb & Hs & Hl). split; [apply (Hl idx); [lia | assumption..]|].
        split; [|split].
        + intros i x y Hi. apply Hb. unfold pointer_size in Hi. lia.
        + intros o Ho. apply Hs. unfold pointer_size in Ho. lia.
        + intros o ua ub Ho. apply Hl. unfold pointer_size in Ho. lia.
      - intros (Heq & Hb & Hs & Hl). split; [|split].
        + intros i x y Hi Hns. apply Hb; [|exact Hns].
          destruct (Z.lt_ge_cases i (idx + pointer_size)); [|assumption].
          exfalso. apply Hns. exists idx, ta. split; [exact HA | lia].
        + intros o Ho Hsome.
          destruct (Z.eq_dec o idx) as [->|Hne]; [eauto|].
          apply Hs; [|exact Hsome].
          destruct Hsome as [t Ht].
          destruct (slots idx ta HA) as [_ Hd].
          specialize (Hd o t Ht). lia.
        + intros o ua ub Ho Hua Hub.
          destruct (Z.eq_dec o idx) as [->|Hne]; [congruence|].
          apply (Hl o); [|assumption..].
          destruct (slots idx ta HA) as [_ Hd].
          specialize (Hd o ua Hua). lia. }
    destruct r as [x|[|]].
    + split; [eauto|]. split; [discriminate|].
      intros Hag. apply Hstep in Hag as [Heq _].
      apply Hrc in Heq. discriminate.
    + split; [exact Htot|]. rewrite Hiff, Hstep.
      split; [intros H; split; [apply Hrc; reflexivity | exact H] | tauto].
    + split; [eauto|]. split; [discriminate|].
      intros Hag. apply Hstep in Hag as [Heq _].
      apply Hrc in Heq. discriminate.
  - (* an ordinary byte *)
    assert (Hia : (Z.to_nat idx < length ba)%nat) by lia.
    assert (Hib : (Z.to_nat idx < length bb)%nat) by lia.
    destruct (lookup_lt_is_Some_2 _ _ Hia) as [x Hx].
    destruct (lookup_lt_is_Some_2 _ _ Hib) as [y Hy].
    rewrite Hx, Hy.
    assert (Hout : ~ in_slot (jumps A) idx).
    { intros (o & t & Ho & Hin).
      destruct (Z.eq_dec o idx) as [->|Hne]; [congruence|].
      specialize (Hbnd o t Ho). lia. }
    destruct (Z.eqb_spec x y) as [->|Hne].
    + assert (Hnext : boundary (jumps A) (idx + 1)).
      { intros o t Ho Hlt'.
        destruct (Z.eq_dec o idx) as [->|Hne]; [congruence|].
        specialize (Hbnd o t Ho). unfold pointer_size in *. lia. }
      destruct (IH (idx + 1)) as [Htot Hiff]; [lia | exact Hnext | lia |].
      split; [exact Htot|]. rewrite Hiff.
      split.
      * intros (Hb & Hs & Hl). split; [|split].
        -- intros i u v Hi Hns Hu Hv.
           destruct (Z.eq_dec i idx) as [->|Hne']; [congruence|].
           apply (Hb i); [lia | assumption..].
        -- intros o Ho Hsome.
           destruct (Z.eq_dec o idx) as [->|Hne'];
             [destruct Hsome; congruence|].
           apply Hs; [lia | exact Hsome].
        -- intros o ua ub Ho Hua.
           destruct (Z.eq_dec o idx) as [->|Hne']; [congruence|].
           apply Hl; [lia | exact Hua].
      * intros (Hb & Hs & Hl). split; [|split].
        -- intros i u v Hi. apply Hb. lia.
        -- intros o Ho. apply Hs. lia.
        -- intros o ua ub Ho. apply Hl. lia.
    + split; [eauto|]. split; [discriminate|].
      intros (Hb & _). exfalso. apply Hne.
      apply (Hb idx); [lia | assumption..].
Qed.

End Scan.

Lemma block_eq_correct h rank :
  arena_wf h rank ->
  forall n a b,
    (a < length h)%nat -> (b < length h)%nat -> (rank a < n)%nat ->
    (exists r, block_eq n h a b = Some r) /\
    (block_eq n h a b = Some (inr true) <-> block_equal_left h a b).
Proof.
  intros Hwf. induction n as [|n IH]; intros a b Ha Hb Hn; [lia|].
  simpl. destruct (decide (a = b)) as [->|Hab].
  { split; [eauto|]. split; [intros _; constructor | reflexivity]. }
  destruct (lookup_lt_is_Some_2 _ _ Ha) as [A HA].
  destruct (lookup_lt_is_Some_2 _ _ Hb) as [B HB].
  rewrite HA, HB.
  destruct (Hwf a A HA) as [HslA HlinkA].
  destruct (Hwf b B HB) as [_ HlinkB].
  destruct (buff A) as [ba|] eqn:HbA.
  2:{ split; [eauto|]. split; [discriminate|].
      intros H. inversion H; subst; [contradiction|]. congruence. }
  destruct (buff B) as [bb|] eqn:HbB.
  2:{ split; [eauto|]. split; [discriminate|].
      intros H. inversion H; subst; [contradiction|]. congruence. }
  destruct (Nat.eqb_spec (length ba) (length bb)) as [Hlen|Hlen]; simpl.
  2:{ split; [eauto|]. split; [discriminate|].
      intros H. inversion H; subst; [contradiction|]. congruence. }
  destruct (eq_scan_correct h (block_eq n h) A B ba bb HslA Hlen)
    with (n := length ba) (idx := 0) as [Htot Hiff].
  - intros o ta tb Hta Htb.
    destruct (HlinkA o ta Hta), (HlinkB o tb Htb).
    apply IH; lia.
  - intros o ta tb Hta Htb.
    destruct (HlinkA o ta Hta), (HlinkB o tb Htb).
    apply IH; lia.
  - lia.
  - intros o t Ho Hneg. destruct (HslA o t Ho). lia.
  - lia.
  - split; [exact Htot|]. rewrite Hiff. split.
    + intros (Hbytes & Hs & Hl).
      eapply left_struct; eassumption.
    + intros H. inversion H as [|a' b' A' B' ba' bb' HA' HB' HbA' HbB' _ Hbytes Hs Hl];
        subst; [contradiction|].
      rewrite HA in HA'. injection HA' as <-.
      rewrite HB in HB'. injection HB' as <-.
      rewrite HbA in HbA'. injection HbA' as <-.
      rewrite HbB in HbB'. injection HbB' as <-.
      split; [|split].
      * intros i x y Hi. apply Hbytes. exact Hi.
      * intros o Ho. apply Hs. lia.
      * intros o ta tb Ho. apply Hl. lia.
Qed.

(** C4 does not hold of the code.  Of two blocks holding the same four
    zero bytes, the first as plain content and the second as a placeholder
    linked to a third block, the first equals the second: the scan looks
    for placeholder slots in the jump map of the left operand only and
    compares the slot of the right operand as ordinary bytes.  By the claim
    the two are not equal, one having a jump edge where the other has none;
    compared the other way round, they are indeed unequal. *)
Lemma unlinked_equals_linked :
  block_eq 2 unlinked_vs_linked 0 1 = Some (inr true) /\
  block_eq 2 unlinked_vs_linked 1 0 = Some (inr false) /\
  ~ block_equal_spec unlinked_vs_linked 0 1.
Proof.
  split; [reflexivity|]. split; [reflexivity|].
  intros H.
  inversion H as [a b A B ba bb HA HB HbA HbB Hlen Hbytes Hs Hl]; subst.
  simpl in HA, HB. injection HA as <-. injection HB as <-.
  simpl in HbA. injection HbA as <-.
  destruct (Hs 0) as [_ Hback]; [simpl; lia|].
  destruct Hback as [t Ht]; [eexists; apply lookup_singleton_eq|].
  simpl in Ht. rewrite lookup_empty in Ht. discriminate.
Qed.

(** What [__eq__] computes.  In an arena whose blocks record
    non-overlapping slots and whose jump edges form no cycle, [a == b]
    returns, and it returns true exactly when [a] and [b] are the same
    block, or their content lengths match, every byte outside the
    placeholder slots recorded in the jump map of [a] matches position by
    position, and at every such slot [b] records a slot too whose linked
    block is equal in turn.  A block always equals itself; the bytes inside
    the slots of the left operand are never looked at. *)
Theorem block_eq_left_driven (h : list EngineBlock) (rank : nat -> nat)
        (fuel a b : nat) :
  arena_wf h rank -> (a < length h)%nat -> (b < length h)%nat ->
  (rank a < fuel)%nat ->
  block_eq fuel h a a = Some (inr true) /\
  (exists r, block_eq fuel h a b = Some r) /\
  (block_eq fuel h a b = Some (inr true) <-> block_equal_left h a b).
Proof.
  intros Hwf Ha Hb Hfuel. split.
  - destruct fuel as [|fuel]; [lia | apply block_eq_same].
  - eapply block_eq_correct; eassumption.
Qed.

Lemma similar_blocks_wf : arena_wf similar_blocks (fun a => (3 - a)%nat).
Proof.
  intros a A HA.
  destruct a as [|[|[|a]]]; simpl in HA; try discriminate;
    injection HA as <-; simpl; split.
  - intros o1 t1 H1. apply lookup_singleton_Some in H1 as [<- <-].
    split; [lia|]. intros o2 t2 H2.
    apply lookup_singleton_Some in H2 as [<- <-]. lia.
  - intros o t H. apply lookup_singleton_Some in H as [<- <-]. lia.
  - intros o1 t1 H1. apply lookup_singleton_Some in H1 as [<- <-].
    split; [lia|]. intros o2 t2 H2.
    apply lookup_singleton_Some in H2 as [<- <-]. lia.
  - intros o t H. apply lookup_singleton_Some in H as [<- <-]. lia.
  - intros o1 t1 H1. rewrite lookup_empty in H1. discriminate.
  - intros o t H. rewrite lookup_empty in H. discriminate.
Defined.

Lemma block_eq_left_driven_witness :
  arena_wf similar_blocks (fun a => (3 - a)%nat) /\
  (0 < length similar_blocks)%nat /\ (1 < length similar_blocks)%nat /\
  (3 - 0 < 4)%nat /\
  block_eq 4 similar_blocks 0 0 = Some (inr true) /\
  (exists r, block_eq 4 similar_blocks 0 1 = Some r) /\
  (block_eq 4 similar_blocks 0 1 = Some (inr true)
   <-> block_equal_left similar_blocks 0 1).
Proof.
  assert (H0 : (0 < length similar_blocks)%nat) by (simpl; lia).
  assert (H1 : (1 < length similar_blocks)%nat) by (simpl; lia).
  assert (H2 : (3 - 0 < 4)%nat) by lia.
  split; [exact similar_blocks_wf|]. split; [exact H0|]. split; [exact H1|].
  split; [exact H2|].
  exact (block_eq_left_driven similar_blocks (fun a => (3 - a)%nat) 4 0 1
           similar_blocks_wf H0 H1 H2).
Defined.

(** The two blocks of [similar_blocks] differ in every byte of their slot
    and are equal. *)
Lemma similar_blocks_equal :
  block_eq 4 similar_blocks 0 1 = Some (inr true) /\
  block_equal_left similar_blocks 0 1.
Proof.
  assert (H : block_eq 4 similar_blocks 0 1 = Some (inr true)) by reflexivity.
  split; [exact H|].
  apply (block_eq_correct similar_blocks _ similar_blocks_wf 4 0 1);
    [simpl; lia | simpl; lia | simpl; lia | exact H].
Qed.

(** ** More on [write_value] *)

Lemma byte_testbit value i j :
  0 <= j ->
  Z.testbit (Z.land (Z.shiftr value (Z.of_nat i * 8)) 255) j
  = (Z.testbit value (Z.of_nat i * 8 + j) && (j <? 8))%bool.
Proof.
  intros Hj. rewrite Z.land_spec, Z.shiftr_spec by exact Hj.
  rewrite (Z.add_comm j). f_equal.
  change 255 with (Z.ones 8).
  destruct (Z.ltb_spec j 8).
  - apply Z.ones_spec_low. lia.
  - apply Z.ones_spec_high. lia.
Qed.

Lemma value_bytes_nth value size i :
  (i < Z.to_nat size)%nat ->
  value_bytes value size !! i
  = Some (Z.land (Z.shiftr value (Z.of_nat i * 8)) 255).
Proof.
  intros Hi. unfold value_bytes.
  rewrite list_lookup_fmap, lookup_seq_lt by exact Hi. reflexivity.
Qed.

(** Every byte written is a code point between 0 and 255, and two values
    are written as the same [size] bytes exactly when they agree modulo
    [2^(8*size)]. *)
Theorem value_bytes_modulo (v w size : Z) :
  0 <= size ->
  (forall b, b ∈ value_bytes v size -> 0 <= b < 256) /\
  (value_bytes v size = value_bytes w size
   <-> v mod 2 ^ (8 * size) = w mod 2 ^ (8 * size)).
Proof.
  intros Hs. split.
  - intros b Hb. unfold value_bytes in Hb.
    apply list_elem_of_fmap in Hb as (i & -> & _).
    change 255 with (Z.ones 8). rewrite Z.land_ones by lia.
    apply Z.mod_pos_bound. lia.
  - split.
    + intros Heq. apply Z.bits_inj'. intros n Hn.
      destruct (Z.ltb_spec n (8 * size)) as [Hlt|Hge].
      2:{ rewrite !Z.mod_pow2_bits_high by lia. reflexivity. }
      rewrite !Z.mod_pow2_bits_low by lia.
      set (i := Z.to_nat (n / 8)).
      assert (Hi : (i < Z.to_nat size)%nat).
      { subst i. apply Z2Nat.inj_lt; [apply Z.div_pos; lia | lia |].
        apply Z.div_lt_upper_bound; lia. }
      pose proof (value_bytes_nth v size i Hi) as Hv.
      pose proof (value_bytes_nth w size i Hi) as Hw.
      rewrite Heq, Hw in Hv. injection Hv as Hv.
      apply (f_equal (fun z => Z.testbit z (n mod 8))) in Hv.
      pose proof (Z.mod_pos_bound n 8 ltac:(lia)) as Hm.
      rewrite !byte_testbit in Hv by lia.
      assert (Hn8 : Z.of_nat i * 8 + n mod 8 = n).
      { subst i. rewrite Z2Nat.id by (apply Z.div_pos; lia).
        pose proof (Z.div_mod n 8 ltac:(lia)). lia. }
      rewrite Hn8 in Hv.
      destruct (Z.ltb_spec (n mod 8) 8); [|lia].
      rewrite !andb_true_r in Hv. congruence.
    + intros Heq. apply list_eq. intros i.
      destruct (Nat.lt_ge_cases i (Z.to_nat size)) as [Hi|Hi].
      2:{ rewrite !(proj2 (lookup_ge_None _ _));
            [reflexivity | rewrite value_bytes_length; lia..]. }
      rewrite !value_bytes_nth by exact Hi. f_equal.
      apply Z.bits_inj'. intros j Hj. rewrite !byte_testbit by exact Hj.
      destruct (Z.ltb_spec j 8); [|rewrite !andb_false_r; reflexivity].
      rewrite !andb_true_r.
      apply (f_equal (fun z => Z.testbit z (Z.of_nat i * 8 + j))) in Heq.
      rewrite !Z.mod_pow2_bits_low in Heq by lia. exact Heq.
Qed.

Lemma value_bytes_modulo_witness :
  0 <= 1 /\
  (forall b, b ∈ value_bytes 258 1 -> 0 <= b < 256) /\
  (value_bytes 258 1 = value_bytes 2 1
   <-> 258 mod 2 ^ (8 * 1) = 2 mod 2 ^ (8 * 1)).
Proof. split; [lia | apply (value_bytes_modulo 258 2 1); lia]. Defined.

(** Writing a value in [a + b] bytes is writing its [a] low bytes and then
    the [b] low bytes of the value shifted right by [a] bytes. *)
Theorem write_value_split (value a b : Z) (e : Engine) :
  0 <= a -> 0 <= b ->
  write_value value (a + b) e
  = (write_value value a ;;; write_value (Z.shiftr value (8 * a)) b) e.
Proof.
  intros Ha Hb. unfold write_value, write, bind, modify. simpl.
  f_equal. unfold set_buffer. simpl. rewrite <- app_assoc. do 2 f_equal.
  unfold value_bytes.
  rewrite Z2Nat.inj_add, seq_app, fmap_app by lia. f_equal. simpl.
  replace (seq (Z.to_nat a) (Z.to_nat b))
    with (Nat.add (Z.to_nat a) <$> seq 0 (Z.to_nat b))
    by (rewrite fmap_add_seq, Nat.add_0_r; reflexivity).
  rewrite <- list_fmap_compose.
  apply list_fmap_ext. intros _ i _. simpl.
  rewrite Z.shiftr_shiftr by lia. do 2 f_equal. lia.
Qed.

Lemma write_value_split_witness :
  0 <= 1 /\ 0 <= 2 /\
  write_value 66051 (1 + 2) Engine_init
  = (write_value 66051 1 ;;; write_value (Z.shiftr 66051 (8 * 1)) 2) Engine_init.
Proof.
  split; [lia|]. split; [lia|].
  apply (write_value_split 66051 1 2 Engine_init); lia.
Defined.

(** ** [push] followed by [pop] *)

(** Opening a nested block and closing it again restores the buffer, the
    stacks and the current block; the content written so far is kept in
    the current block, the entries of [state_blocks] are kept and the
    nested context now has one. *)
Theorem push_pop_roundtrip (st : token) (e : Engine) (c : nat) :
  current_block e = Some c ->
  (c < length (blocks e))%nat ->
  state_blocks e !! (path_stack e ++ [st]) <> Some c ->
  exists e',
    (push st ;;; pop) e = Ok tt e' /\
    buffer e' = buffer e /\ stack e' = stack e /\
    path_stack e' = path_stack e /\ current_block e' = Some c /\
    blocks e' !! c ≫= buff = Some (buffer e) /\
    (forall key v, state_blocks e !! key = Some v ->
                   state_blocks e' !! key = Some v) /\
    is_Some (state_blocks e' !! (path_stack e ++ [st])).
Proof.
  intros Hcur Hc Hne.
  destruct (lookup_lt_is_Some_2 _ _ Hc) as [C HC].
  unfold bind. rewrite (push_spec st e c Hcur).
  destruct (state_blocks e !! (path_stack e ++ [st])) as [b|] eqn:Hkey; simpl.
  - assert (Hbc : b <> c) by congruence.
    erewrite pop_spec with (b := b) (s := stack e) (c := c)
                           (K := path_stack e) (t := st)
                           (content := buffer e); try reflexivity.
    + eexists. split; [reflexivity|]. simpl.
      repeat (split; [reflexivity|]).
      rewrite list_lookup_alter_ne by auto.
      rewrite list_lookup_alter_eq, HC. simpl.
      split; [reflexivity|]. split; [auto | eauto].
    + simpl. rewrite list_lookup_alter_ne by auto.
      rewrite list_lookup_alter_eq, HC. reflexivity.
  - assert (Hbc : length (blocks e) <> c) by lia.
    erewrite pop_spec with (b := length (blocks e)) (s := stack e) (c := c)
                           (K := path_stack e) (t := st)
                           (content := buffer e); try reflexivity.
    + eexists. split; [reflexivity|]. simpl.
      repeat (split; [reflexivity|]).
      rewrite list_lookup_alter_ne by auto.
      rewrite lookup_app_l by (rewrite length_alter; exact Hc).
      rewrite list_lookup_alter_eq, HC. simpl.
      split; [reflexivity|]. split.
      * intros key v Hv. rewrite lookup_insert_ne; [exact Hv | congruence].
      * rewrite lookup_insert_eq. eauto.
    + simpl. rewrite list_lookup_alter_ne by auto.
      rewrite lookup_app_l by (rewrite length_alter; exact Hc).
      rewrite list_lookup_alter_eq, HC. reflexivity.
Qed.

Lemma push_pop_roundtrip_witness :
  let e := set_buffer [1; 2; 3]
             (set_current_block (Some 0%nat)
                (set_blocks [new_block] Engine_init)) in
  current_block e = Some 0%nat /\
  (0 < length (blocks e))%nat /\
  state_blocks e !! (path_stack e ++ [TBool true]) <> Some 0%nat /\
  exists e',
    (push (TBool true) ;;; pop) e = Ok tt e' /\
    buffer e' = buffer e /\ stack e' = stack e /\
    path_stack e' = path_stack e /\ current_block e' = Some 0%nat /\
    blocks e' !! 0%nat ≫= buff = Some (buffer e) /\
    (forall key v, state_blocks e !! key = Some v ->
                   state_blocks e' !! key = Some v) /\
    is_Some (state_blocks e' !! (path_stack e ++ [TBool true])).
Proof.
  intros e.
  assert (H1 : current_block e = Some 0%nat) by reflexivity.
  assert (H2 : (0 < length (blocks e))%nat) by (simpl; lia).
  assert (H3 : state_blocks e !! (path_stack e ++ [TBool true]) <> Some 0%nat)
    by (simpl; rewrite lookup_empty; discriminate).
  split; [exact H1|]. split; [exact H2|]. split; [exact H3|].
  exact (push_pop_roundtrip (TBool true) e 0%nat H1 H2 H3).
Defined.

(** ** Unwinding the stack *)

Lemma closed_in_alter h r c s :
  closed_in h r -> closed_in (alter (set_buff s) c h) r.
Proof.
  intros (B & s' & HB & Hs).
  destruct (decide (r = c)) as [->|Hne].
  - exists (set_buff s B), s.
    rewrite list_lookup_alter_eq, HB. split; reflexivity.
  - exists B, s'. rewrite list_lookup_alter_ne by auto. split; assumption.
Qed.

Lemma pop_all_unwinds : forall n e c,
  length (stack e) = n ->
  current_block e = Some c ->
  (length (stack e) <= length (path_stack e))%nat ->
  Forall (closed_in (blocks e)) (stack e) ->
  exists e',
    pop_all n e = Ok tt e' /\
    stack e' = [] /\
    path_stack e'
    = take (length (path_stack e) - length (stack e)) (path_stack e) /\
    current_block e' = Some (hd c (stack e)) /\
    state_blocks e' = state_blocks e /\
    length (blocks e') = length (blocks e) /\
    state e' = state e /\ paths e' = paths e.
Proof.
  induction n as [|n IH]; intros e c Hn Hcur Hlen Hcl.
  - apply nil_length_inv in Hn. exists e. simpl. rewrite Hn. simpl.
    rewrite Nat.sub_0_r, take_ge by lia. repeat split; auto.
  - destruct (stack e) as [|x s0] eqn:Hstack using rev_ind; [discriminate|].
    clear IHs0. rewrite length_app in Hn, Hlen. simpl in Hn, Hlen.
    destruct (path_stack e) as [|t K] eqn:Hps using rev_ind;
      [simpl in Hlen; lia|].
    clear IHK. rewrite length_app in Hlen. simpl in Hlen.
    apply Forall_app in Hcl as [Hcl0 Hclx].
    apply (proj1 (Forall_singleton _ _)) in Hclx.
    destruct (closed_in_alter _ _ c (buffer e) Hclx) as (B & content & HB & Hcontent).
    assert (Hpop : pop e
                   = Ok tt (set_buffer content
                              (set_current_block (Some x)
                                 (set_path_stack K
                                    (set_stack s0
                                       (set_blocks
                                          (alter (set_buff (buffer e)) c (blocks e)) e)))))).
    { apply (pop_spec e c s0 x K t content); auto.
      rewrite HB. exact Hcontent. }
    destruct (IH (set_buffer content
                    (set_current_block (Some x)
                       (set_path_stack K
                          (set_stack s0
                             (set_blocks
                                (alter (set_buff (buffer e)) c (blocks e)) e)))))
                 x) as (e' & Hrest & Hs & Hp & Hc & Hsb & Hbl & Hst & Hpa);
      simpl; try lia; try reflexivity.
    { eapply Forall_impl; [exact Hcl0|]. intros r. apply closed_in_alter. }
    simpl in Hp, Hc, Hsb, Hbl, Hst, Hpa. rewrite length_alter in Hbl.
    exists e'. split.
    { simpl. rewrite Hstack.
      destruct (s0 ++ [x]) eqn:Hd; [destruct s0; discriminate|].
      unfold bind. rewrite Hpop. exact Hrest. }
    split; [exact Hs|]. split.
    { rewrite Hp, !length_app. simpl.
      replace (length K + 1 - (length s0 + 1))%nat
        with (length K - length s0)%nat by lia.
      rewrite take_app_le by lia. reflexivity. }
    split.
    { rewrite Hc. destruct s0; reflexivity. }
    repeat split; assumption.
Qed.

(** [while self.stack: self.pop()], started with a current block, a
    [path_stack] at least as long as [stack] and closed blocks on the
    stack, runs to the end: it empties [stack], removes as many entries
    from [path_stack], makes the bottom block of the stack current and
    neither adds nor removes a block or an entry of [state_blocks]. *)
Theorem unwind_empties_stack (e : Engine) (c : nat) :
  current_block e = Some c ->
  (length (stack e) <= length (path_stack e))%nat ->
  Forall (closed_in (blocks e)) (stack e) ->
  exists e',
    unwind e = Ok tt e' /\
    stack e' = [] /\
    path_stack e'
    = take (length (path_stack e) - length (stack e)) (path_stack e) /\
    current_block e' = Some (hd c (stack e)) /\
    state_blocks e' = state_blocks e /\
    length (blocks e') = length (blocks e).
Proof.
  intros Hcur Hlen Hcl.
  destruct (pop_all_unwinds (length (stack e)) e c eq_refl Hcur Hlen Hcl)
    as (e' & H & Hs & Hp & Hc & Hsb & Hbl & _).
  exists e'. repeat split; assumption.
Qed.

Lemma unwind_empties_stack_witness :
  let e := set_stack [0%nat]
             (set_path_stack [TBool true]
                (set_current_block (Some 1%nat)
                   (set_blocks [set_buff [7] new_block; new_block] Engine_init))) in
  current_block e = Some 1%nat /\
  (length (stack e) <= length (path_stack e))%nat /\
  Forall (closed_in (blocks e)) (stack e) /\
  exists e',
    unwind e = Ok tt e' /\
    stack e' = [] /\
    path_stack e'
    = take (length (path_stack e) - length (stack e)) (path_stack e) /\
    current_block e' = Some (hd 1%nat (stack e)) /\
    state_blocks e' = state_blocks e /\
    length (blocks e') = length (blocks e).
Proof.
  intros e.
  assert (H1 : current_block e = Some 1%nat) by reflexivity.
  assert (H2 : (length (stack e) <= length (path_stack e))%nat) by (simpl; lia).
  assert (H3 : Forall (closed_in (blocks e)) (stack e)).
  { constructor; [|constructor].
    exists (set_buff [7] new_block), [7]. split; reflexivity. }
  split; [exact H1|]. split; [exact H2|]. split; [exact H3|].
  exact (unwind_empties_stack e 1%nat H1 H2 H3).
Defined.

(** ** [branch] in the compile phase *)

(** In the compile phase a [branch] that has a recorded decision [d]
    appends two zeroed placeholder slots to the current block and closes
    it, opens the block of the context extended with [d] (the one already
    stored under that context, else a new one) with an empty buffer, and
    links only the slot of [d]: offset [tell] for true, [tell + 4] for
    false. *)
Theorem branch_compiling (condition : val) (e : Engine) (cur : nat) (d : bool) :
  state e = STATE_COMPILING ->
  current_block e = Some cur ->
  (cur < length (blocks e))%nat ->
  current_path e !! branch_id e = Some d ->
  exists e' b C,
    branch condition e = Ok d e' /\
    branch_id e' = S (branch_id e) /\ paths e' = paths e /\
    buffer e' = [] /\
    stack e' = stack e ++ [cur] /\
    path_stack e' = path_stack e ++ [TBool d] /\
    current_block e' = Some b /\
    state_blocks e' !! (path_stack e ++ [TBool d]) = Some b /\
    (state_blocks e !! (path_stack e ++ [TBool d]) = Some b /\
     state_blocks e' = state_blocks e /\
     length (blocks e') = length (blocks e)
     \/
     state_blocks e !! (path_stack e ++ [TBool d]) = None /\
     b = length (blocks e) /\
     blocks e' !! b = Some new_block /\
     length (blocks e') = S (length (blocks e))) /\
    blocks e !! cur = Some C /\
    blocks e' !! cur
    = Some (set_jump (Z.of_nat (length (buffer e))
                      + (if d then 0 else pointer_size)) b
              (set_buff (buffer e ++ value_bytes 0 pointer_size
                                  ++ value_bytes 0 pointer_size) C)).
Proof.
  intros Hst Hcur Hc Hd.
  destruct (lookup_lt_is_Some_2 _ _ Hc) as [C HC].
  set (zeros := value_bytes 0 pointer_size).
  set (ew := set_buffer ((buffer e ++ zeros) ++ zeros)
               (set_branch_id (S (branch_id e)) e)).
  assert (Hbr : branch condition e
                = match push (TBool d) ew with
                  | Ok _ ep =>
                      match the_current_block ep with
                      | Ok b eq =>
                          match store_jump (Some cur)
                                  (if d then Z.of_nat (length (buffer e))
                                   else Z.of_nat (length (buffer e ++ zeros)))
                                  b eq with
                          | Ok _ e' => Ok d e'
                          | Err x e' => Err x e'
                          end
                      | Err x eq => Err x eq
                      end
                  | Err x ep => Err x ep
                  end).
  { unfold branch. rewrite Hd. unfold bind.
    rewrite compiling_true by exact Hst.
    unfold gets, write_branch, bind, tell, gets, write_value, write, modify, ret.
    simpl. rewrite Hcur. fold zeros.
    change (set_buffer ((buffer e ++ zeros) ++ zeros)
              (set_buffer (buffer e ++ zeros)
                 (set_branch_id (S (branch_id e)) e))) with ew.
    destruct (push (TBool d) ew) as [[] ep|x ep]; [|reflexivity].
    destruct (the_current_block ep) as [b eq|x eq]; [|reflexivity].
    destruct d; reflexivity. }
  rewrite Hbr. rewrite (push_spec (TBool d) ew cur Hcur).
  assert (Hofs : (if d then Z.of_nat (length (buffer e))
                  else Z.of_nat (length (buffer e ++ zeros)))
                 = Z.of_nat (length (buffer e))
                   + (if d then 0 else pointer_size)).
  { destruct d; [lia|]. subst zeros.
    rewrite length_app, value_bytes_length. unfold pointer_size. lia. }
  rewrite Hofs. simpl. rewrite <- (app_assoc (buffer e)).
  destruct (state_blocks e !! (path_stack e ++ [TBool d])) as [b|] eqn:Hkey;
    simpl.
  - eexists _, b, C. split; [reflexivity|]. simpl.
    repeat (split; [reflexivity|]).
    split; [exact Hkey|].
    split; [left; rewrite !length_alter; auto|].
    split; [exact HC|].
    rewrite !list_lookup_alter_eq, HC. reflexivity.
  - eexists _, (length (blocks e)), C. split; [reflexivity|]. simpl.
    repeat (split; [reflexivity|]).
    split; [apply lookup_insert_eq|].
    split.
    { right. split; [reflexivity|]. split; [reflexivity|].
      rewrite length_alter, length_app, length_alter. simpl.
      split; [|lia].
      rewrite list_lookup_alter_ne by lia.
      rewrite lookup_app_r by (rewrite length_alter; lia).
      rewrite length_alter, Nat.sub_diag. reflexivity. }
    split; [exact HC|].
    rewrite list_lookup_alter_eq.
    rewrite lookup_app_l by (rewrite length_alter; exact Hc).
    rewrite list_lookup_alter_eq, HC. reflexivity.
Qed.

Lemma branch_compiling_witness :
  let e := set_state STATE_COMPILING
             (set_current_path [false]
                (set_current_block (Some 0%nat)
                   (set_blocks [new_block] Engine_init))) in
  state e = STATE_COMPILING /\
  current_block e = Some 0%nat /\
  (0 < length (blocks e))%nat /\
  current_path e !! branch_id e = Some false /\
  exists e' b C,
    branch 5 e = Ok false e' /\
    branch_id e' = S (branch_id e) /\ paths e' = paths e /\
    buffer e' = [] /\
    stack e' = stack e ++ [0%nat] /\
    path_stack e' = path_stack e ++ [TBool false] /\
    current_block e' = Some b /\
    state_blocks e' !! (path_stack e ++ [TBool false]) = Some b /\
    (state_blocks e !! (path_stack e ++ [TBool false]) = Some b /\
     state_blocks e' = state_blocks e /\
     length (blocks e') = length (blocks e)
     \/
     state_blocks e !! (path_stack e ++ [TBool false]) = None /\
     b = length (blocks e) /\
     blocks e' !! b = Some new_block /\
     length (blocks e') = S (length (blocks e))) /\
    blocks e !! 0%nat = Some C /\
    blocks e' !! 0%nat
    = Some (set_jump (Z.of_nat (length (buffer e))
                      + (if false then 0 else pointer_size)) b
              (set_buff (buffer e ++ value_bytes 0 pointer_size
                                  ++ value_bytes 0 pointer_size) C)).
Proof.
  intros e.
  assert (H1 : state e = STATE_COMPILING) by reflexivity.
  assert (H2 : current_block e = Some 0%nat) by reflexivity.
  assert (H3 : (0 < length (blocks e))%nat) by (simpl; lia).
  assert (H4 : current_path e !! branch_id e = Some false) by reflexivity.
  split; [exact H1|]. split; [exact H2|]. split; [exact H3|].
  split; [exact H4|].
  exact (branch_compiling 5 e 0%nat false H1 H2 H3 H4).
Defined.

(** ** What the engine never undoes *)

Lemma block_grows_refl B : block_grows B B.
Proof. repeat split; auto. Qed.

Lemma block_grows_trans B1 B2 B3 :
  block_grows B1 B2 -> block_grows B2 B3 -> block_grows B1 B3.
Proof.
  intros (H1 & H2 & H3) (H4 & H5 & H6). repeat split; auto. congruence.
Qed.

Lemma grows_refl e : grows e e.
Proof.
  repeat split; auto. intros r B HB. exists B.
  split; [exact HB | apply block_grows_refl].
Qed.

Lemma grows_trans e1 e2 e3 : grows e1 e2 -> grows e2 e3 -> grows e1 e3.
Proof.
  intros (S1 & I1 & C1 & P1 & K1 & B1) (S2 & I2 & C2 & P2 & K2 & B2).
  split; [congruence|]. split; [congruence|]. split; [congruence|].
  split; [etransitivity; eassumption|]. split; [auto|].
  intros r B HB. destruct (B1 r B HB) as (B' & HB' & G1).
  destruct (B2 r B' HB') as (B'' & HB'' & G2).
  exists B''. split; [exact HB'' | eapply block_grows_trans; eassumption].
Qed.

Lemma mgrows_bind {A B} (m : M A) (k : A -> M B) :
  mgrows m -> (forall a, mgrows (k a)) -> mgrows (bind m k).
Proof.
  intros Hm Hk e. unfold bind. specialize (Hm e).
  destruct (m e) as [a e'|x e']; simpl in *; [|exact Hm].
  eapply grows_trans; [exact Hm | apply Hk].
Qed.

Lemma mgrows_ret {A} (a : A) : mgrows (ret a).
Proof. intros e. apply grows_refl. Qed.

Lemma mgrows_raise {A} x : mgrows (@raise A x).
Proof. intros e. apply grows_refl. Qed.

Lemma mgrows_gets {A} (f : Engine -> A) : mgrows (gets f).
Proof. intros e. apply grows_refl. Qed.

Lemma mgrows_modify f : (forall e, grows e (f e)) -> mgrows (modify f).
Proof. intros H e. apply H. Qed.

Lemma grows_alter e (g : EngineBlock -> EngineBlock) r :
  (forall B, block_grows B (g B)) ->
  grows e (set_blocks (alter g r (blocks e)) e).
Proof.
  intros Hg. repeat split; simpl; auto.
  intros r' B HB. destruct (decide (r' = r)) as [->|Hne].
  - exists (g B). rewrite list_lookup_alter_eq, HB. split; [reflexivity | apply Hg].
  - exists B. rewrite list_lookup_alter_ne by auto.
    split; [exact HB | apply block_grows_refl].
Qed.

Lemma set_buff_grows s B : block_grows B (set_buff s B).
Proof. repeat split; simpl; eauto. Qed.

Lemma set_jump_grows o t B : block_grows B (set_jump o t B).
Proof.
  repeat split; simpl; auto. intros o' Ho'.
  rewrite lookup_insert. case_decide; [eauto | exact Ho'].
Qed.

Lemma mgrows_write s : mgrows (write s).
Proof. apply mgrows_modify. intros e. repeat split; simpl; auto.
  intros r B HB. exists B. split; [exact HB | apply block_grows_refl]. Qed.

Lemma mgrows_reset : mgrows reset.
Proof. apply mgrows_modify. intros e. repeat split; simpl; auto.
  intros r B HB. exists B. split; [exact HB | apply block_grows_refl]. Qed.

Lemma mgrows_store_buff r : mgrows (store_buff r).
Proof.
  apply mgrows_modify. intros e. apply grows_alter. intros B.
  apply set_buff_grows.
Qed.

Lemma mgrows_store_jump b o t : mgrows (store_jump b o t).
Proof.
  destruct b as [r|]; simpl; [|apply mgrows_raise].
  apply mgrows_modify. intros e. apply grows_alter. intros B.
  apply set_jump_grows.
Qed.

Lemma mgrows_the_current_block : mgrows the_current_block.
Proof.
  intros e. unfold the_current_block.
  destruct (current_block e); apply grows_refl.
Qed.

Lemma mgrows_push st : mgrows (push st).
Proof.
  unfold push.
  apply mgrows_bind; [apply mgrows_the_current_block|]. intros block.
  apply mgrows_bind; [apply mgrows_store_buff|]. intros _.
  apply mgrows_bind; [apply mgrows_reset|]. intros _.
  apply mgrows_bind.
  { apply mgrows_modify. intros e. repeat split; simpl; auto.
    intros r B HB. exists B. split; [exact HB | apply block_grows_refl]. }
  intros _. apply mgrows_bind.
  { apply mgrows_modify. intros e. repeat split; simpl; auto.
    intros r B HB. exists B. split; [exact HB | apply block_grows_refl]. }
  intros _ e.
  destruct (state_blocks e !! path_stack e) as [r|] eqn:Hkey; simpl.
  - repeat split; simpl; auto.
    intros r' B HB. exists B. split; [exact HB | apply block_grows_refl].
  - repeat split; simpl; auto.
    + intros key v Hv. rewrite lookup_insert_ne; [exact Hv | congruence].
    + intros r' B HB. exists B.
      split; [apply lookup_app_l_Some; exact HB | apply block_grows_refl].
Qed.

Lemma mgrows_pop : mgrows pop.
Proof.
  unfold pop.
  apply mgrows_bind; [apply mgrows_the_current_block|]. intros cur.
  apply mgrows_bind; [apply mgrows_store_buff|]. intros _.
  apply mgrows_bind.
  { intros e. destruct (list_pop (stack e)) as [[s b]|]; simpl;
      [|apply grows_refl].
    repeat split; simpl; auto.
    intros r B HB. exists B. split; [exact HB | apply block_grows_refl]. }
  intros block. apply mgrows_bind.
  { intros e. destruct (list_pop (path_stack e)) as [[s b]|]; simpl;
      [|apply grows_refl].
    repeat split; simpl; auto.
    intros r B HB. exists B. split; [exact HB | apply block_grows_refl]. }
  intros _. apply mgrows_bind.
  { apply mgrows_modify. intros e. repeat split; simpl; auto.
    intros r B HB. exists B. split; [exact HB | apply block_grows_refl]. }
  intros _. apply mgrows_bind; [apply mgrows_reset|]. intros _ e.
  destruct (blocks e !! block ≫= buff); [apply mgrows_write | apply grows_refl].
Qed.

Lemma mgrows_write_value v s : mgrows (write_value v s).
Proof. apply mgrows_write. Qed.

Lemma mgrows_unknown v s : mgrows (unknown v s).
Proof.
  unfold unknown. apply mgrows_bind; [apply mgrows_gets|].
  intros []; [apply mgrows_write_value | apply mgrows_ret].
Qed.

Lemma mgrows_branch c : mgrows (branch c).
Proof.
  intros e. unfold branch.
  destruct (current_path e !! branch_id e) as [d|]; simpl.
  - eapply grows_trans with (e2 := set_branch_id (S (branch_id e)) e).
    { repeat split; simpl; auto.
      intros r B HB. exists B. split; [exact HB | apply block_grows_refl]. }
    generalize (set_branch_id (S (branch_id e)) e).
    change (mgrows
              (c0 <- compiling ;;
               (if c0
                then
                  old_block <- gets current_block ;;
                  true_ofs <- write_branch true c ;;
                  false_ofs <- write_branch false c ;;
                  push (TBool d) ;;;
                  cur <- the_current_block ;;
                  (if d
                   then store_jump old_block true_ofs cur
                   else store_jump old_block false_ofs cur)
                else ret tt) ;;;
               ret d)).
    apply mgrows_bind; [apply mgrows_gets|]. intros c0.
    apply mgrows_bind; [|intros _; apply mgrows_ret].
    destruct c0; [|apply mgrows_ret].
    apply mgrows_bind; [apply mgrows_gets|]. intros old.
    assert (Hwb : forall b, mgrows (write_branch b c)).
    { intros b. unfold write_branch.
      apply mgrows_bind; [apply mgrows_gets|]. intros ofs.
      apply mgrows_bind; [apply mgrows_write_value|]. intros _.
      apply mgrows_ret. }
    apply mgrows_bind; [apply Hwb|]. intros tofs.
    apply mgrows_bind; [apply Hwb|]. intros fofs.
    apply mgrows_bind; [apply mgrows_push|]. intros _.
    apply mgrows_bind; [apply mgrows_the_current_block|]. intros cur.
    destruct d; apply mgrows_store_jump.
  - repeat split; simpl; auto.
    + apply prefix_app_r. reflexivity.
    + intros r B HB. exists B. split; [exact HB | apply block_grows_refl].
Qed.

Lemma mgrows_call f (body : M val) : mgrows body -> mgrows (call f body).
Proof.
  intros Hb. unfold call.
  apply mgrows_bind; [apply mgrows_gets|]. intros c.
  apply mgrows_bind.
  { destruct c; [|apply mgrows_ret].
    apply mgrows_bind; [apply mgrows_gets|]. intros block.
    apply mgrows_bind.
    { unfold write_jump.
      apply mgrows_bind; [apply mgrows_write_value|]. intros _.
      apply mgrows_bind; [apply mgrows_gets|]. intros pos. apply mgrows_ret. }
    intros ofs. apply mgrows_bind; [apply mgrows_push|]. intros _.
    apply mgrows_bind; [apply mgrows_the_current_block|]. intros cur.
    apply mgrows_store_jump. }
  intros _. apply mgrows_bind; [exact Hb|]. intros r.
  apply mgrows_bind; [apply mgrows_gets|]. intros c'.
  apply mgrows_bind; [|intros _; apply mgrows_ret].
  destruct c'; [|apply mgrows_ret].
  apply mgrows_bind; [apply mgrows_ret | intros _; apply mgrows_pop].
Qed.

(** Whatever the routine does and however its run ends, in either phase,
    the engine afterwards has the same run state, path and path number,
    has only extended [paths], has kept every entry of [state_blocks] and
    every block; a block that was closed is still closed, every offset
    with a jump still has one, and no [offset] field has changed. *)
Theorem exec_grows (p : prog) (e : Engine) : grows e (engine_of (exec p e)).
Proof.
  revert e. change (mgrows (exec p)).
  induction p as [v|c k IH|c k IH|f body IHb k IHk|v s k IH|v s k IH|c];
    simpl.
  - apply mgrows_ret.
  - apply (mgrows_bind (branch c) (fun b => exec (k b)));
      [apply mgrows_branch | exact IH].
  - apply (mgrows_bind (loop c) (fun b => exec (k b)));
      [apply mgrows_raise | exact IH].
  - apply (mgrows_bind (call f (exec body)) (fun v => exec (k v)));
      [apply mgrows_call; exact IHb | exact IHk].
  - apply (mgrows_bind (unknown v s) (fun _ => exec k));
      [apply mgrows_unknown | intros _; exact IH].
  - apply (mgrows_bind (write_value v s) (fun _ => exec k));
      [apply mgrows_write_value | intros _; exact IH].
  - apply mgrows_raise.
Qed.

(** ** Discovery, for any routine *)

Lemma find_loop_frame func : forall fuel e r,
  state e <> STATE_COMPILING ->
  find_loop fuel func e = Some r ->
  same_frame e (engine_of r) /\
  ((forall i, direct_free (func i)) -> buffer (engine_of r) = buffer e).
Proof.
  induction fuel as [|fuel IH]; intros e r Hst Hr.
  - simpl in Hr. destruct (path_id e <? length (paths e))%nat; [discriminate|].
    injection Hr as <-. split; [apply same_frame_refl | reflexivity].
  - destruct (paths e !! path_id e) as [[π m]|] eqn:Hlook.
    2:{ apply lookup_ge_None in Hlook.
        rewrite find_loop_done in Hr by exact Hlook.
        injection Hr as <-. split; [apply same_frame_refl | reflexivity]. }
    destruct (find_loop_step fuel func e π m Hst Hlook)
      as (e1 & Hf & Hbuf & Hres).
    assert (Hst1 : state e1 <> STATE_COMPILING)
      by (destruct Hf as [-> _]; exact Hst).
    destruct (dfeed (flatten (func (path_id e))) π) as [v rest| |x].
    + destruct Hres as (Hfl & _). rewrite Hfl in Hr.
      destruct (IH e1 r Hst1 Hr) as [Hf' Hbuf'].
      split; [eapply same_frame_trans; eassumption|].
      intros Hd. rewrite Hbuf', Hbuf by auto. reflexivity.
    + destruct Hres as (Hfl & _). rewrite Hfl in Hr.
      destruct (IH e1 r Hst1 Hr) as [Hf' Hbuf'].
      split; [eapply same_frame_trans; eassumption|].
      intros Hd. rewrite Hbuf', Hbuf by auto. reflexivity.
    + destruct Hres as (Hfl & _). rewrite Hfl in Hr. injection Hr as <-.
      split; [exact Hf | intros Hd; apply Hbuf, Hd].
Qed.

(** Whatever the routine, discovery leaves the run state, the blocks, the
    stacks, the current block and [state_blocks] as they were, whether it
    ends normally or with an exception; when no invocation of the routine
    calls [write_value] itself, the buffer is left as it was too. *)
Theorem discovery_leaves_engine (fuel : nat) (func : nat -> prog)
        (e : Engine) (r : result unit) :
  state e <> STATE_COMPILING ->
  _find_branches fuel func e = Some r ->
  same_frame e (engine_of r) /\
  ((forall i, direct_free (func i)) -> buffer (engine_of r) = buffer e).
Proof.
  intros Hst Hr. unfold _find_branches in Hr.
  destruct (find_loop fuel func _) as [[[] e1|x e1]|] eqn:Hfl;
    try discriminate; injection Hr as <-;
    destruct (find_loop_frame func fuel _ _
                (Hst : state (set_path_id 0 (set_paths [([], false)] e))
                       <> STATE_COMPILING) Hfl) as [Hf Hb];
    split; [exact Hf | exact Hb | exact Hf | exact Hb].
Qed.

Lemma discovery_leaves_engine_witness :
  exists r,
    state Engine_init <> STATE_COMPILING /\
    _find_branches 3 (fun _ => loop_after_branch) Engine_init = Some r /\
    same_frame Engine_init (engine_of r) /\
    ((forall i : nat, direct_free ((fun _ => loop_after_branch) i)) ->
     buffer (engine_of r) = buffer Engine_init).
Proof.
  assert (H1 : state Engine_init <> STATE_COMPILING) by discriminate.
  assert (H2 : _find_branches 3 (fun _ => loop_after_branch) Engine_init
               = Some (Err NotImplementedError
                         (set_paths [([], true); ([true], false); ([false], false)]
                            (set_current_path [true]
                               (set_branch_id 1 (set_path_id 1 Engine_init))))))
    by (vm_compute; reflexivity).
  eexists. split; [exact H1|]. split; [exact H2|].
  exact (discovery_leaves_engine 3 (fun _ => loop_after_branch) Engine_init
                                 _ H1 H2).
Defined.

Lemma prefix_snoc_inv {A} (p q : list A) (b : A) :
  p `prefix_of` q ++ [b] -> p = q ++ [b] \/ p `prefix_of` q.
Proof.
  intros [k Hk]. destruct k as [|x k _] using rev_ind.
  - left. rewrite app_nil_r in Hk. congruence.
  - right. rewrite app_assoc in Hk. apply app_inj_tail in Hk as [Hk _].
    exists k. exact Hk.
Qed.

Lemma marked_ancestors P pid :
  marked_parents P pid ->
  forall q m p, (q, m) ∈ P -> p `prefix_of` q -> p <> q -> (p, true) ∈ P.
Proof.
  intros Hpar q. induction q as [|b q IH] using rev_ind; intros m p Hin Hpre Hne.
  - apply prefix_nil_inv in Hpre. contradiction.
  - destruct (Hpar q b m Hin) as (j & _ & Hj).
    apply list_elem_of_lookup_2 in Hj.
    destruct (prefix_snoc_inv _ _ _ Hpre) as [->|Hpre']; [contradiction|].
    destruct (decide (p = q)) as [->|Hpq]; [exact Hj|].
    exact (IH true p Hj Hpre' Hpq).
Qed.

Lemma find_loop_ancestry func : forall fuel e e',
  state e <> STATE_COMPILING ->
  marked_parents (paths e) (path_id e) ->
  find_loop fuel func e = Some (Ok tt e') ->
  marked_parents (paths e') (path_id e').
Proof.
  induction fuel as [|fuel IH]; intros e e' Hst Hpar Hr.
  - simpl in Hr. destruct (path_id e <? length (paths e))%nat; [discriminate|].
    injection Hr as <-. exact Hpar.
  - destruct (paths e !! path_id e) as [[π m]|] eqn:Hlook.
    2:{ apply lookup_ge_None in Hlook.
        rewrite find_loop_done in Hr by exact Hlook.
        injection Hr as <-. exact Hpar. }
    assert (Hlt : (path_id e < length (paths e))%nat)
      by (eapply lookup_lt_Some; exact Hlook).
    destruct (find_loop_step fuel func e π m Hst Hlook)
      as (e1 & Hf & _ & Hres).
    assert (Hst1 : state e1 <> STATE_COMPILING)
      by (destruct Hf as [-> _]; exact Hst).
    destruct (dfeed (flatten (func (path_id e))) π) as [v rest| |x].
    + destruct Hres as (Hfl & Hp & Hpid). rewrite Hfl in Hr.
      apply (IH e1 e' Hst1); [|exact Hr].
      rewrite Hp, Hpid. intros σ b m' Hin.
      destruct (Hpar σ b m' Hin) as (j & Hj & Hσ). exists j. split; [lia | exact Hσ].
    + destruct Hres as (Hfl & Hp & Hpid). rewrite Hfl in Hr.
      apply (IH e1 e' Hst1); [|exact Hr].
      rewrite Hp, Hpid. intros σ b m' Hin.
      assert (Hold : forall m0, (σ ++ [b], m0) ∈ paths e ->
                exists j, (j < S (path_id e))%nat /\
                  <[path_id e := (π, true)]>
                    (paths e ++ [(π ++ [true], false); (π ++ [false], false)])
                  !! j = Some (σ, true)).
      { intros m0 Hm0. destruct (Hpar σ b m0 Hm0) as (j & Hj & Hσ).
        exists j. split; [lia|].
        rewrite list_lookup_insert_ne by lia.
        apply lookup_app_l_Some. exact Hσ. }
      apply list_elem_of_lookup in Hin as [i Hi].
      destruct (decide (i = path_id e)) as [->|Hne].
      * rewrite list_lookup_insert_eq in Hi
          by (rewrite length_app; simpl; lia).
        injection Hi as Hπ <-. apply (Hold m).
        rewrite <- Hπ. eapply list_elem_of_lookup_2. exact Hlook.
      * rewrite list_lookup_insert_ne in Hi by auto.
        apply lookup_app_Some in Hi as [Hi|[_ Hi]].
        -- apply (Hold m'). eapply list_elem_of_lookup_2. exact Hi.
        -- exists (path_id e). split; [lia|].
           assert (σ = π) as ->.
           { apply list_elem_of_lookup_2 in Hi.
             apply elem_of_cons in Hi as [Hi|Hi];
               [|apply list_elem_of_singleton in Hi];
               injection Hi as Hi _;
               apply app_inj_tail in Hi as [? _]; assumption. }
           apply list_lookup_insert_eq. rewrite length_app. simpl. lia.
    + destruct Hres as (Hfl & _). rewrite Hfl in Hr. discriminate.
Qed.

(** Whatever the routine, the terminal paths left by discovery are
    unmarked and pairwise distinct, and none is a prefix of another: a
    path on which the routine returned has no continuation. *)
Theorem terminal_paths_prefix_free (fuel : nat) (func : nat -> prog)
        (e e' : Engine) :
  state e <> STATE_COMPILING ->
  _find_branches fuel func e = Some (Ok tt e') ->
  (forall en, en ∈ paths e' -> snd en = false) /\
  NoDup (fst <$> paths e') /\
  (forall p q, p ∈ paths e' -> q ∈ paths e' ->
               fst p `prefix_of` fst q -> p = q).
Proof.
  intros Hst Hr. unfold _find_branches in Hr.
  set (e0 := set_path_id 0 (set_paths [([], false)] e)) in *.
  destruct (find_loop fuel func e0) as [[[] e1|x e1]|] eqn:Hfl;
    try discriminate.
  injection Hr as <-. simpl.
  assert (Hnd : NoDup (fst <$> paths e1)).
  { apply (find_loop_nodup func fuel e0 e1); [exact Hst | | | exact Hfl].
    - simpl. apply NoDup_singleton.
    - intros σ b Hin. apply list_elem_of_singleton in Hin.
      destruct σ; discriminate. }
  assert (Hpar : marked_parents (paths e1) (path_id e1)).
  { apply (find_loop_ancestry func fuel e0 e1); [exact Hst | | exact Hfl].
    intros σ b m Hin. apply list_elem_of_singleton in Hin.
    injection Hin as Hin _. destruct σ; discriminate. }
  assert (Hin : forall en, en ∈ sort_desc (List.filter terminal (paths e1)) ->
                           en ∈ paths e1 /\ snd en = false).
  { intros en Hen. rewrite sort_desc_perm in Hen.
    apply list_elem_of_In, filter_In in Hen as [Hen Ht].
    split; [apply list_elem_of_In; exact Hen|].
    unfold terminal in Ht. destruct (snd en); [discriminate | reflexivity]. }
  split; [intros en Hen; apply Hin, Hen|].
  split.
  { rewrite sort_desc_perm.
    assert (Hsub : forall l : list (list bool * bool),
               NoDup (fst <$> l) -> NoDup (fst <$> List.filter terminal l)).
    { induction l as [|a l IHl]; simpl; [auto|].
      intros Hl. apply NoDup_cons in Hl as [Ha Hl].
      destruct (terminal a); [|auto]. simpl. apply NoDup_cons.
      split; [|auto]. intros Hx. apply Ha.
      apply list_elem_of_fmap in Hx as (y & Hy & Hyin).
      apply list_elem_of_fmap. exists y. split; [exact Hy|].
      apply list_elem_of_In in Hyin. apply filter_In in Hyin as [Hyin _].
      apply list_elem_of_In. exact Hyin. }
    apply Hsub, Hnd. }
  intros [p mp] [q mq] Hp Hq Hpre. simpl in Hpre.
  destruct (Hin _ Hp) as [Hp1 Hmp], (Hin _ Hq) as [Hq1 Hmq].
  simpl in Hmp, Hmq. subst mp mq.
  destruct (decide (p = q)) as [->|Hne]; [reflexivity|].
  exfalso.
  pose proof (marked_ancestors _ _ Hpar q false p Hq1 Hpre Hne) as Hmarked.
  apply list_elem_of_lookup in Hmarked as [i Hi].
  apply list_elem_of_lookup in Hp1 as [j Hj].
  assert (i = j).
  { eapply NoDup_lookup; [exact Hnd | |];
      rewrite list_lookup_fmap; [rewrite Hi | rewrite Hj]; reflexivity. }
  subst j. congruence.
Qed.

Lemma terminal_paths_prefix_free_witness :
  exists e',
    state Engine_init <> STATE_COMPILING /\
    _find_branches 3 (fun _ => one_branch false 0 0 0) Engine_init
    = Some (Ok tt e') /\
    (forall en, en ∈ paths e' -> snd en = false) /\
    NoDup (fst <$> paths e') /\
    (forall p q, p ∈ paths e' -> q ∈ paths e' ->
                 fst p `prefix_of` fst q -> p = q).
Proof.
  assert (H1 : state Engine_init <> STATE_COMPILING) by discriminate.
  assert (H2 : _find_branches 3 (fun _ => one_branch false 0 0 0) Engine_init
               = Some (Ok tt
                         (set_paths [([true], false); ([false], false)]
                            (set_current_path [false]
                               (set_branch_id 1 (set_path_id 3 Engine_init))))))
    by (vm_compute; reflexivity).
  eexists. split; [exact H1|]. split; [exact H2|].
  exact (terminal_paths_prefix_free 3 (fun _ => one_branch false 0 0 0)
                                    Engine_init _ H1 H2).
Defined.

(** ** The order of the terminal paths *)

Lemma path_ltb_trans p : forall q r,
  path_ltb p q = true -> path_ltb q r = true -> path_ltb p r = true.
Proof.
  induction p as [|a p IH]; intros [|b q] [|c r]; simpl;
    try discriminate; try reflexivity.
  destruct a, b, c; simpl; try discriminate; try reflexivity; apply IH.
Qed.

Lemma insert_desc_descending x l :
  descending l -> descending (insert_desc x l).
Proof.
  induction l as [|y l IH]; simpl; [repeat constructor|].
  intros [Hy Hl].
  destruct (path_ltb (fst y) (fst x)) eqn:Hyx; simpl.
  - split; [|split; assumption].
    constructor.
    + destruct (path_ltb (fst x) (fst y)) eqn:Hxy; [|reflexivity].
      pose proof (path_ltb_trans _ _ _ Hxy Hyx) as Hxx.
      clear -Hxx. exfalso. induction (fst x) as [|a p IHp]; simpl in Hxx;
        [discriminate|]. destruct a; simpl in Hxx; auto.
    + eapply Forall_impl; [exact Hy|]. intros z Hz. simpl in Hz.
      destruct (path_ltb (fst x) (fst z)) eqn:Hxz; [|reflexivity].
      rewrite (path_ltb_trans _ _ _ Hyx Hxz) in Hz. discriminate.
  - split; [|apply IH, Hl].
    rewrite insert_desc_perm. constructor; assumption.
Qed.

Lemma sort_desc_descending l : descending (sort_desc l).
Proof.
  induction l as [|x l IH]; simpl; [exact I|].
  apply insert_desc_descending, IH.
Qed.

(** Whatever the routine, discovery leaves the terminal paths in
    descending tuple order (true before false, a path before its
    prefixes): no path is smaller than one that comes after it. *)
Theorem terminal_paths_descending (fuel : nat) (func : nat -> prog)
        (e e' : Engine) :
  _find_branches fuel func e = Some (Ok tt e') -> descending (paths e').
Proof.
  unfold _find_branches.
  destruct (find_loop fuel func _) as [[[] e1|x e1]|]; try discriminate.
  intros [= <-]. simpl. apply sort_desc_descending.
Qed.

Lemma terminal_paths_descending_witness :
  exists e',
    _find_branches 3 (fun _ => one_branch false 0 0 0) Engine_init
    = Some (Ok tt e') /\
    descending (paths e').
Proof.
  assert (H2 : _find_branches 3 (fun _ => one_branch false 0 0 0) Engine_init
               = Some (Ok tt
                         (set_paths [([true], false); ([false], false)]
                            (set_current_path [false]
                               (set_branch_id 1 (set_path_id 3 Engine_init))))))
    by (vm_compute; reflexivity).
  eexists. split; [exact H2|].
  exact (terminal_paths_descending 3 (fun _ => one_branch false 0 0 0)
                                   Engine_init _ H2).
Defined.

(** ** How [paths] changes *)

Lemma paths_rule_bind {A B} (m : M A) (k : A -> M B) :
  paths_rule m -> (forall a, paths_rule (k a)) -> paths_rule (bind m k).
Proof.
  intros Hm Hk e. unfold bind. specialize (Hm e).
  destruct (m e) as [a e1|x e1]; [|exact Hm].
  destruct Hm as [Hp Hc]. specialize (Hk a e1).
  destruct (k a e1) as [b e2|x e2].
  - destruct Hk as [Hp2 Hc2]. split; congruence.
  - destruct Hk as [Hc2 Hk]. rewrite Hc, Hp in Hk. rewrite Hc in Hc2.
    split; assumption.
Qed.

Lemma paths_rule_ret {A} (a : A) : paths_rule (ret a).
Proof. intros e. simpl. split; reflexivity. Qed.

Lemma paths_rule_gets {A} (f : Engine -> A) : paths_rule (gets f).
Proof. intros e. simpl. split; reflexivity. Qed.

Lemma paths_rule_raise {A} x : x <> NewBranch -> paths_rule (@raise A x).
Proof. intros Hx e. simpl. split; [reflexivity | right; split; auto]. Qed.

Lemma paths_rule_modify f :
  (forall e, paths (f e) = paths e /\ current_path (f e) = current_path e) ->
  paths_rule (modify f).
Proof. intros H e. simpl. apply H. Qed.

Ltac paths_modify := apply paths_rule_modify; intros ?; split; reflexivity.

Lemma paths_rule_the_current_block : paths_rule the_current_block.
Proof.
  intros e. unfold the_current_block.
  destruct (current_block e); simpl;
    [split; reflexivity | split; [reflexivity | right; split; [discriminate | reflexivity]]].
Qed.

Lemma paths_rule_store_jump b o t : paths_rule (store_jump b o t).
Proof.
  destruct b; simpl; [paths_modify | apply paths_rule_raise; discriminate].
Qed.

Lemma paths_rule_push st : paths_rule (push st).
Proof.
  unfold push.
  apply paths_rule_bind; [apply paths_rule_the_current_block|]. intros block.
  repeat (apply paths_rule_bind; [paths_modify | intros _]).
  intros e. destruct (state_blocks e !! path_stack e); simpl; split; reflexivity.
Qed.

Lemma paths_rule_pop : paths_rule pop.
Proof.
  unfold pop.
  apply paths_rule_bind; [apply paths_rule_the_current_block|]. intros cur.
  apply paths_rule_bind; [paths_modify|]. intros _.
  apply paths_rule_bind.
  { intros e. destruct (list_pop (stack e)) as [[s x]|]; simpl;
      [split; reflexivity
      | split; [reflexivity | right; split; [discriminate | reflexivity]]]. }
  intros block. apply paths_rule_bind.
  { intros e. destruct (list_pop (path_stack e)) as [[s x]|]; simpl;
      [split; reflexivity
      | split; [reflexivity | right; split; [discriminate | reflexivity]]]. }
  intros _.
  repeat (apply paths_rule_bind; [paths_modify | intros _]).
  intros e. destruct (blocks e !! block ≫= buff); simpl;
    [split; reflexivity
    | split; [reflexivity | right; split; [discriminate | reflexivity]]].
Qed.

Lemma paths_rule_write_value v s : paths_rule (write_value v s).
Proof. paths_modify. Qed.

Lemma paths_rule_branch c : paths_rule (branch c).
Proof.
  intros e. unfold branch.
  destruct (current_path e !! branch_id e) as [d|]; simpl.
  2:{ split; [reflexivity | left; split; reflexivity]. }
  change (paths e) with (paths (set_branch_id (S (branch_id e)) e)).
  change (current_path e)
    with (current_path (set_branch_id (S (branch_id e)) e)).
  generalize (set_branch_id (S (branch_id e)) e).
  change (paths_rule
            (c0 <- compiling ;;
             (if c0
              then
                old_block <- gets current_block ;;
                true_ofs <- write_branch true c ;;
                false_ofs <- write_branch false c ;;
                push (TBool d) ;;;
                cur <- the_current_block ;;
                (if d
                 then store_jump old_block true_ofs cur
                 else store_jump old_block false_ofs cur)
              else ret tt) ;;;
             ret d)).
  apply paths_rule_bind; [apply paths_rule_gets|]. intros c0.
  apply paths_rule_bind; [|intros _; apply paths_rule_ret].
  destruct c0; [|apply paths_rule_ret].
  apply paths_rule_bind; [apply paths_rule_gets|]. intros old.
  assert (Hwb : forall x, paths_rule (write_branch x c)).
  { intros x. unfold write_branch.
    apply paths_rule_bind; [apply paths_rule_gets|]. intros ofs.
    apply paths_rule_bind; [apply paths_rule_write_value|]. intros _.
    apply paths_rule_ret. }
  apply paths_rule_bind; [apply Hwb|]. intros tofs.
  apply paths_rule_bind; [apply Hwb|]. intros fofs.
  apply paths_rule_bind; [apply paths_rule_push|]. intros _.
  apply paths_rule_bind; [apply paths_rule_the_current_block|]. intros cur.
  destruct d; apply paths_rule_store_jump.
Qed.

Lemma paths_rule_call f (body : M val) :
  paths_rule body -> paths_rule (call f body).
Proof.
  intros Hb. unfold call.
  apply paths_rule_bind; [apply paths_rule_gets|]. intros c.
  apply paths_rule_bind.
  { destruct c; [|apply paths_rule_ret].
    apply paths_rule_bind; [apply paths_rule_gets|]. intros block.
    apply paths_rule_bind.
    { unfold write_jump.
      apply paths_rule_bind; [apply paths_rule_write_value|]. intros _.
      apply paths_rule_bind; [apply paths_rule_gets|]. intros pos.
      apply paths_rule_ret. }
    intros ofs. apply paths_rule_bind; [apply paths_rule_push|]. intros _.
    apply paths_rule_bind; [apply paths_rule_the_current_block|]. intros cur.
    apply paths_rule_store_jump. }
  intros _. apply paths_rule_bind; [exact Hb|]. intros r.
  apply paths_rule_bind; [apply paths_rule_gets|]. intros c'.
  apply paths_rule_bind; [|intros _; apply paths_rule_ret].
  destruct c'; [|apply paths_rule_ret].
  apply paths_rule_bind; [apply paths_rule_ret | intros _; apply paths_rule_pop].
Qed.

Lemma exec_paths_rule p : paths_rule (exec p).
Proof.
  induction p as [v|c k IH|c k IH|f body IHb k IHk|v s k IH|v s k IH|c];
    simpl.
  - apply paths_rule_ret.
  - apply (paths_rule_bind (branch c) (fun b => exec (k b)));
      [apply paths_rule_branch | exact IH].
  - apply (paths_rule_bind (loop c) (fun b => exec (k b)));
      [apply paths_rule_raise; discriminate | exact IH].
  - apply (paths_rule_bind (call f (exec body)) (fun v => exec (k v)));
      [apply paths_rule_call; exact IHb | exact IHk].
  - apply (paths_rule_bind (unknown v s) (fun _ => exec k));
      [|intros _; exact IH].
    unfold unknown. apply paths_rule_bind; [apply paths_rule_gets|].
    intros []; [apply paths_rule_write_value | apply paths_rule_ret].
  - apply (paths_rule_bind (write_value v s) (fun _ => exec k));
      [apply paths_rule_write_value | intros _; exact IH].
  - apply paths_rule_raise. discriminate.
Qed.

(** In either phase a run of the routine extends [paths] only when it
    ends with [NewBranch], and then by exactly the two continuations of
    the path it was following; a run that returns or raises anything else
    leaves [paths] as it was. *)
Theorem paths_extended_only_by_signal (p : prog) (e : Engine) :
  match exec p e with
  | Ok _ e' => paths e' = paths e
  | Err x e' =>
      x = NewBranch /\
      paths e' = paths e ++ [(current_path e ++ [true], false);
                             (current_path e ++ [false], false)]
      \/ x <> NewBranch /\ paths e' = paths e
  end.
Proof.
  pose proof (exec_paths_rule p e) as H.
  destruct (exec p e) as [v e'|x e']; [apply H | apply H].
Qed.

(** ** Routines without [branch] *)

Lemma call_returns f (m : M val) e v e' :
  call f m e = Ok v e' -> exists e1 e2, m e1 = Ok v e2.
Proof.
  unfold call, bind.
  destruct (compiling e) as [c e0|]; [|discriminate].
  match goal with
  | |- match ?x with _ => _ end = _ -> _ =>
      destruct x as [[] ea|]; [|discriminate]
  end.
  destruct (m ea) as [r eb|] eqn:Hm; [|discriminate].
  destruct (compiling eb) as [c' ec|]; [|discriminate].
  match goal with
  | |- match ?x with _ => _ end = _ -> _ =>
      destruct x as [[] ed|]; [|discriminate]
  end.
  unfold ret. intros [= <- _]. eauto.
Qed.

Lemma exec_straight_value p : straight p -> forall e v e',
  exec p e = Ok v e' -> v = straight_result p.
Proof.
  induction p as [v|c k IH|c k IH|f body IHb k IHk|v s k IH|v s k IH|c];
    simpl; intros Hs e w e'; try contradiction.
  - unfold ret. intros [= <- _]. reflexivity.
  - destruct Hs as [Hsb Hsk].
    destruct (call f (exec body) e) as [v e1|] eqn:Hcall; [|discriminate].
    destruct (call_returns _ _ _ _ _ Hcall) as (ea & eb & Hb).
    rewrite (IHb Hsb _ _ _ Hb). apply IHk, Hsk.
  - destruct (unknown v s e) as [[] e1|]; [|discriminate]. apply IH, Hs.
  - apply IH, Hs.
Qed.

Lemma flatten_straight p : straight p -> flatten p = DRet (straight_result p).
Proof.
  induction p as [v|c k IH|c k IH|f body IHb k IHk|v s k IH|v s k IH|c];
    simpl; intros Hs; try contradiction; auto.
  destruct Hs as [Hsb Hsk]. rewrite (IHb Hsb). simpl. apply IHk, Hsk.
Qed.

Lemma exec_straight_buffer p : straight p -> forall e c,
  compiling_inv e c ->
  exists e',
    exec p e = Ok (straight_result p) e' /\
    straight_post e c e' /\
    buffer e' = buffer e ++ straight_output p.
Proof.
  induction p as [v|cd k IH|cd k IH|f body IHb k IHk|v s k IH|v s k IH|cd];
    simpl; intros Hs e c Hinv; try contradiction.
  - exists e. split; [reflexivity|].
    split; [apply straight_post_refl, Hinv | rewrite app_nil_r; reflexivity].
  - destruct Hs as [Hsb Hsk].
    destruct (call_straight f (exec body) e c Hinv (exec_straight body Hsb))
      as (v & e1 & b & C & Hcall & Hpost & Hbuf & _).
    assert (v = straight_result body) as ->.
    { destruct (call_returns _ _ _ _ _ Hcall) as (ea & eb & Hb).
      eapply exec_straight_value; eassumption. }
    rewrite Hcall.
    destruct (IHk (straight_result body) (Hsk _) e1 c (proj1 Hpost))
      as (e2 & Hk & Hpost2 & Hbuf2).
    exists e2. split; [exact Hk|].
    split; [eapply straight_post_trans; eassumption|].
    rewrite Hbuf2, Hbuf, <- app_assoc. reflexivity.
  - unfold unknown, bind. rewrite compiling_true by apply Hinv.
    unfold write_value, write, modify.
    pose proof (straight_post_buffer e c (buffer e ++ value_bytes v s) Hinv)
      as Hpost.
    destruct (IH Hs _ c (proj1 Hpost)) as (e2 & Hk & Hpost2 & Hbuf2).
    exists e2. split; [exact Hk|].
    split; [exact (straight_post_trans _ _ _ _ Hpost Hpost2)|].
    rewrite Hbuf2. simpl. rewrite <- app_assoc. reflexivity.
  - unfold write_value, write, modify.
    pose proof (straight_post_buffer e c (buffer e ++ value_bytes v s) Hinv)
      as Hpost.
    destruct (IH Hs _ c (proj1 Hpost)) as (e2 & Hk & Hpost2 & Hbuf2).
    exists e2. split; [exact Hk|].
    split; [exact (straight_post_trans _ _ _ _ Hpost Hpost2)|].
    rewrite Hbuf2. simpl. rewrite <- app_assoc. reflexivity.
Qed.

(** For a routine that calls neither [branch] nor [loop] and raises
    nothing, [compile] on an engine with an empty stack finds the single
    empty path and returns a new root block whose content is exactly what
    the routine emits: the bytes of its [unknown] and [write_value] calls
    in order, with four zero bytes for each [call] it makes itself.  The
    blocks that existed before are left as they were. *)
Theorem compile_straight (p : prog) (e : Engine) :
  straight p ->
  stack e = [] ->
  exists e',
    compile 1 (fun _ => p) e = Some (Ok (length (blocks e)) e') /\
    state e' = STATE_IDLE /\
    paths e' = [([], false)] /\
    blocks e' !! length (blocks e) ≫= buff = Some (straight_output p) /\
    stack e' = [] /\
    (forall r, (r < length (blocks e))%nat -> blocks e' !! r = blocks e !! r).
Proof.
  intros Hs Hstack.
  (* discovery: one run, which returns *)
  set (eb := set_state STATE_BUILDING_BRANCHES e).
  set (e0 := set_path_id 0 (set_paths [([], false)] eb)).
  destruct (find_loop_step 0 (fun _ => p) e0 [] false)
    as (e1 & Hf & _ & Hres); [simpl; discriminate | reflexivity |].
  simpl path_id in Hres. rewrite (flatten_straight p Hs) in Hres.
  cbn [dfeed] in Hres.
  destruct Hres as (Hfl & Hp & Hpid).
  rewrite (find_loop_done 0 _ e1) in Hfl by (rewrite Hp, Hpid; simpl; lia).
  destruct Hf as (Hst1 & Hstack1 & Hcur1 & Hsb1 & Hps1 & Hbl1).
  simpl in Hst1, Hstack1, Hcur1, Hsb1, Hps1, Hbl1, Hp.
  assert (Hfb : _find_branches 1 (fun _ => p) eb
                = Some (Ok tt (set_paths [([], false)] e1))).
  { unfold _find_branches. fold e0. rewrite Hfl, Hp. reflexivity. }
  (* the compile phase *)
  rewrite <- Hbl1.
  set (root := length (blocks e1)).
  set (e3 := set_current_path []
               (set_branch_id 0
                  (set_buffer []
                     (set_blocks (blocks e1 ++ [new_block])
                        (set_current_block (Some root)
                           (set_state_blocks ∅
                              (set_state STATE_COMPILING
                                 (set_paths [([], false)] e1)))))))).
  assert (Hinv : compiling_inv e3 root).
  { unfold compiling_inv, e3. simpl. rewrite length_app. simpl.
    split; [reflexivity|]. split; [reflexivity|]. split; [subst root; lia|].
    split; [intros key v H; rewrite lookup_empty in H; discriminate|].
    split; [intros k1 k2 v H; rewrite lookup_empty in H; discriminate|].
    intros key H; rewrite lookup_empty in H; discriminate. }
  destruct (exec_straight_buffer p Hs e3 root Hinv) as (e4 & Hexec & Hpost & Hbuf).
  destruct Hpost as (Hinv4 & Hstack4 & _ & _ & _ & Hlen4 & Huntouched).
  destruct Hinv4 as (Hst4 & Hcur4 & Hroot4 & _).
  simpl in Hstack4, Hlen4, Huntouched, Hbuf.
  rewrite Hstack1, Hstack in Hstack4.
  destruct (lookup_lt_is_Some_2 _ _ Hroot4) as [R HR].
  exists (set_state STATE_IDLE
            (set_blocks (alter (set_buff (buffer e4)) root (blocks e4)) e4)).
  split.
  { unfold compile, compile_body. fold eb. rewrite Hfb. simpl.
    fold root.
    unfold bind at 1, reset, modify. unfold bind at 1. unfold bind at 1.
    simpl. fold e3. unfold bind at 1. rewrite Hexec.
    unfold bind, write_end, ret, the_current_block. rewrite Hcur4.
    unfold store_buff, modify, unwind. simpl.
    rewrite Hstack4. simpl. rewrite Hstack4. reflexivity. }
  simpl. split; [reflexivity|].
  split.
  { pose proof (exec_paths_rule p e3) as Hg. rewrite Hexec in Hg.
    rewrite (proj1 Hg). reflexivity. }
  split; [rewrite list_lookup_alter_eq, HR, Hbuf; reflexivity|].
  split; [exact Hstack4|].
  intros r Hr. rewrite list_lookup_alter_ne by (subst root; lia).
  rewrite Huntouched.
  - apply lookup_app_l. exact Hr.
  - subst root. lia.
  - rewrite length_app. simpl. lia.
  - intros key H. rewrite lookup_empty in H. discriminate.
Qed.

Lemma compile_straight_witness :
  let p := Unknown 1 1
             (Call 7%nat leaf_sub (fun _ => WriteValue 2 1 (Ret 0))) in
  straight p /\
  stack Engine_init = [] /\
  exists e',
    compile 1 (fun _ => p) Engine_init
    = Some (Ok (length (blocks Engine_init)) e') /\
    state e' = STATE_IDLE /\
    paths e' = [([], false)] /\
    blocks e' !! length (blocks Engine_init) ≫= buff
    = Some (straight_output p) /\
    stack e' = [] /\
    (forall r, (r < length (blocks Engine_init))%nat ->
               blocks e' !! r = blocks Engine_init !! r).
Proof.
  intros p.
  assert (Hs : straight p) by (split; [exact I | intros _; exact I]).
  split; [exact Hs|]. split; [reflexivity|].
  exact (compile_straight p Engine_init Hs eq_refl).
Defined.

(** ** Reading from the registry *)

(** Reading a name that is not an attribute of the collection itself
    returns its entry: the cached one if there is one, else a fresh entry
    carrying the name and no value, which is cached.  The read leaves the
    other entries alone, adds exactly that name to [__dir__], and reading
    again returns the same entry without changing the registry. *)
Theorem registry_read_cached (name : string) (cache : gmap string Variable_) :
  name ∉ instance_attributes ++ class_attributes ++ object_attributes ->
  exists var cache',
    VariableCollection.getattr name cache = Done (AVariable var) cache' /\
    var = default (VariableCollection._create name) (cache !! name) /\
    cache' !! name = Some var /\
    (forall other, other <> name -> cache' !! other = cache !! other) /\
    VariableCollection.__dir__ cache'
    = {[name]} ∪ VariableCollection.__dir__ cache /\
    VariableCollection.getattr name cache' = Done (AVariable var) cache'.
Proof.
  intros Hn. pose proof (normal_lookup_none name Hn) as Hl.
  unfold VariableCollection.getattr, VariableCollection.__getattr__,
    VariableCollection.__dir__.
  rewrite Hl. destruct (cache !! name) as [v|] eqn:Hc; simpl.
  - exists v, cache. rewrite Hc. repeat split; auto.
    apply set_eq. intros x. rewrite elem_of_union, elem_of_singleton, !elem_of_dom.
    split; [auto|]. intros [->|H]; [eauto | exact H].
  - eexists _, _. split; [reflexivity|]. split; [reflexivity|].
    rewrite lookup_insert_eq. split; [reflexivity|].
    split; [intros other Ho; apply lookup_insert_ne; auto|].
    split; [apply dom_insert_L | reflexivity].
Qed.

Lemma registry_read_cached_witness :
  ("x"%string ∉ instance_attributes ++ class_attributes ++ object_attributes) /\
  exists var cache',
    VariableCollection.getattr "x" ∅ = Done (AVariable var) cache' /\
    var = default (VariableCollection._create "x")
                  ((∅ : gmap string Variable_) !! "x"%string) /\
    cache' !! "x"%string = Some var /\
    (forall other, other <> "x"%string ->
                   cache' !! other = (∅ : gmap string Variable_) !! other) /\
    VariableCollection.__dir__ cache'
    = {[ "x"%string ]} ∪ VariableCollection.__dir__ ∅ /\
    VariableCollection.getattr "x" cache' = Done (AVariable var) cache'.
Proof.
  assert (H : "x"%string ∉ instance_attributes ++ class_attributes
                            ++ object_attributes).
  { intros Hin. apply list_elem_of_In in Hin. vm_compute in Hin.
    repeat (destruct Hin as [Hin|Hin]; [discriminate|]). exact Hin. }
  split; [exact H | exact (registry_read_cached "x" ∅ H)].
Defined.

(** ** Assigning through the registry *)

(** Assigning to a variable whose name is not an attribute of the
    collection itself changes that entry only: the other entries are as
    before, the name is listed by [__dir__], the entry keeps its name, and
    a second assignment replaces the value of the first (the result is the
    one of the second assignment alone). *)
Theorem registry_assign_frame (name : string) (v1 v2 : val)
        (cache : gmap string Variable_) :
  name ∉ instance_attributes ++ class_attributes ++ object_attributes ->
  exists c1 c2,
    VariableCollection.__setattr__ name v1 cache = Done tt c1 /\
    (forall other, other <> name -> c1 !! other = cache !! other) /\
    c1 !! name = Some {| var_name := var_name (default
                                       (VariableCollection._create name)
                                       (cache !! name));
                         var_value := Some v1 |} /\
    VariableCollection.__dir__ c1 = {[name]} ∪ VariableCollection.__dir__ cache /\
    VariableCollection.__setattr__ name v2 c1 = Done tt c2 /\
    VariableCollection.__setattr__ name v2 cache = Done tt c2.
Proof.
  intros Hn. pose proof (normal_lookup_none name Hn) as Hl.
  unfold VariableCollection.__setattr__, VariableCollection.getattr,
    VariableCollection.__getattr__, VariableCollection.__dir__.
  rewrite Hl. destruct (cache !! name) as [v|] eqn:Hc; simpl.
  - eexists _, _. split; [reflexivity|].
    split; [intros other Ho; apply lookup_insert_ne; auto|].
    rewrite lookup_insert_eq. split; [reflexivity|].
    split; [apply dom_insert_L|]. simpl.
    rewrite insert_insert_eq. split; reflexivity.
  - eexists _, _. split; [reflexivity|].
    split.
    { intros other Ho. rewrite !lookup_insert_ne by auto. reflexivity. }
    rewrite lookup_insert_eq. split; [reflexivity|].
    split; [rewrite !dom_insert_L; apply set_eq; intros x;
            rewrite !elem_of_union; tauto|]. simpl.
    rewrite !insert_insert_eq. split; reflexivity.
Qed.

Lemma registry_assign_frame_witness :
  ("x"%string ∉ instance_attributes ++ class_attributes ++ object_attributes) /\
  exists c1 c2,
    VariableCollection.__setattr__ "x" 1 ∅ = Done tt c1 /\
    (forall other, other <> "x"%string ->
                   c1 !! other = (∅ : gmap string Variable_) !! other) /\
    c1 !! "x"%string
    = Some {| var_name := var_name (default
                                      (VariableCollection._create "x")
                                      ((∅ : gmap string Variable_) !! "x"%string));
              var_value := Some 1 |} /\
    VariableCollection.__dir__ c1
    = {[ "x"%string ]} ∪ VariableCollection.__dir__ ∅ /\
    VariableCollection.__setattr__ "x" 2 c1 = Done tt c2 /\
    VariableCollection.__setattr__ "x" 2 ∅ = Done tt c2.
Proof.
  assert (H : "x"%string ∉ instance_attributes ++ class_attributes
                            ++ object_attributes).
  { intros Hin. apply list_elem_of_In in Hin. vm_compute in Hin.
    repeat (destruct Hin as [Hin|Hin]; [discriminate|]). exact Hin. }
  split; [exact H | exact (registry_assign_frame "x" 1 2 ∅ H)].
Defined.

(** ** Equality and the [offset] field *)

Lemma eq_scan_ext rec rec' A A' B B' ba bb :
  jumps A = jumps A' -> jumps B = jumps B' ->
  (forall x y, rec x y = rec' x y) ->
  forall n idx,
    eq_scan rec A B ba bb n idx = eq_scan rec' A' B' ba bb n idx.
Proof.
  intros HA HB Hrec. induction n as [|n IH]; intros idx; simpl; [reflexivity|].
  rewrite <- HA, <- HB.
  destruct (idx <? Z.of_nat (length ba)); [|reflexivity].
  destruct (jumps A !! idx) as [ta|].
  - destruct (jumps B !! idx) as [tb|]; [|reflexivity].
    rewrite <- Hrec. destruct (rec ta tb) as [[x|[|]]|]; auto.
  - destruct (ba !! Z.to_nat idx), (bb !! Z.to_nat idx); try reflexivity.
    destruct (_ =? _); [apply IH | reflexivity].
Qed.

(** [__eq__] reads only the content and the jump maps: in two arenas
    whose blocks agree on both, whatever their [offset] fields hold, every
    comparison has the same outcome.  Filling in the offsets of blocks
    does not change which blocks are equal. *)
Theorem block_eq_ignores_offset (fuel : nat) (h h' : list EngineBlock)
        (a b : nat) :
  same_content h h' ->
  block_eq fuel h a b = block_eq fuel h' a b.
Proof.
  intros Hsame. revert a b.
  induction fuel as [|fuel IH]; intros a b; simpl; [reflexivity|].
  destruct (decide (a = b)); [reflexivity|].
  assert (Hlook : forall r,
             match h !! r, h' !! r with
             | Some A, Some A' => buff A = buff A' /\ jumps A = jumps A'
             | None, None => True
             | _, _ => False
             end).
  { intros r. destruct (h !! r) as [A|] eqn:HA.
    - destruct (Forall2_lookup_l _ _ _ _ _ Hsame HA) as (A' & HA' & HP).
      rewrite HA'. exact HP.
    - destruct (h' !! r) as [A'|] eqn:HA'; [|exact I].
      destruct (Forall2_lookup_r _ _ _ _ _ Hsame HA') as (A & HA2 & _).
      congruence. }
  pose proof (Hlook a) as Ha. pose proof (Hlook b) as Hb.
  destruct (h !! a) as [A|], (h' !! a) as [A'|]; try contradiction;
    [|reflexivity].
  destruct (h !! b) as [B|], (h' !! b) as [B'|]; try contradiction;
    [|reflexivity].
  destruct Ha as [HbA HjA], Hb as [HbB HjB]. rewrite <- HbA, <- HbB.
  destruct (buff A) as [ba|]; [|reflexivity].
  destruct (buff B) as [bb|]; [|reflexivity].
  destruct (negb _); [reflexivity|].
  apply eq_scan_ext; assumption.
Qed.

Lemma block_eq_ignores_offset_witness :
  same_content similar_blocks
    (map (fun B => {| buff := buff B; jumps := jumps B; offset := 64 |})
         similar_blocks) /\
  block_eq 4 similar_blocks 0 1
  = block_eq 4 (map (fun B => {| buff := buff B; jumps := jumps B;
                                 offset := 64 |}) similar_blocks) 0 1.
Proof.
  assert (H : same_content similar_blocks
                (map (fun B => {| buff := buff B; jumps := jumps B;
                                  offset := 64 |}) similar_blocks)).
  { repeat constructor. }
  split; [exact H | exact (block_eq_ignores_offset 4 _ _ 0%nat 1%nat H)].
Defined.

(** ** Call sites and contexts *)



























(** A routine that calls subroutine 1, writes a byte, calls subroutine 2
    (which itself calls subroutine 1) and calls subroutine 1 twice more:
    the three call sites of subroutine 1 at the top level, at offsets 0, 9
    and 13 of the root block, share block 1; the call site inside
    subroutine 2 is wired to another block. *)
Lemma scattered_call_sites :
  exists root e R G,
    compile 1 (fun _ => scattered_calls) Engine_init = Some (Ok root e) /\
    blocks e !! root = Some R /\
    jumps R !! 0 = Some 1%nat /\ jumps R !! 5 = Some 2%nat /\
    jumps R !! 9 = Some 1%nat /\ jumps R !! 13 = Some 1%nat /\
    blocks e !! 2%nat = Some G /\ jumps G !! 0 = Some 3%nat /\
    call_sites 0 scattered_calls
    = [(0, 1%nat); (5, 2%nat); (9, 1%nat); (13, 1%nat)].
Proof.
  destruct (compile 1 (fun _ => scattered_calls) Engine_init)
    as [[root e|x e]|] eqn:H; vm_compute in H; try discriminate.
  injection H as <- <-.
  do 4 eexists. split; [reflexivity|].
  repeat (split; [reflexivity|]). reflexivity.
Qed.
